(** * Builtin evaluation of libminizinc ([lib/builtins.cpp])

    A shallow embedding of the builtins that evaluate calls on constant
    arguments, and of the bound computation for integer division.

    Conventions of the embedding:
    - a C++ function that can [throw] returns a [result];
    - [Expression*] that may be [NULL] is an [option Expression];
    - the evaluators of [eval_par.cpp], the pretty printer and the
      distributions of [<random>] are not part of [builtins.cpp]: they are the
      fields of the interfaces [Evaluator], [Printer] and [Random];
    - the value classes of [values.hh], the range iterators of
      [iterators.hh] and the syntax tree of [ast.hh] and [type.hh] are used
      by [builtins.cpp] and declared elsewhere: they are modelled after what
      the specification says of them, integers being the integers of [Z];
    - the random engine of the process is a state that the sampling builtins
      take and return;
    - a loop that follows pointers takes fuel, and returns [None] when the
      fuel does not suffice;
    - source locations carried by exceptions are left out. *)

From Stdlib Require Import ZArith Lia SpecFloat Sorted Permutation.
From stdpp Require Import base option list strings pretty.

Local Open Scope Z_scope.

(** ** Exceptions and results *)

Inductive Exception : Type :=
| EvalError (msg : string)
| ResultUndefinedError (msg : string)
| ArithmeticError (msg : string)
| AssertionViolation.

Inductive result (A : Type) : Type :=
| Ok (a : A)
| Throw (e : Exception).
Arguments Ok {A} a.
Arguments Throw {A} e.

#[global] Instance result_ret : MRet result := fun A a => Ok a.
#[global] Instance result_bind : MBind result := fun A B f m =>
  match m with
  | Ok a => f a
  | Throw e => Throw e
  end.

(** ** Values ([values.hh]) *)

(** Modelled from the spec: [IntVal] is declared in [values.hh]; it is an
    integer or one of the two infinities, and arithmetic on the finite values
    is integer arithmetic. *)
Inductive IntVal : Type :=
| IntFinite (v : Z)
| IntPlusInfinity
| IntMinusInfinity.

#[global] Instance IntVal_eq_dec : EqDecision IntVal.
Proof. solve_decision. Defined.

Module IntVal_.

Definition isFinite (x : IntVal) : bool :=
  match x with IntFinite _ => true | _ => false end.

Definition toInt (x : IntVal) : result Z :=
  match x with
  | IntFinite v => Ok v
  | _ => Throw (ArithmeticError "arithmetic operation on infinite value")
  end.

(** [std::numeric_limits<long long>::max()] and [min()]. *)
Definition maxint : Z := 2 ^ 63 - 1.
Definition minint : Z := - 2 ^ 63.

(** [operator<] on [IntVal]. *)
Definition ltb (x y : IntVal) : bool :=
  match x, y with
  | IntFinite a, IntFinite b => a <? b
  | IntMinusInfinity, IntMinusInfinity => false
  | IntMinusInfinity, _ => true
  | _, IntPlusInfinity => match x with IntPlusInfinity => false | _ => true end
  | _, _ => false
  end.

(** [std::min(a, b)] is [(b < a) ? b : a], [std::max(a, b)] is
    [(a < b) ? b : a]. *)
Definition min (a b : IntVal) : IntVal := if ltb b a then b else a.
Definition max (a b : IntVal) : IntVal := if ltb a b then b else a.

Definition plus (x y : IntVal) : result IntVal :=
  match x, y with
  | IntFinite a, IntFinite b => Ok (IntFinite (a + b))
  | _, _ => Throw (ArithmeticError "arithmetic operation on infinite value")
  end.

Definition times (x y : IntVal) : result IntVal :=
  match x, y with
  | IntFinite a, IntFinite b => Ok (IntFinite (a * b))
  | _, _ => Throw (ArithmeticError "arithmetic operation on infinite value")
  end.

(** Division of the finite values is the division of C++: it truncates
    towards zero. *)
Definition div (x y : Z) : result Z :=
  if y =? 0 then Throw (ArithmeticError "division by zero")
  else Ok (x ÷ y).

End IntVal_.

(** Modelled from the spec: [FloatVal] is declared in [values.hh]; it is a
    float with the semantics of IEEE 754 and its infinities, here a binary
    float as the Standard Library specifies them (NaN included). *)
Definition FloatVal : Type := spec_float.

Module FloatVal_.

Definition ltb (x y : FloatVal) : bool := SFltb x y.
Definition min (a b : FloatVal) : FloatVal := if ltb b a then b else a.
Definition max (a b : FloatVal) : FloatVal := if ltb a b then b else a.
Definition is_nan (x : FloatVal) : bool :=
  match x with S754_nan => true | _ => false end.

End FloatVal_.

(** Modelled from the spec: [IntSetVal] is declared in [values.hh]; a range
    set is the list of its closed ranges, ascending. *)
Definition IntSetVal : Type := list (IntVal * IntVal).

Module IntSetVal_.

(** [IntSetVal::a(m, n)]: the set of the one range [m..n]. *)
Definition a (m n : IntVal) : IntSetVal :=
  if IntVal_.ltb n m then [] else [(m, n)].

(** [constants().infinity->isv()]. *)
Definition infinity : IntSetVal := [(IntMinusInfinity, IntPlusInfinity)].

End IntSetVal_.

(** Modelled from the spec: [IntBounds] is declared in [eval_par.hh]; the
    pair of a lower and an upper bound and the flag that says whether they
    could be determined. *)
Record IntBounds : Type := mkIntBounds {
  ib_l : IntVal;
  ib_u : IntVal;
  ib_valid : bool
}.

(** ** Range iterators ([iterators.hh]) over finite bounds *)

Module Ranges.

Definition range : Type := (Z * Z)%type.

(** [Ranges::Const<IntVal>(min, max)]: one range, none when [min > max]. *)
Definition Const (mi ma : Z) : list range :=
  if ma <? mi then [] else [(mi, ma)].

(** What is left of the range [r] without the range [c]. *)
Definition minus1 (r c : range) : list range :=
  let '(a, b) := r in
  let '(c1, c2) := c in
  if (b <? c1) || (c2 <? a) then [r]
  else (if a <? c1 then [(a, c1 - 1)] else [])
       ++ (if c2 <? b then [(c2 + 1, b)] else []).

(** Modelled from the spec: [Ranges::Diff] is declared in [iterators.hh]; it
    iterates the ranges of the first iterator with the sub-runs covered by the
    second one skipped. *)
Definition Diff (i j : list range) : list range :=
  foldl (fun acc c => r ← acc; minus1 r c) i j.

End Ranges.

(** ** Types and expressions ([type.hh], [ast.hh]) *)

(** Modelled from the spec: [Type] is declared in [type.hh]; its base kind,
    whether it is a set, its instantiation (parameter or variable), its
    optionality and its dimensionality. *)

Inductive BaseType : Type :=
| BT_BOOL | BT_INT | BT_FLOAT | BT_STRING | BT_ANN | BT_TOP | BT_BOT | BT_UNKNOWN.

Inductive SetType : Type := ST_PLAIN | ST_SET.

Inductive TypeInst : Type := TI_PAR | TI_VAR.

Inductive OptType : Type := OT_PRESENT | OT_OPTIONAL.

Record Ty : Type := mkTy {
  ty_bt : BaseType;
  ty_st : SetType;
  ty_ti : TypeInst;
  ty_ot : OptType;
  ty_dim : Z
}.

Module Ty_.

Definition ispar (t : Ty) : bool :=
  match ty_ti t with TI_PAR => true | TI_VAR => false end.
Definition isvar (t : Ty) : bool := negb (ispar t).
Definition is_set (t : Ty) : bool :=
  match ty_st t with ST_SET => true | ST_PLAIN => false end.
(** [tt.ti(Type::TI_PAR)]. *)
Definition set_ti (t : Ty) (i : TypeInst) : Ty :=
  mkTy (ty_bt t) (ty_st t) i (ty_ot t) (ty_dim t).
Definition par (b : BaseType) : Ty := mkTy b ST_PLAIN TI_PAR OT_PRESENT 0.

End Ty_.

(** An array literal: its elements in row-major order and the pair
    [(min, max)] of the index set of every axis. *)
Record ArrayLit_ (E : Type) : Type := mkArrayLit {
  al_type : Ty;
  al_v : list E;
  al_dims : list (Z * Z)
}.
Arguments mkArrayLit {E} _ _ _.
Arguments al_type {E} _.
Arguments al_v {E} _.
Arguments al_dims {E} _.

(** A variable declaration: the domain of its type-inst and its right hand
    side [e()], each of them possibly [NULL]. *)
Record VarDecl_ (E : Type) : Type := mkVarDecl {
  vd_type : Ty;
  vd_domain : option E;
  vd_e : option E
}.
Arguments mkVarDecl {E} _ _ _.
Arguments vd_type {E} _.
Arguments vd_domain {E} _.
Arguments vd_e {E} _.

Record Call_ (E : Type) : Type := mkCall {
  call_type : Ty;
  call_id : string;
  call_args : list E
}.
Arguments mkCall {E} _ _ _.
Arguments call_type {E} _.
Arguments call_id {E} _.
Arguments call_args {E} _.

(** Modelled from the spec: [Expression] and its subclasses are declared in
    [ast.hh]. An identifier refers to its declaration by the index of the
    declaration in the arena of the environment, so that declarations and
    identifiers can form cycles as pointers do. *)
#[warnings="-register-all"]
Inductive Expression : Type :=
| IntLit (v : IntVal)
| FloatLit (v : FloatVal)
| BoolLit (b : bool)
| StringLit (s : string)
| SetLit (t : Ty) (isv : option IntSetVal)
         (fsv : option (list (FloatVal * FloatVal))) (v : list Expression)
| Id (t : Ty) (decl : option nat)
| E_VarDecl (vd : VarDecl_ Expression)
| E_ArrayLit (al : ArrayLit_ Expression)
| E_Call (c : Call_ Expression)
| Absent (t : Ty).

Definition ArrayLit : Type := ArrayLit_ Expression.
Definition VarDecl : Type := VarDecl_ Expression.
Definition Call : Type := Call_ Expression.

(** [Expression::type()]. *)
Definition type (e : Expression) : Ty :=
  match e with
  | IntLit _ => Ty_.par BT_INT
  | FloatLit _ => Ty_.par BT_FLOAT
  | BoolLit _ => Ty_.par BT_BOOL
  | StringLit _ => Ty_.par BT_STRING
  | SetLit t _ _ _ => t
  | Id t _ => t
  | E_VarDecl vd => vd_type vd
  | E_ArrayLit al => al_type al
  | E_Call c => call_type c
  | Absent t => t
  end.

Module ArrayLit_m.

Definition size (al : ArrayLit) : nat := length (al_v al).
Definition dims (al : ArrayLit) : nat := length (al_dims al).
(** [al->min(i)] and [al->max(i)]; an axis that does not exist reads 0
    here (the source reads out of bounds). *)
Definition min (al : ArrayLit) (i : nat) : Z := default 0 (fst <$> al_dims al !! i).
Definition max (al : ArrayLit) (i : nat) : Z := default 0 (snd <$> al_dims al !! i).
(** [new ArrayLit(loc, v)]: a one-dimensional array with index set
    [1..v.size()]. *)
Definition new (t : Ty) (v : list Expression) : ArrayLit :=
  mkArrayLit t v [(1, Z.of_nat (length v))].

End ArrayLit_m.

(** The environment: the arena of the declarations identifiers point to. *)
Record EnvI : Type := mkEnvI {
  env_decls : list VarDecl
}.

(** [id->decl()]. *)
Definition Id_decl (env : EnvI) (d : option nat) : option Expression :=
  i ← d; vd ← env_decls env !! i; Some (E_VarDecl vd).

(** ** The evaluators ([eval_par.hh]) *)

Class Evaluator : Type := {
  eval_par : EnvI → Expression → result (option Expression);
  eval_array_lit : EnvI → Expression → result ArrayLit;
  eval_int : EnvI → Expression → result IntVal;
  eval_float : EnvI → Expression → result FloatVal;
  compute_int_bounds : EnvI → Expression → result IntBounds
}.

(** ** The pretty printer ([prettyprinter.hh]) *)

Class Printer : Type := {
  print : Expression → string;
  ppFloatVal : FloatVal → string;
  (** [ostream << IntVal] *)
  pp_IntVal : IntVal → string;
  (** [ostream << double] *)
  show_double : FloatVal → string
}.

(** ** The random engine and the distributions of [<random>]

    [rnd_generator()] returns the one engine of the process; its state is
    threaded through the sampling builtins. *)

Class Random : Type := {
  engine : Type;
  uniform_real_distribution : FloatVal → FloatVal → engine → FloatVal * engine;
  uniform_int_distribution : Z → Z → engine → Z * engine;
  discrete_distribution : list Z → engine → Z * engine
}.

(** What the C++ standard says of [std::discrete_distribution]: with [n]
    weights it yields an index [i] with [0 <= i < n], and with no weight it
    behaves as with the one weight 1. *)
Definition discrete_distribution_range `{Random} : Prop :=
  ∀ (w : list Z) (g : engine),
    0 ≤ (discrete_distribution w g).1
    < Z.max 1 (Z.of_nat (length w)).

(** ** Control structures of the source *)

(** [for (unsigned int i = i0; n times; i++) s = body(i, s)], where the body
    can throw. *)
Fixpoint for_loop {St : Type} (n i0 : nat) (body : nat → St → result St)
  (s : St) : result St :=
  match n with
  | O => Ok s
  | S n' => s' ← body i0 s; for_loop n' (S i0) body s'
  end.

(** [for (unsigned int i = lo; i < hi; i++) s = body(i, s)]. *)
Definition for_range {St : Type} (lo hi : nat)
  (body : nat → St → result St) (s : St) : result St :=
  for_loop (hi - lo) lo body s.

(** The element [i] of [al], as [operator[]] reads it; the source asserts
    that [i] is within the array. *)
Definition al_at (al : ArrayLit) (i : nat) : result Expression :=
  match al_v al !! i with
  | Some e => Ok e
  | None => Throw AssertionViolation
  end.

(** Every element of a list through a function that can throw, from the
    first to the last. *)
Fixpoint map_result {A B : Type} (f : A → result B) (l : list A)
  : result (list B) :=
  match l with
  | [] => Ok []
  | x :: l' => y ← f x; ys ← map_result f l'; Ok (y :: ys)
  end.

(** [std::stable_sort(first, last, comp)] of [<algorithm>]: it sorts by the
    strict order [comp] and keeps the elements that [comp] does not order in
    the order they came in. That fixes the result, and insertion from the
    back computes it. *)
Fixpoint stable_insert {A : Type} (comp : A → A → bool) (x : A) (l : list A)
  : list A :=
  match l with
  | [] => [x]
  | y :: l' => if comp y x then y :: stable_insert comp x l' else x :: y :: l'
  end.

Fixpoint stable_sort {A : Type} (comp : A → A → bool) (l : list A) : list A :=
  match l with
  | [] => []
  | x :: l' => stable_insert comp x (stable_sort comp l')
  end.

(** ** The builtins *)

Section Builtins.

Context {ev : Evaluator}.

(** *** Minimum and maximum *)

Definition b_int_min (env : EnvI) (call : Call) : result IntVal :=
  match call_args call with
  | [a0] =>
      if Ty_.is_set (type a0) then Throw (EvalError "sets not supported")
      else
        al ← eval_array_lit env a0;
        if (ArrayLit_m.size al =? 0)%nat
        then Throw (ResultUndefinedError "minimum of empty array is undefined")
        else
          e0 ← al_at al 0;
          m ← eval_int env e0;
          for_range 1 (ArrayLit_m.size al)
            (fun i m => ei ← al_at al i; mi ← eval_int env ei;
                        Ok (IntVal_.min m mi)) m
  | [a0; a1] =>
      x ← eval_int env a0; y ← eval_int env a1; Ok (IntVal_.min x y)
  | _ => Throw (EvalError "dynamic type error")
  end.

Definition b_int_max (env : EnvI) (call : Call) : result IntVal :=
  match call_args call with
  | [a0] =>
      if Ty_.is_set (type a0) then Throw (EvalError "sets not supported")
      else
        al ← eval_array_lit env a0;
        if (ArrayLit_m.size al =? 0)%nat
        then Throw (ResultUndefinedError "maximum of empty array is undefined")
        else
          e0 ← al_at al 0;
          m ← eval_int env e0;
          for_range 1 (ArrayLit_m.size al)
            (fun i m => ei ← al_at al i; mi ← eval_int env ei;
                        Ok (IntVal_.max m mi)) m
  | [a0; a1] =>
      x ← eval_int env a0; y ← eval_int env a1; Ok (IntVal_.max x y)
  | _ => Throw (EvalError "dynamic type error")
  end.

Definition b_float_min (env : EnvI) (call : Call) : result FloatVal :=
  match call_args call with
  | [a0] =>
      if Ty_.is_set (type a0) then Throw (EvalError "sets not supported")
      else
        al ← eval_array_lit env a0;
        if (ArrayLit_m.size al =? 0)%nat
        then Throw (EvalError "min on empty array undefined")
        else
          e0 ← al_at al 0;
          m ← eval_float env e0;
          for_range 1 (ArrayLit_m.size al)
            (fun i m => ei ← al_at al i; mi ← eval_float env ei;
                        Ok (FloatVal_.min m mi)) m
  | [a0; a1] =>
      x ← eval_float env a0; y ← eval_float env a1; Ok (FloatVal_.min x y)
  | _ => Throw (EvalError "dynamic type error")
  end.

Definition b_float_max (env : EnvI) (call : Call) : result FloatVal :=
  match call_args call with
  | [a0] =>
      if Ty_.is_set (type a0) then Throw (EvalError "sets not supported")
      else
        al ← eval_array_lit env a0;
        if (ArrayLit_m.size al =? 0)%nat
        then Throw (EvalError "max on empty array undefined")
        else
          e0 ← al_at al 0;
          m ← eval_float env e0;
          for_range 1 (ArrayLit_m.size al)
            (fun i m => ei ← al_at al i; mi ← eval_float env ei;
                        Ok (FloatVal_.max m mi)) m
  | [a0; a1] =>
      x ← eval_float env a0; y ← eval_float env a1; Ok (FloatVal_.max x y)
  | _ => Throw (EvalError "dynamic type error")
  end.

(** *** Position of the minimum and of the maximum

    The four builtins [b_arg_min_int], [b_arg_max_int], [b_arg_min_float]
    and [b_arg_max_float] are one scan that differs in the evaluator of the
    elements, in the test that replaces the candidate ([mi < m] or [mi > m])
    and in the message. [better mi m] is that test, and the state of the loop
    is the pair [(m, m_idx)]. *)
Definition arg_scan {V : Type} (eval : EnvI → Expression → result V)
  (better : V → V → bool) (msg : string) (env : EnvI) (call : Call)
  : result IntVal :=
  match call_args call with
  | a0 :: _ =>
      al ← eval_array_lit env a0;
      if (ArrayLit_m.size al =? 0)%nat then Throw (ResultUndefinedError msg)
      else
        e0 ← al_at al 0;
        m ← eval env e0;
        r ← for_range 1 (ArrayLit_m.size al)
              (fun i s =>
                 ei ← al_at al i; mi ← eval env ei;
                 Ok (if better mi s.1 then (mi, i) else s))
              (m, 0%nat);
        Ok (IntFinite (Z.of_nat r.2 + 1))
  | [] => Throw AssertionViolation
  end.

Definition b_arg_min_int : EnvI → Call → result IntVal :=
  arg_scan eval_int (fun mi m => IntVal_.ltb mi m)
    "argmin of empty array is undefined".
Definition b_arg_max_int : EnvI → Call → result IntVal :=
  arg_scan eval_int (fun mi m => IntVal_.ltb m mi)
    "argmax of empty array is undefined".
Definition b_arg_min_float : EnvI → Call → result IntVal :=
  arg_scan eval_float (fun mi m => FloatVal_.ltb mi m)
    "argmin of empty array is undefined".
Definition b_arg_max_float : EnvI → Call → result IntVal :=
  arg_scan eval_float (fun mi m => FloatVal_.ltb m mi)
    "argmax of empty array is undefined".

(** *** Sum and product *)

Definition b_sum_int (env : EnvI) (call : Call) : result IntVal :=
  match call_args call with
  | [a0] =>
      al ← eval_array_lit env a0;
      if (ArrayLit_m.size al =? 0)%nat then Ok (IntFinite 0)
      else
        for_range 0 (ArrayLit_m.size al)
          (fun i m => ei ← al_at al i; x ← eval_int env ei; IntVal_.plus m x)
          (IntFinite 0)
  | _ => Throw AssertionViolation
  end.

Definition b_product_int (env : EnvI) (call : Call) : result IntVal :=
  match call_args call with
  | [a0] =>
      al ← eval_array_lit env a0;
      if (ArrayLit_m.size al =? 0)%nat then Ok (IntFinite 1)
      else
        for_range 0 (ArrayLit_m.size al)
          (fun i m => ei ← al_at al i; x ← eval_int env ei; IntVal_.times m x)
          (IntFinite 1)
  | _ => Throw AssertionViolation
  end.

(** *** Sorting by keys

    [b_sort_by_int] and [b_sort_by_float] differ in the evaluator of the keys
    and in their [operator<]. The vector [a] starts as [0, 1, ..., n-1] and is
    sorted by [order[i] < order[j]]. *)
Definition Ord {V : Type} (ltb : V → V → bool) (order : list V) (i j : nat)
  : bool :=
  match order !! i, order !! j with
  | Some x, Some y => ltb x y
  | _, _ => false
  end.

Definition sort_by {V : Type} (eval : EnvI → Expression → result V)
  (ltb : V → V → bool) (env : EnvI) (call : Call) : result Expression :=
  match call_args call with
  | [a0; a1] =>
      al ← eval_array_lit env a0;
      order_e ← eval_array_lit env a1;
      order ← map_result (eval env) (al_v order_e);
      let a := seq 0 (length order) in
      let a := stable_sort (Ord ltb order) a in
      sorted ← map_result (al_at al) a;
      Ok (E_ArrayLit (ArrayLit_m.new (al_type al) sorted))
  | _ => Throw AssertionViolation
  end.

Definition b_sort_by_int : EnvI → Call → result Expression :=
  sort_by eval_int IntVal_.ltb.
Definition b_sort_by_float : EnvI → Call → result Expression :=
  sort_by eval_float FloatVal_.ltb.

(** *** Bounds of an integer division *)

(** The eight assignments to [min] and [max] for one range of the divisor. *)
Definition div_corners (lx ux : Z) (r : Ranges.range) (mm : Z * Z)
  : result (Z * Z) :=
  q1 ← IntVal_.div lx r.1;
  q2 ← IntVal_.div lx r.2;
  q3 ← IntVal_.div ux r.1;
  q4 ← IntVal_.div ux r.2;
  Ok (Z.min (Z.min (Z.min (Z.min mm.1 q1) q2) q3) q4,
      Z.max (Z.max (Z.max (Z.max mm.2 q1) q2) q3) q4).

Definition b_compute_div_bounds (env : EnvI) (call : Call) : result IntSetVal :=
  match call_args call with
  | [a0; a1] =>
      bx ← compute_int_bounds env a0;
      if negb (ib_valid bx) then Throw (EvalError "cannot determine bounds")
      else
        match ib_l bx, ib_u bx with
        | IntFinite lx, IntFinite ux =>
            by_ ← compute_int_bounds env a1;
            if negb (ib_valid by_)
            then Throw (EvalError "cannot determine bounds")
            else
              match ib_l by_, ib_u by_ with
              | IntFinite ly, IntFinite uy =>
                  let byr := Ranges.Const ly uy in
                  let by0 := Ranges.Const 0 0 in
                  let byr0 := Ranges.Diff byr by0 in
                  let mm := (IntVal_.maxint, IntVal_.minint) in
                  mm ← match byr0 with
                       | [] => Ok mm
                       | r :: byr0 =>
                           mm ← div_corners lx ux r mm;
                           match byr0 with
                           | [] => Ok mm
                           | r :: _ => div_corners lx ux r mm
                           end
                       end;
                  Ok (IntSetVal_.a (IntFinite mm.1) (IntFinite mm.2))
              | _, _ => Ok IntSetVal_.infinity
              end
        | _, _ => Ok IntSetVal_.infinity
        end
  | _ => Throw AssertionViolation
  end.

(** *** Fixed expressions

    The loop of [exp_is_fixed] follows pointers and has no bound of its own:
    [fuel] is the number of iterations it may take, and [None] says that it
    has not returned within them. *)
Definition is_lit_domain (dom : Expression) : bool :=
  match dom with
  | IntLit _ | BoolLit _ | FloatLit _ => true
  | _ => false
  end.

Fixpoint exp_is_fixed_loop (fuel : nat) (env : EnvI) (cur : option Expression)
  : option (option Expression) :=
  match fuel with
  | O => None
  | S fuel' =>
      match cur with
      | None => Some None
      | Some c =>
          if Ty_.ispar (type c) then Some (Some c)
          else
            match c with
            | Id _ d => exp_is_fixed_loop fuel' env (Id_decl env d)
            | E_VarDecl vd =>
                match vd_domain vd with
                | Some dom =>
                    if negb (Ty_.is_set (vd_type vd)) && is_lit_domain dom
                    then Some (Some dom)
                    else exp_is_fixed_loop fuel' env (vd_e vd)
                | None => exp_is_fixed_loop fuel' env (vd_e vd)
                end
            | _ => Some None
            end
      end
  end.

Definition exp_is_fixed (fuel : nat) (env : EnvI) (e : Expression)
  : option (result (option Expression)) :=
  match eval_par env e with
  | Throw ex => Some (Throw ex)
  | Ok cur => Ok <$> exp_is_fixed_loop fuel env cur
  end.

Definition b_is_fixed (fuel : nat) (env : EnvI) (call : Call)
  : option (result bool) :=
  match call_args call with
  | [a0] =>
      r ← exp_is_fixed fuel env a0;
      Some (o ← r; Ok (bool_decide (o ≠ None)))
  | _ => Some (Throw AssertionViolation)
  end.

Definition b_fix (fuel : nat) (env : EnvI) (call : Call)
  : option (result Expression) :=
  match call_args call with
  | [a0] =>
      r ← exp_is_fixed fuel env a0;
      Some (ret ← r;
            match ret with
            | None => Throw (EvalError "expression is not fixed")
            | Some c => Ok c
            end)
  | _ => Some (Throw AssertionViolation)
  end.

(** The loop of [b_is_fixed_array] over the elements that are left. *)
Fixpoint is_fixed_array_loop (fuel : nat) (env : EnvI) (l : list Expression)
  : option (result bool) :=
  match l with
  | [] => Some (Ok true)
  | e :: l' =>
      r ← exp_is_fixed fuel env e;
      match r with
      | Throw ex => Some (Throw ex)
      | Ok None => Some (Ok false)
      | Ok (Some _) => is_fixed_array_loop fuel env l'
      end
  end.

Definition b_is_fixed_array (fuel : nat) (env : EnvI) (call : Call)
  : option (result bool) :=
  match call_args call with
  | [a0] =>
      match eval_array_lit env a0 with
      | Throw ex => Some (Throw ex)
      | Ok al =>
          if (ArrayLit_m.size al =? 0)%nat then Some (Ok true)
          else is_fixed_array_loop fuel env (al_v al)
      end
  | _ => Some (Throw AssertionViolation)
  end.

(** The loop of [b_fix_array]: the vector [fixed], filled from the front. *)
Fixpoint fix_array_loop (fuel : nat) (env : EnvI) (l : list Expression)
  : option (result (list Expression)) :=
  match l with
  | [] => Some (Ok [])
  | e :: l' =>
      r ← exp_is_fixed fuel env e;
      match r with
      | Throw ex => Some (Throw ex)
      | Ok None => Some (Throw (EvalError "expression is not fixed"))
      | Ok (Some c) =>
          rest ← fix_array_loop fuel env l';
          Some (cs ← rest; Ok (c :: cs))
      end
  end.

Definition b_fix_array (fuel : nat) (env : EnvI) (call : Call)
  : option (result Expression) :=
  match call_args call with
  | [a0] =>
      match eval_array_lit env a0 with
      | Throw ex => Some (Throw ex)
      | Ok al =>
          r ← fix_array_loop fuel env (al_v al);
          Some (fixed ← r;
                Ok (E_ArrayLit
                      (ArrayLit_m.new (Ty_.set_ti (al_type al) TI_PAR) fixed)))
      end
  | _ => Some (Throw AssertionViolation)
  end.

(** *** JSON output *)

Context {pr : Printer}.

(** The double quote character and the end of line. *)
Definition dquote : string := String (Ascii.ascii_of_nat 34) EmptyString.
Definition endl : string := String (Ascii.ascii_of_nat 10) EmptyString.

(** The pieces of a loop that writes a comma before every piece but the
    first. *)
Fixpoint comma_separated (l : list string) : string :=
  match l with
  | [] => ""
  | [s] => s
  | s :: l' => s +:+ "," +:+ comma_separated l'
  end.

Definition show_int_range (r : IntVal * IntVal) : string :=
  if bool_decide (r.1 = r.2) then pp_IntVal r.1
  else "[" +:+ pp_IntVal r.1 +:+ "," +:+ pp_IntVal r.2 +:+ "]".

Definition show_float_range (r : FloatVal * FloatVal) : string :=
  if SFeqb r.1 r.2 then ppFloatVal r.1
  else "[" +:+ ppFloatVal r.1 +:+ "," +:+ ppFloatVal r.2 +:+ "]".

Definition b_show_json_basic (e : Expression) : string :=
  match e with
  | SetLit _ isv fsv v =>
      "{ " +:+ dquote +:+ "set" +:+ dquote +:+ " : ["
      +:+ match isv, fsv with
          | Some isv, _ => comma_separated (show_int_range <$> isv)
          | None, Some fsv => comma_separated (show_float_range <$> fsv)
          | None, None => comma_separated (print <$> v)
          end
      +:+ "]}"
  | Absent _ => "null"
  | _ => print e
  end.

(** Arithmetic of [unsigned int]. *)
Definition wrap32 (z : Z) : Z := z mod 2 ^ 32.

(** The number of indices of the axis [k]. *)
Definition extent (al : ArrayLit) (k : nat) : Z :=
  ArrayLit_m.max al k - ArrayLit_m.min al k + 1.

(** [for (int i = i0; n times; i++) dims[i] = dims[i-1] * extent(dims()-1-i)],
    with [prev] for [dims[i-1]]: the entries it writes. *)
Fixpoint json_dims_loop (al : ArrayLit) (n i0 : nat) (prev : Z) : list Z :=
  match n with
  | O => []
  | S n' =>
      let d := wrap32 (prev * wrap32 (extent al (ArrayLit_m.dims al - 1 - i0))) in
      d :: json_dims_loop al n' (S i0) d
  end.

(** The vector [dims] of [b_show_json]: one stride for every axis but the
    first, the last axis first. *)
Definition json_dims (al : ArrayLit) : list Z :=
  match (ArrayLit_m.dims al - 1)%nat with
  | O => []
  | S n' =>
      let d0 := wrap32 (extent al (ArrayLit_m.dims al - 1)) in
      d0 :: json_dims_loop al n' 1 d0
  end.

Fixpoint concat_strings (l : list string) : string :=
  match l with
  | [] => ""
  | s :: l' => s +:+ concat_strings l'
  end.

(** What one iteration of the loop over the elements writes. *)
Definition json_element (al : ArrayLit) (dims : list Z) (i : nat)
  (e : Expression) : string :=
  concat_strings
    ((fun d => if Z.of_nat i mod d =? 0 then "[" else "") <$> dims)
  +:+ b_show_json_basic e
  +:+ concat_strings
        ((fun d => if Z.of_nat i mod d =? wrap32 (d - 1) then "]" else "")
           <$> dims)
  +:+ (if (i <? ArrayLit_m.size al - 1)%nat then ", " else "").

(** The result of [eval_par] is used without a test for [NULL]. *)
Definition b_show_json (env : EnvI) (call : Call) : result string :=
  match call_args call with
  | a0 :: _ =>
      r ← eval_par env a0;
      match r with
      | None => Throw AssertionViolation
      | Some e =>
          if Ty_.isvar (type e) then Ok (print e)
          else
            match e with
            | E_ArrayLit al =>
                let dims := json_dims al in
                Ok ("[" +:+ concat_strings (imap (json_element al dims) (al_v al))
                    +:+ "]")
            | _ => Ok (b_show_json_basic e)
            end
      end
  | [] => Throw AssertionViolation
  end.

(** *** Sampling *)

Context {rnd : Random}.

Definition uniform_message (lb ub : string) : string :=
  "lowerbound of uniform distribution " +:+ dquote +:+ lb +:+ dquote
  +:+ " is higher than its upperbound: " +:+ ub.

Definition b_uniform_float (env : EnvI) (call : Call) (g : engine)
  : result FloatVal * engine :=
  match call_args call with
  | [a0; a1] =>
      match eval_float env a0 with
      | Throw ex => (Throw ex, g)
      | Ok lb =>
          match eval_float env a1 with
          | Throw ex => (Throw ex, g)
          | Ok ub =>
              if FloatVal_.ltb ub lb
              then (Throw (EvalError
                             (uniform_message (show_double lb) (show_double ub))),
                    g)
              else
                let '(x, g') := uniform_real_distribution lb ub g in
                (Ok x, g')
          end
      end
  | _ => (Throw AssertionViolation, g)
  end.

Definition b_uniform_int (env : EnvI) (call : Call) (g : engine)
  : result IntVal * engine :=
  match call_args call with
  | [a0; a1] =>
      match x ← eval_int env a0; IntVal_.toInt x with
      | Throw ex => (Throw ex, g)
      | Ok lb =>
          match y ← eval_int env a1; IntVal_.toInt y with
          | Throw ex => (Throw ex, g)
          | Ok ub =>
              if ub <? lb
              then (Throw (EvalError (uniform_message (pretty lb) (pretty ub))),
                    g)
              else
                let '(x, g') := uniform_int_distribution lb ub g in
                (Ok (IntFinite x), g')
          end
      end
  | _ => (Throw AssertionViolation, g)
  end.

Definition b_discrete_distribution (env : EnvI) (call : Call) (g : engine)
  : result IntVal * engine :=
  match call_args call with
  | [a0] =>
      match eval_array_lit env a0 with
      | Throw ex => (Throw ex, g)
      | Ok al =>
          if negb (ArrayLit_m.dims al =? 1)%nat
          then (Throw (EvalError
                         ("expecting 1-dimensional array of weights for discrete distribution instead of: "
                          +:+ print (E_ArrayLit al) +:+ endl)),
                g)
          else
            match map_result (fun e => x ← eval_int env e; IntVal_.toInt x)
                    (al_v al) with
            | Throw ex => (Throw ex, g)
            | Ok weights =>
                let '(iv, g') := discrete_distribution weights g in
                (Ok (IntFinite iv), g')
            end
      end
  | _ => (Throw AssertionViolation, g)
  end.

End Builtins.

(** ** Instances of the interfaces for calls on literals *)

Module Literal.

(** The evaluators on expressions that are constants already. *)
Definition array_of (env : EnvI) (e : Expression) : result ArrayLit :=
  match e with
  | E_ArrayLit al => Ok al
  | _ => Throw (EvalError "not an array literal")
  end.

Definition int_of (env : EnvI) (e : Expression) : result IntVal :=
  match e with
  | IntLit v => Ok v
  | _ => Throw (EvalError "not an integer literal")
  end.

Definition float_of (env : EnvI) (e : Expression) : result FloatVal :=
  match e with
  | FloatLit v => Ok v
  | _ => Throw (EvalError "not a float literal")
  end.

(** On this instance the bounds of an array [[l, u]] of two integer literals
    stand for the bounds [l..u] of a variable. *)
Definition bounds_of (env : EnvI) (e : Expression) : result IntBounds :=
  match e with
  | IntLit v => Ok (mkIntBounds v v true)
  | E_ArrayLit (mkArrayLit _ [IntLit l; IntLit u] _) => Ok (mkIntBounds l u true)
  | _ => Ok (mkIntBounds (IntFinite 0) (IntFinite 0) false)
  end.

#[global] Instance evaluator : Evaluator := {|
  eval_par := fun _ e => Ok (Some e);
  eval_array_lit := array_of;
  eval_int := int_of;
  eval_float := float_of;
  compute_int_bounds := bounds_of
|}.

Definition show_IntVal (v : IntVal) : string :=
  match v with
  | IntFinite z => pretty z
  | IntPlusInfinity => "infinity"
  | IntMinusInfinity => "-infinity"
  end.

(** The printer on integer literals; it writes nothing for the rest. *)
#[global] Instance printer : Printer := {|
  print := fun e => match e with IntLit v => show_IntVal v | _ => "" end;
  ppFloatVal := fun _ => "";
  pp_IntVal := show_IntVal;
  show_double := fun _ => ""
|}.

(** [std::minstd_rand0], the [default_random_engine] of libstdc++. *)
Definition minstd_rand0 (g : Z) : Z := (16807 * g) mod (2 ^ 31 - 1).

(** The index whose run of the cumulated weights holds [u]. *)
Fixpoint pick (w : list Z) (u : Z) : Z :=
  match w with
  | [] => 0
  | x :: w' =>
      if u <? x then 0
      else match w' with
           | [] => 0
           | _ => 1 + pick w' (u - x)
           end
  end.

Definition sum_list_Z (w : list Z) : Z := foldr Z.add 0 w.

#[global] Instance random : Random := {|
  engine := Z;
  uniform_real_distribution := fun lb ub g => (lb, minstd_rand0 g);
  uniform_int_distribution := fun lb ub g =>
    (lb + minstd_rand0 g mod (ub - lb + 1), minstd_rand0 g);
  discrete_distribution := fun w g =>
    (pick w (minstd_rand0 g mod Z.max 1 (sum_list_Z w)), minstd_rand0 g)
|}.

(** A state of the engine. *)
Definition seed : @engine random := 1.

Definition env0 : EnvI := mkEnvI [].

Definition int_array_type : Ty := mkTy BT_INT ST_PLAIN TI_PAR OT_PRESENT 1.
Definition float_array_type : Ty := mkTy BT_FLOAT ST_PLAIN TI_PAR OT_PRESENT 1.

(** The one-dimensional array literal of the integers [l]. *)
Definition int_array (l : list Z) : Expression :=
  E_ArrayLit (ArrayLit_m.new int_array_type (IntLit ∘ IntFinite <$> l)).

Definition float_array (l : list FloatVal) : Expression :=
  E_ArrayLit (ArrayLit_m.new float_array_type (FloatLit <$> l)).

(** The call [id(args)]. *)
Definition call (id : string) (args : list Expression) : Call :=
  mkCall (Ty_.par BT_INT) id args.

End Literal.

(** * More of [builtins.cpp] *)

(** ** More of the interfaces *)

(** The evaluators of [eval_par.hh] for Booleans, strings and integer sets,
    and [follow_id_to_decl] of [ast.hh]. *)
Class EvaluatorExt : Type := {
  eval_bool : EnvI → Expression → result bool;
  eval_string : EnvI → Expression → result string;
  eval_intset : EnvI → Expression → result IntSetVal;
  follow_id_to_decl : EnvI → Expression → Expression
}.

(** The distributions of [<random>] that check a parameter before they
    sample. *)
Class RandomExt {rnd : Random} : Type := {
  weibull_distribution : FloatVal → FloatVal → engine → FloatVal * engine;
  exponential_distribution : FloatVal → engine → FloatVal * engine
}.

(** ** More of the values *)

(** [v - w] on [IntVal]. *)
Definition IntVal_minus (x y : IntVal) : result IntVal :=
  match x, y with
  | IntFinite a, IntFinite b => Ok (IntFinite (a - b))
  | _, _ => Throw (ArithmeticError "arithmetic operation on infinite value")
  end.

(** Modelled from the spec: the methods [size], [min], [max] and [contains]
    of [IntSetVal] are declared in [values.hh]; of the ascending ranges of a
    set, [min()] is the lower bound of the first one and [max()] the upper
    bound of the last one, which the source asks for sets that are not empty
    only, and a value is contained when a range holds it. *)
Definition isv_size (s : IntSetVal) : nat := length s.

Definition isv_min (s : IntSetVal) : result IntVal :=
  match s with
  | [] => Throw AssertionViolation
  | r :: _ => Ok r.1
  end.

Definition isv_max (s : IntSetVal) : result IntVal :=
  match last s with
  | None => Throw AssertionViolation
  | Some r => Ok r.2
  end.

Definition in_range (v : IntVal) (r : IntVal * IntVal) : bool :=
  negb (IntVal_.ltb v r.1) && negb (IntVal_.ltb r.2 v).

Definition isv_contains (s : IntSetVal) (v : IntVal) : bool :=
  existsb (in_range v) s.

(** [static_cast<int>] of a [long long]. *)
Definition to_int32 (z : Z) : Z := (z + 2 ^ 31) mod 2 ^ 32 - 2 ^ 31.

(** [t.dim(d)]. *)
Definition Ty_set_dim (t : Ty) (d : Z) : Ty :=
  mkTy (ty_bt t) (ty_st t) (ty_ti t) (ty_ot t) d.

(** ** More control structures *)

(** [for (unsigned int i = n; i--;) s = body(i, s)]: the body sees [n-1]
    first and [0] last. *)
Fixpoint for_down {St : Type} (n : nat) (body : nat → St → result St) (s : St)
  : result St :=
  match n with
  | O => Ok s
  | S i => s' ← body i s; for_down i body s'
  end.

(** [for (unsigned int i = n; i--;) if (test(i)) return true;] followed by
    [return false]. *)
Fixpoint any_down (n : nat) (test : nat → result bool) : result bool :=
  match n with
  | O => Ok false
  | S i => test i ≫= fun b : bool => if b then Ok true else any_down i test
  end.

Section MoreBuiltins.

Context {ev : Evaluator} {ex : EvaluatorExt}.

(** *** Integer power *)

Definition b_pow_int (env : EnvI) (call : Call) : result IntVal :=
  match call_args call with
  | a0 :: a1 :: _ =>
      p ← eval_int env a0;
      x ← eval_int env a1;
      e ← IntVal_.toInt x;
      if e <? 0
      then Throw (EvalError "Cannot raise integer to a negative power")
      else for_down (Z.to_nat e) (fun _ r => IntVal_.times r p) (IntFinite 1)
  | _ => Throw AssertionViolation
  end.

(** *** Boolean reductions *)

Definition b_forall_par (env : EnvI) (call : Call) : result bool :=
  match call_args call with
  | [a0] =>
      al ← eval_array_lit env a0;
      r ← any_down (ArrayLit_m.size al)
            (fun i => ei ← al_at al i; b ← eval_bool env ei; Ok (negb b));
      Ok (negb r)
  | _ => Throw (EvalError "forall needs exactly one argument")
  end.

Definition b_exists_par (env : EnvI) (call : Call) : result bool :=
  match call_args call with
  | [a0] =>
      al ← eval_array_lit env a0;
      any_down (ArrayLit_m.size al)
        (fun i => ei ← al_at al i; eval_bool env ei)
  | _ => Throw (EvalError "exists needs exactly one argument")
  end.

Definition b_clause_par (env : EnvI) (call : Call) : result bool :=
  match call_args call with
  | [a0; a1] =>
      al ← eval_array_lit env a0;
      any_down (ArrayLit_m.size al)
        (fun i => ei ← al_at al i; eval_bool env ei)
      ≫= fun r : bool =>
      if r then Ok true
      else
        al ← eval_array_lit env a1;
        any_down (ArrayLit_m.size al)
          (fun i => ei ← al_at al i; b ← eval_bool env ei; Ok (negb b))
  | _ => Throw (EvalError "clause needs exactly two arguments")
  end.

(** The loop of [b_xorall_par] and of [b_iffall_par]: the number of
    elements that are true. *)
Definition count_true (env : EnvI) (al : ArrayLit) : result Z :=
  for_down (ArrayLit_m.size al)
    (fun i (count : Z) =>
       ei ← al_at al i;
       eval_bool env ei ≫= fun b : bool => Ok (count + (if b then 1 else 0)))
    0.

Definition b_xorall_par (env : EnvI) (call : Call) : result bool :=
  match call_args call with
  | [a0] =>
      al ← eval_array_lit env a0;
      count ← count_true env al;
      Ok (Z.rem count 2 =? 1)
  | _ => Throw (EvalError "xorall needs exactly one argument")
  end.

Definition b_iffall_par (env : EnvI) (call : Call) : result bool :=
  match call_args call with
  | [a0] =>
      al ← eval_array_lit env a0;
      count ← count_true env al;
      Ok (Z.rem count 2 =? 0)
  | _ => Throw (EvalError "xorall needs exactly one argument")
  end.

(** *** Optional values *)

(** [e == constants().absent]. *)
Definition is_absent (e : option Expression) : bool :=
  match e with
  | Some (Absent _) => true
  | _ => false
  end.

Definition b_occurs (env : EnvI) (call : Call) : result bool :=
  match call_args call with
  | a0 :: _ => e ← eval_par env a0; Ok (negb (is_absent e))
  | [] => Throw AssertionViolation
  end.

(** The builtins [b_deopt_int], [b_deopt_bool], [b_deopt_float],
    [b_deopt_intset] and [b_deopt_string] differ in the evaluator they end
    with; the result of [eval_par] is used without a test for [NULL]. *)
Definition deopt {A : Type} (eval : EnvI → Expression → result A)
  (env : EnvI) (call : Call) : result A :=
  match call_args call with
  | a0 :: _ =>
      e ← eval_par env a0;
      if is_absent e
      then Throw (EvalError "cannot evaluate deopt on absent value")
      else match e with
           | Some e => eval env e
           | None => Throw AssertionViolation
           end
  | [] => Throw AssertionViolation
  end.

Definition b_deopt_int : EnvI → Call → result IntVal := deopt eval_int.
Definition b_deopt_bool : EnvI → Call → result bool := deopt eval_bool.
Definition b_deopt_float : EnvI → Call → result FloatVal := deopt eval_float.
Definition b_deopt_intset : EnvI → Call → result IntSetVal := deopt eval_intset.
Definition b_deopt_string : EnvI → Call → result string := deopt eval_string.
Definition b_deopt_expr : EnvI → Call → result Expression :=
  deopt (fun _ e => Ok e).

(** *** Enumerated types *)

Definition b_to_enum (env : EnvI) (call : Call) : result IntVal :=
  match call_args call with
  | [a0; a1] =>
      isv ← eval_intset env a0;
      v ← eval_int env a1;
      if negb (isv_contains isv v)
      then Throw (ResultUndefinedError "value outside of enum range")
      else Ok v
  | _ => Throw AssertionViolation
  end.

Definition b_enum_next (env : EnvI) (call : Call) : result IntVal :=
  match call_args call with
  | a0 :: a1 :: _ =>
      isv ← eval_intset env a0;
      v ← eval_int env a1;
      w ← IntVal_.plus v (IntFinite 1);
      if negb (isv_contains isv w)
      then Throw (ResultUndefinedError "value outside of enum range")
      else Ok w
  | _ => Throw AssertionViolation
  end.

Definition b_enum_prev (env : EnvI) (call : Call) : result IntVal :=
  match call_args call with
  | a0 :: a1 :: _ =>
      isv ← eval_intset env a0;
      v ← eval_int env a1;
      w ← IntVal_minus v (IntFinite 1);
      if negb (isv_contains isv w)
      then Throw (ResultUndefinedError "value outside of enum range")
      else Ok w
  | _ => Throw AssertionViolation
  end.

End MoreBuiltins.

Section MoreBuiltins2.

Context {ev : Evaluator} {ex : EvaluatorExt} {pr : Printer}.

(** *** Strings *)

Definition b_concat (env : EnvI) (call : Call) : result string :=
  match call_args call with
  | [a0] =>
      al ← eval_array_lit env a0;
      for_range 0 (ArrayLit_m.size al)
        (fun i oss => ei ← al_at al i; s ← eval_string env ei; Ok (oss +:+ s))
        ""
  | _ => Throw AssertionViolation
  end.

Definition b_join (env : EnvI) (call : Call) : result string :=
  match call_args call with
  | [a0; a1] =>
      sep ← eval_string env a0;
      al ← eval_array_lit env a1;
      for_range 0 (ArrayLit_m.size al)
        (fun i oss =>
           ei ← al_at al i; s ← eval_string env ei;
           Ok (oss +:+ s
               +:+ (if (i <? ArrayLit_m.size al - 1)%nat then sep else "")))
        ""
  | _ => Throw AssertionViolation
  end.

(** [for (int i = n; i--;) oss << " "]. *)
Definition spaces (n : Z) : string :=
  concat_strings (replicate (Z.to_nat n) " ").

(** The padding of [b_format_justify_string], which [b_format] has as well:
    [width] is an [int] and [size] the size of the string. *)
Definition justify_string (width : Z) (s : string) : string :=
  let size := Z.of_nat (String.length s) in
  if size <? Z.abs width then
    let addLeft := if width <? 0 then 0 else width - size in
    let addLeft := if addLeft <? 0 then 0 else addLeft in
    let addRight := if width <? 0 then - width - size else 0 in
    let addRight := if addRight <? 0 then 0 else addRight in
    spaces addLeft +:+ s +:+ spaces addRight
  else s.


Definition b_show_int (env : EnvI) (call : Call) : result string :=
  match call_args call with
  | [a0; a1] =>
      r ← eval_par env a1;
      match r with
      | Some (IntLit iv) =>
          x ← eval_int env a0;
          j ← IntVal_.toInt x;
          let justify := to_int32 j in
          let iv_length := Z.of_nat (String.length (pp_IntVal iv)) in
          let addLeft := if justify <? 0 then 0 else justify - iv_length in
          let addLeft := if addLeft <? 0 then 0 else addLeft in
          let addRight := if justify <? 0 then - justify - iv_length else 0 in
          let addRight := if addRight <? 0 then 0 else addRight in
          Ok (spaces addLeft +:+ pp_IntVal iv +:+ spaces addRight)
      | Some e => Ok (print e)
      | None => Throw AssertionViolation
      end
  | _ => Throw AssertionViolation
  end.

(** [show]: the text of an expression, which [b_show] returns for its
    argument. *)
Definition show (env : EnvI) (exp : Expression) : result string :=
  r ← eval_par env exp;
  match r with
  | None => Throw AssertionViolation
  | Some e =>
      if Ty_.isvar (type e) then Ok (print e)
      else
        r ← eval_par env e;
        match r with
        | None => Throw AssertionViolation
        | Some (E_ArrayLit al) =>
            Ok ("["
                +:+ concat_strings
                      (imap (fun i x =>
                               print x
                               +:+ (if (i <? ArrayLit_m.size al - 1)%nat
                                    then ", " else ""))
                         (al_v al))
                +:+ "]")
        | Some e => Ok (print e)
        end
  end.

Definition b_show (env : EnvI) (call : Call) : result string :=
  match call_args call with
  | a0 :: _ => show env a0
  | [] => Throw AssertionViolation
  end.

(** *** Arrays with given index sets *)

(** The loop of [b_arrayXd(env, call, d)] over the index sets [args]: the
    vector [dims] and the [unsigned int dim1d]. *)
Fixpoint arrayXd_dims (env : EnvI) (args : list Expression) (dim1d : Z)
  : result (list (Z * Z) * Z) :=
  match args with
  | [] => Ok ([], dim1d)
  | a :: args' =>
      di ← eval_intset env a;
      match di with
      | [] =>
          r ← arrayXd_dims env args' 0;
          Ok ((1, 0) :: r.1, r.2)
      | [(mi, ma)] =>
          lo ← IntVal_.toInt mi;
          hi ← IntVal_.toInt ma;
          let lo := to_int32 lo in
          let hi := to_int32 hi in
          r ← arrayXd_dims env args' (wrap32 (dim1d * wrap32 (hi - lo + 1)));
          Ok ((lo, hi) :: r.1, r.2)
      | _ => Throw (EvalError "arrayXd only defined for ranges")
      end
  end.

(** [b_arrayXd(env, call, d)], which [b_array1d], ..., [b_array6d] call
    with [d] from 1 to 6. *)
Definition b_arrayXd (env : EnvI) (call : Call) (d : nat) : result ArrayLit :=
  match call_args call !! d with
  | Some ad =>
      al ← eval_array_lit env ad;
      r ← arrayXd_dims env (take d (call_args call)) 1;
      if negb (r.2 =? Z.of_nat (ArrayLit_m.size al))
      then Throw (EvalError "mismatch in array dimensions")
      else Ok (mkArrayLit (Ty_set_dim (al_type al) (Z.of_nat d)) (al_v al) r.1)
  | None => Throw AssertionViolation
  end.

Definition b_array1d (env : EnvI) (call : Call) : result Expression :=
  al ← b_arrayXd env call 1; Ok (E_ArrayLit al).
Definition b_array2d (env : EnvI) (call : Call) : result Expression :=
  al ← b_arrayXd env call 2; Ok (E_ArrayLit al).
Definition b_array3d (env : EnvI) (call : Call) : result Expression :=
  al ← b_arrayXd env call 3; Ok (E_ArrayLit al).
Definition b_array4d (env : EnvI) (call : Call) : result Expression :=
  al ← b_arrayXd env call 4; Ok (E_ArrayLit al).
Definition b_array5d (env : EnvI) (call : Call) : result Expression :=
  al ← b_arrayXd env call 5; Ok (E_ArrayLit al).
Definition b_array6d (env : EnvI) (call : Call) : result Expression :=
  al ← b_arrayXd env call 6; Ok (E_ArrayLit al).

Definition isa_Id (e : Expression) : bool :=
  match e with Id _ _ => true | _ => false end.

(** The loop that compares the index sets of two arrays with [dims]
    axes, from the last axis to the first. *)
Definition sameDims (al0 al1 : ArrayLit) : bool :=
  forallb
    (fun i => (ArrayLit_m.min al0 i =? ArrayLit_m.min al1 i)
              && (ArrayLit_m.max al0 i =? ArrayLit_m.max al1 i))
    (reverse (seq 0 (ArrayLit_m.dims al0))).

(** [b_arrayXd(env, call)]: the second array with the index sets of the
    first. *)
Definition b_arrayXd_like (env : EnvI) (call : Call) : result Expression :=
  match call_args call with
  | a0 :: a1 :: _ =>
      al0 ← eval_array_lit env a0;
      al1 ← eval_array_lit env a1;
      if (ArrayLit_m.dims al0 =? ArrayLit_m.dims al1)%nat && sameDims al0 al1
      then Ok (if isa_Id a1 then a1 else E_ArrayLit al1)
      else
        let dims := (fun i => (ArrayLit_m.min al0 i, ArrayLit_m.max al0 i))
                      <$> seq 0 (ArrayLit_m.dims al0) in
        Ok (E_ArrayLit
              (mkArrayLit (Ty_set_dim (al_type al1) (Z.of_nat (length dims)))
                 (al_v al1) dims))
  | _ => Throw AssertionViolation
  end.

Definition b_array1d_list (env : EnvI) (call : Call) : result Expression :=
  match call_args call with
  | a0 :: _ =>
      al ← eval_array_lit env a0;
      if (ArrayLit_m.dims al =? 1)%nat && (ArrayLit_m.min al 0 =? 1)
      then Ok (if isa_Id a0 then a0 else E_ArrayLit al)
      else Ok (E_ArrayLit (ArrayLit_m.new (Ty_set_dim (al_type al) 1) (al_v al)))
  | [] => Throw AssertionViolation
  end.

End MoreBuiltins2.

Section MoreBuiltins3.

Context {ev : Evaluator} {ex : EvaluatorExt} {pr : Printer}.

(** *** Bounds of an array of integer variables *)

(** The declared part of [b_array_lb_int] and [b_array_ub_int]: for a
    declaration, whether its domain gives a bound and which, and its right
    hand side; [bound] reads the bound off the domain. *)
Definition declared_bound (bound : IntSetVal → result IntVal)
  (unbounded : IntVal) (env : EnvI) (e : Expression)
  : result (bool * IntVal * option Expression) :=
  match e with
  | E_VarDecl vd =>
      fb ← match vd_domain vd with
           | Some dom =>
               isv ← eval_intset env dom;
               if negb (isv_size isv =? 0)%nat
               then b ← bound isv; Ok (true, b)
               else Ok (false, unbounded)
           | None => Ok (false, unbounded)
           end;
      Ok (fb, vd_e vd)
  | _ => Ok ((false, unbounded), Some e)
  end.

(** The loop over the elements: [None] when the bounds of an element are
    not valid, where the source jumps to the end. *)
Fixpoint lb_loop (env : EnvI) (l : list Expression) (min : IntVal)
  : result (option IntVal) :=
  match l with
  | [] => Ok (Some min)
  | e :: l' =>
      ib ← compute_int_bounds env e;
      if negb (ib_valid ib) then Ok None
      else lb_loop env l' (IntVal_.min min (ib_l ib))
  end.

Fixpoint ub_loop (env : EnvI) (l : list Expression) (max : IntVal)
  : result (option IntVal) :=
  match l with
  | [] => Ok (Some max)
  | e :: l' =>
      ib ← compute_int_bounds env e;
      if negb (ib_valid ib) then Ok None
      else ub_loop env l' (IntVal_.max max (ib_u ib))
  end.

Definition b_array_lb_int (env : EnvI) (call : Call) : result IntVal :=
  match call_args call with
  | [a0] =>
      declared_bound isv_min IntMinusInfinity env (follow_id_to_decl env a0)
      ≫= fun d : bool * IntVal * option Expression =>
      let '(foundMin, array_lb, e) := d in
      let done (foundMin : bool) (array_lb : IntVal) :=
        if foundMin then array_lb else IntMinusInfinity in
      match e with
      | Some e =>
          al ← eval_array_lit env e;
          if (ArrayLit_m.size al =? 0)%nat
          then Throw (EvalError "lower bound of empty array undefined")
          else
            r ← lb_loop env (al_v al) IntPlusInfinity;
            match r with
            | None => Ok (done foundMin array_lb)
            | Some min =>
                Ok (done true
                      (if foundMin then IntVal_.max array_lb min else min))
            end
      | None => Ok (done foundMin array_lb)
      end
  | _ => Throw AssertionViolation
  end.

Definition b_array_ub_int (env : EnvI) (call : Call) : result IntVal :=
  match call_args call with
  | [a0] =>
      declared_bound isv_max IntPlusInfinity env (follow_id_to_decl env a0)
      ≫= fun d : bool * IntVal * option Expression =>
      let '(foundMax, array_ub, e) := d in
      let done (foundMax : bool) (array_ub : IntVal) :=
        if foundMax then array_ub else IntPlusInfinity in
      match e with
      | Some e =>
          al ← eval_array_lit env e;
          if (ArrayLit_m.size al =? 0)%nat
          then Throw (EvalError "upper bound of empty array undefined")
          else
            r ← ub_loop env (al_v al) IntMinusInfinity;
            match r with
            | None => Ok (done foundMax array_ub)
            | Some max =>
                Ok (done true
                      (if foundMax then IntVal_.min array_ub max else max))
            end
      | None => Ok (done foundMax array_ub)
      end
  | _ => Throw AssertionViolation
  end.

(** *** Intersection of an array of sets *)

(** How a pass over the sets ends: with a set that has no range left
    ([goto done]), with a range above the candidate ([goto restart]), or with
    the candidate [min..max] cut to a range of every set. *)
Inductive pass : Type :=
| PassDone
| PassRestart (min max : IntVal)
| PassEnd (min max : IntVal).

(** [while (ij() && (ij.max() < min)) ++ij]: the ranges from the first one
    that does not end below [min]. *)
Fixpoint skip_ranges (min : IntVal) (isv : IntSetVal) : IntSetVal :=
  match isv with
  | [] => []
  | r :: isv' => if IntVal_.ltb r.2 min then skip_ranges min isv' else isv
  end.

(** [for (int j = n; j--;)] of [b_array_intersect], with [j] sets left. *)
Fixpoint intersect_pass (env : EnvI) (al : ArrayLit) (j : nat)
  (min max : IntVal) : result pass :=
  match j with
  | O => Ok (PassEnd min max)
  | S j' =>
      e ← al_at al j';
      isv ← eval_intset env e;
      match skip_ranges min isv with
      | [] => Ok PassDone
      | ij :: _ =>
          if IntVal_.ltb max ij.1 then Ok (PassRestart ij.1 ij.2)
          else
            let min := if IntVal_.ltb min ij.1 then ij.1 else min in
            let max := if IntVal_.ltb ij.2 max then ij.2 else max in
            intersect_pass env al j' min max
      end
  end.

(** The loop [while (i0r())], whose iterator [i0r] stays at the first range
    of the first set, with the jumps to [restart]: [i0max] is the upper bound
    of that range and [fuel] the number of passes the loop may take. *)
Fixpoint intersect_loop (fuel : nat) (env : EnvI) (al : ArrayLit)
  (i0max : IntVal) (min max : IntVal) (ranges : list (IntVal * IntVal))
  : option (result IntSetVal) :=
  match fuel with
  | O => None
  | S fuel' =>
      match intersect_pass env al (ArrayLit_m.size al) min max with
      | Throw e => Some (Throw e)
      | Ok PassDone => Some (Ok ranges)
      | Ok (PassRestart min max) =>
          intersect_loop fuel' env al i0max min max ranges
      | Ok (PassEnd min max) =>
          match IntVal_.plus max (IntFinite 2) with
          | Throw e => Some (Throw e)
          | Ok min' =>
              intersect_loop fuel' env al i0max min' i0max
                (ranges ++ [(min, max)])
          end
      end
  end.

Definition b_array_intersect (fuel : nat) (env : EnvI) (call : Call)
  : option (result IntSetVal) :=
  match call_args call with
  | [a0] =>
      match eval_array_lit env a0 with
      | Throw e => Some (Throw e)
      | Ok al =>
          match al_v al with
          | [] => Some (Ok [])
          | e0 :: _ =>
              match eval_intset env e0 with
              | Throw e => Some (Throw e)
              | Ok [] => Some (Ok [])
              | Ok (r0 :: _) =>
                  intersect_loop fuel env al r0.2 r0.1 r0.2 []
              end
          end
      end
  | _ => Some (Throw AssertionViolation)
  end.

(** *** Sampling with a check of the parameters *)

Context {rnd : Random} {rx : RandomExt}.

Definition double_zero : FloatVal := S754_zero false.

Definition b_weibull_float_float (env : EnvI) (call : Call) (g : engine)
  : result FloatVal * engine :=
  match call_args call with
  | [a0; a1] =>
      match eval_float env a0 with
      | Throw e => (Throw e, g)
      | Ok shape =>
          if FloatVal_.ltb shape double_zero
          then (Throw (EvalError
                         ("The shape factor for the weibull distribution "
                          +:+ dquote +:+ show_double shape +:+ dquote
                          +:+ " has to be greater than zero.")), g)
          else
            match eval_float env a1 with
            | Throw e => (Throw e, g)
            | Ok scale =>
                if FloatVal_.ltb scale double_zero
                then (Throw (EvalError
                               ("The scale factor for the weibull distribution "
                                +:+ dquote +:+ show_double scale +:+ dquote
                                +:+ " has to be greater than zero.")), g)
                else
                  let '(x, g') := weibull_distribution shape scale g in
                  (Ok x, g')
            end
      end
  | _ => (Throw AssertionViolation, g)
  end.

Definition b_exponential_float (env : EnvI) (call : Call) (g : engine)
  : result FloatVal * engine :=
  match call_args call with
  | [a0] =>
      match eval_float env a0 with
      | Throw e => (Throw e, g)
      | Ok lambda =>
          if FloatVal_.ltb lambda double_zero
          then (Throw (EvalError
                         ("The lambda-parameter for the exponential distribution function "
                          +:+ dquote +:+ show_double lambda +:+ dquote
                          +:+ " has to be greater than zero.")), g)
          else
            let '(x, g') := exponential_distribution lambda g in
            (Ok x, g')
      end
  | _ => (Throw AssertionViolation, g)
  end.

End MoreBuiltins3.

(** ** Instances of the further interfaces for calls on literals *)

Module LiteralExt.

Definition bool_of (env : EnvI) (e : Expression) : result bool :=
  match e with
  | BoolLit b => Ok b
  | _ => Throw (EvalError "not a Boolean literal")
  end.

Definition string_of (env : EnvI) (e : Expression) : result string :=
  match e with
  | StringLit s => Ok s
  | _ => Throw (EvalError "not a string literal")
  end.

Definition intset_of (env : EnvI) (e : Expression) : result IntSetVal :=
  match e with
  | SetLit _ (Some isv) _ _ => Ok isv
  | _ => Throw (EvalError "not a set literal")
  end.

Definition decl_of (env : EnvI) (e : Expression) : Expression :=
  match e with
  | Id _ d => default e (Id_decl env d)
  | _ => e
  end.

#[global] Instance evaluator : EvaluatorExt := {|
  eval_bool := bool_of;
  eval_string := string_of;
  eval_intset := intset_of;
  follow_id_to_decl := decl_of
|}.

(** Samplers that return the first parameter: the instance stands for the
    interface where no sample is drawn. *)
#[global] Instance random : RandomExt := {|
  weibull_distribution := fun shape scale g => (shape, Literal.minstd_rand0 g);
  exponential_distribution := fun lambda g => (lambda, Literal.minstd_rand0 g)
|}.

Definition set_type : Ty := mkTy BT_INT ST_SET TI_PAR OT_PRESENT 0.

(** The set literal of the ranges [l] of integers. *)
Definition int_set (l : list (Z * Z)) : Expression :=
  SetLit set_type (Some (prod_map IntFinite IntFinite <$> l)) None [].

Definition bool_array (l : list bool) : Expression :=
  E_ArrayLit (ArrayLit_m.new Literal.int_array_type (BoolLit <$> l)).

Definition string_array (l : list string) : Expression :=
  E_ArrayLit (ArrayLit_m.new Literal.int_array_type (StringLit <$> l)).

Definition int (z : Z) : Expression := IntLit (IntFinite z).

End LiteralExt.

(** * Specifications

    What the properties below are stated with. *)

(** The loop over the elements of an array, on the values of the elements. *)
Fixpoint fold_values {St V : Type} (step : nat → St → V → result St)
  (i0 : nat) (vs : list V) (s : St) : result St :=
  match vs with
  | [] => Ok s
  | v :: vs' => s' ← step i0 s v; fold_values step (S i0) vs' s'
  end.

(** A strict weak order on the values that satisfy [P]: what [operator<]
    is on the integers, and on the floats that are not NaN. *)
Record strict_weak_order_on {V : Type} (P : V → Prop) (lt : V → V → bool)
  : Prop := {
  swo_irrefl : ∀ x, P x → lt x x = false;
  swo_trans : ∀ x y z, P x → P y → P z →
                lt x y = true → lt y z = true → lt x z = true;
  swo_negtrans : ∀ x y z, P x → P y → P z →
                   lt x z = true → lt x y = true ∨ lt y z = true
}.

(** [r] is the first position of a best value of [vs]: no value is better
    than the one at [r], and that one is better than every value before it. *)
Definition first_best {V : Type} (better : V → V → bool) (vs : list V)
  (r : nat) : Prop :=
  ∃ m : V, vs !! r = Some m
    ∧ (∀ j x, vs !! j = Some x → better x m = false)
    ∧ (∀ j x, (j < r)%nat → vs !! j = Some x → better m x = true).

(** What the loop knows of the pair [(m, m_idx)] before the element [k]. *)
Definition scan_inv {V : Type} (better : V → V → bool) (vs : list V)
  (k : nat) (s : V * nat) : Prop :=
  (s.2 < k)%nat
  ∧ vs !! s.2 = Some s.1
  ∧ (∀ j x, (j < k)%nat → vs !! j = Some x → better x s.1 = false)
  ∧ (∀ j x, (j < s.2)%nat → vs !! j = Some x → better s.1 x = true).

(** Where [u] stands before [v] after a stable sort by [comp] of a list in
    which the order of the elements was [R0]: [v] is not less than [u], and
    if they are equivalent then [u] came first. *)
Definition stable_order {A : Type} (comp : A → A → bool) (R0 : A → A → Prop)
  (u v : A) : Prop :=
  comp v u = false ∧ (comp u v = false → R0 u v).

(** The result [res] of sorting the array [al] by the keys [K]: the array of
    the elements of [al] at the positions [a], where [a] is a permutation of
    the positions [0..n-1] along which the keys never decrease and the
    positions of equivalent keys increase. *)
Definition sorted_by_keys {V : Type} (ltb : V → V → bool) (al : ArrayLit)
  (K : list V) (res : result Expression) : Prop :=
  ∃ (a : list nat) (sorted : list Expression),
    res = Ok (E_ArrayLit (ArrayLit_m.new (al_type al) sorted))
    ∧ a ≡ₚ seq 0 (length K)
    ∧ Forall2 (fun e i => al_v al !! i = Some e) sorted a
    ∧ sorted ≡ₚ al_v al
    ∧ ∀ (p q i j : nat) (ki kj : V),
        (p < q)%nat → a !! p = Some i → a !! q = Some j →
        K !! i = Some ki → K !! j = Some kj →
        ltb kj ki = false ∧ (ltb ki kj = false → (i < j)%nat).

(** ** Inputs of the examples *)

Module FixedExamples.

Definition var_int : Ty := mkTy BT_INT ST_PLAIN TI_VAR OT_PRESENT 0.

(** [var int: x;] has no domain and no right hand side, [var 3..3: y;] has
    the domain [3] of one value, and [var int: z = z], which the type checker
    refuses, refers to itself. *)
Definition env : EnvI :=
  mkEnvI [mkVarDecl var_int None None;
          mkVarDecl var_int (Some (IntLit (IntFinite 3))) None;
          mkVarDecl var_int None (Some (Id var_int (Some 2%nat)))].

Definition x : Expression := Id var_int (Some 0%nat).
Definition y : Expression := Id var_int (Some 1%nat).
Definition z : Expression := Id var_int (Some 2%nat).

End FixedExamples.

(** The array [[|1, 2|3, 4|]]: two rows and two columns, indexed from 1. *)
Definition array_2x2 : ArrayLit :=
  mkArrayLit (mkTy BT_INT ST_PLAIN TI_PAR OT_PRESENT 2)
    (IntLit ∘ IntFinite <$> [1; 2; 3; 4]) [(1, 2); (1, 2)].

(** ** Tactics *)

(** Quotients are opaque to the comparisons of minima and maxima below. *)
Ltac forget_quots :=
  repeat match goal with
         | |- context [?a ÷ ?b] => generalize (a ÷ b); intro
         end.

Ltac compare_cases :=
  repeat match goal with
         | |- context [Z.compare ?a ?b] => destruct (Z.compare_spec a b)
         | |- context [Pos.compare_cont Eq ?a ?b] =>
             change (Pos.compare_cont Eq a b) with (Pos.compare a b)
         | |- context [Pos.compare ?a ?b] => destruct (Pos.compare_spec a b)
         end.

(** An element that [b_show_json_basic] hands to the printer: no set
    literal and not the absent value. *)
Definition plain_element (e : Expression) : Prop :=
  match e with
  | SetLit _ _ _ _ | Absent _ => False
  | _ => True
  end.

(** The number of cells of the index sets [dims] as [b_arrayXd] counts it
    in [unsigned int], from the count [dim1d]. *)
Definition cells_from (dim1d : Z) (dims : list (Z * Z)) : Z :=
  foldl (fun acc r => wrap32 (acc * wrap32 (r.2 - r.1 + 1))) dim1d dims.

Definition cells : list (Z * Z) → Z := cells_from 1.


(** An expression that is no declaration, such as an array literal. *)
Definition not_a_declaration (e : Expression) : Prop :=
  match e with
  | E_VarDecl _ => False
  | _ => True
  end.

(** The bounds of [e] are computed, and are valid. *)
Definition has_int_bounds `{Evaluator} (env : EnvI) (e : Expression) : Prop :=
  ∃ ib : IntBounds, compute_int_bounds env e = Ok ib.

Definition has_valid_int_bounds `{Evaluator} (env : EnvI) (e : Expression)
  : Prop :=
  ∃ ib : IntBounds, compute_int_bounds env e = Ok ib ∧ ib_valid ib = true.

Definition has_invalid_int_bounds `{Evaluator} (env : EnvI) (e : Expression)
  : Prop :=
  ∃ ib : IntBounds, compute_int_bounds env e = Ok ib ∧ ib_valid ib = false.

(** A declaration for [b_array_lb_int] and [b_array_ub_int]:
    [array[1..2] of var 0..10: a = [3, 12]]. *)
Module BoundsExamples.

Definition var_int_array : Ty := mkTy BT_INT ST_PLAIN TI_VAR OT_PRESENT 1.

Definition env : EnvI :=
  mkEnvI [mkVarDecl var_int_array
            (Some (LiteralExt.int_set [(0, 10)]))
            (Some (Literal.int_array [3; 12]))].

Definition a : Expression := Id var_int_array (Some 0%nat).

End BoundsExamples.


(** Every set of the array [al] has a range that encloses the range [r]. *)
Definition within_every_set `{EvaluatorExt} (env : EnvI) (al : ArrayLit)
  (r : IntVal * IntVal) : Prop :=
  ∀ (k : nat) (e : Expression) (isv : IntSetVal),
    al_v al !! k = Some e → eval_intset env e = Ok isv →
    ∃ s : IntVal * IntVal,
      s ∈ isv ∧ IntVal_.ltb r.1 s.1 = false ∧ IntVal_.ltb s.2 r.2 = false.

(** The ranges [l] of integers as the ranges of an [IntSetVal]. *)
Definition finite_ranges (l : list (Z * Z)) : IntSetVal :=
  prod_map IntFinite IntFinite <$> l.

(** The invariant of the ranges of an [IntSetVal]: no range is empty, they
    ascend, and two of them neither overlap nor touch. *)
Fixpoint normal_ranges (l : list (Z * Z)) : Prop :=
  match l with
  | [] => True
  | r :: l' =>
      r.1 ≤ r.2
      ∧ match l' with [] => True | r' :: _ => r.2 + 2 ≤ r'.1 end
      ∧ normal_ranges l'
  end.


(** * Properties *)

(** ** Division bounds *)

Section DivBounds.

Local Open Scope Z_scope.

Lemma quot_between_pos (p a y b : Z) :
  0 < a → a ≤ y ≤ b →
  Z.min (p ÷ a) (p ÷ b) ≤ p ÷ y ≤ Z.max (p ÷ a) (p ÷ b).
Proof.
  intros Ha Hy.
  destruct (Z.le_gt_cases 0 p) as [Hp|Hp].
  - pose proof (Z.quot_le_compat_l p a y Hp ltac:(lia)).
    pose proof (Z.quot_le_compat_l p y b Hp ltac:(lia)). lia.
  - assert (Hn : 0 ≤ - p) by lia.
    pose proof (Z.quot_le_compat_l (- p) a y Hn ltac:(lia)) as H1.
    pose proof (Z.quot_le_compat_l (- p) y b Hn ltac:(lia)) as H2.
    rewrite !Z.quot_opp_l in H1, H2 by lia. lia.
Qed.

Lemma quot_corners_pos (lx ux x a y b : Z) :
  0 < a → a ≤ y ≤ b → lx ≤ x ≤ ux →
  Z.min (Z.min (lx ÷ a) (lx ÷ b)) (Z.min (ux ÷ a) (ux ÷ b)) ≤ x ÷ y
  ≤ Z.max (Z.max (lx ÷ a) (lx ÷ b)) (Z.max (ux ÷ a) (ux ÷ b)).
Proof.
  intros Ha Hy Hx.
  pose proof (quot_between_pos lx a y b Ha Hy).
  pose proof (quot_between_pos ux a y b Ha Hy).
  pose proof (Z.quot_le_mono lx x y ltac:(lia) ltac:(lia)).
  pose proof (Z.quot_le_mono x ux y ltac:(lia) ltac:(lia)).
  lia.
Qed.

Lemma quot_corners (lx ux x a y b : Z) :
  0 < a ∨ b < 0 → a ≤ y ≤ b → lx ≤ x ≤ ux →
  Z.min (Z.min (lx ÷ a) (lx ÷ b)) (Z.min (ux ÷ a) (ux ÷ b)) ≤ x ÷ y
  ≤ Z.max (Z.max (lx ÷ a) (lx ÷ b)) (Z.max (ux ÷ a) (ux ÷ b)).
Proof.
  intros [Ha|Hb] Hy Hx; [by apply quot_corners_pos|].
  pose proof (quot_corners_pos lx ux x (- b) (- y) (- a)
                ltac:(lia) ltac:(lia) Hx) as H.
  rewrite !Z.quot_opp_r in H by lia. lia.
Qed.

End DivBounds.

Section DivBoundsSound.

Context {ev : Evaluator}.

Lemma Diff_Const_zero (ly uy : Z) :
  Ranges.Diff (Ranges.Const ly uy) (Ranges.Const 0 0)
  = if uy <? ly then []
    else if (uy <? 0) || (0 <? ly) then [(ly, uy)]
         else (if ly <? 0 then [(ly, -1)] else [])
              ++ (if 0 <? uy then [(1, uy)] else []).
Proof.
  unfold Ranges.Diff, Ranges.Const. simpl.
  destruct (uy <? ly); [done|]. simpl.
  destruct ((uy <? 0) || (0 <? ly)); [done|].
  by rewrite app_nil_r.
Qed.

Lemma div_corners_Ok (lx ux : Z) (r : Ranges.range) (mm : Z * Z) :
  r.1 ≠ 0 → r.2 ≠ 0 →
  div_corners lx ux r mm
  = Ok (Z.min (Z.min (Z.min (Z.min mm.1 (lx ÷ r.1)) (lx ÷ r.2)) (ux ÷ r.1))
          (ux ÷ r.2),
        Z.max (Z.max (Z.max (Z.max mm.2 (lx ÷ r.1)) (lx ÷ r.2)) (ux ÷ r.1))
          (ux ÷ r.2)).
Proof.
  intros H1 H2. unfold div_corners, IntVal_.div.
  apply Z.eqb_neq in H1, H2. by rewrite H1, H2.
Qed.

Lemma IntSetVal_a_finite (lo hi : Z) :
  lo ≤ hi → IntSetVal_.a (IntFinite lo) (IntFinite hi)
            = [(IntFinite lo, IntFinite hi)].
Proof.
  intros H. unfold IntSetVal_.a. simpl.
  by destruct (Z.ltb_spec hi lo); [lia|].
Qed.

Lemma range_of_corners (lo hi q m1 m2 : Z) :
  m1 ≤ q ≤ m2 → lo ≤ m1 → m2 ≤ hi →
  ∃ lo' hi' : Z,
    IntSetVal_.a (IntFinite lo) (IntFinite hi) = [(IntFinite lo', IntFinite hi')]
    ∧ lo' ≤ q ≤ hi'.
Proof.
  intros Hq Hlo Hhi. exists lo, hi.
  split; [apply IntSetVal_a_finite|]; lia.
Qed.

(** C1. For finite bounds [lx..ux] of the dividend and [ly..uy] of the
    divisor, [b_compute_div_bounds] returns a range set, and for every [x] in
    [lx..ux] and every [y] in [ly..uy] other than zero that set is the one
    range [lo..hi] with [lo <= x div y <= hi], where [div] truncates. *)
Theorem b_compute_div_bounds_sound (env : EnvI) (call : Call)
  (a0 a1 : Expression) (lx ux ly uy : Z) :
  call_args call = [a0; a1] →
  compute_int_bounds env a0 = Ok (mkIntBounds (IntFinite lx) (IntFinite ux) true) →
  compute_int_bounds env a1 = Ok (mkIntBounds (IntFinite ly) (IntFinite uy) true) →
  ∃ s : IntSetVal,
    b_compute_div_bounds env call = Ok s
    ∧ ∀ x y : Z, lx ≤ x ≤ ux → ly ≤ y ≤ uy → y ≠ 0 →
        ∃ lo hi : Z, s = [(IntFinite lo, IntFinite hi)] ∧ lo ≤ x ÷ y ≤ hi.
Proof.
  intros Hargs Hx Hy. unfold b_compute_div_bounds.
  rewrite Hargs, Hx. cbn [mbind result_bind ib_valid ib_l ib_u negb].
  rewrite Hy. cbn [mbind result_bind ib_valid ib_l ib_u negb].
  rewrite Diff_Const_zero.
  destruct (Z.ltb_spec uy ly) as [Hempty|Hne].
  { eexists; split; [reflexivity|]. intros; lia. }
  destruct (Z.ltb_spec uy 0) as [Hneg|Hnn]; cbn [orb app].
  { rewrite div_corners_Ok by (cbn; lia). cbn [fst snd mbind result_bind].
    eexists; split; [reflexivity|]. intros x y Hxr Hyr Hy0.
    eapply range_of_corners;
      [apply (quot_corners lx ux x ly y uy); [lia|done..]|forget_quots; lia..]. }
  destruct (Z.ltb_spec 0 ly) as [Hpos|Hnp]; cbn [orb app].
  { rewrite div_corners_Ok by (cbn; lia). cbn [fst snd mbind result_bind].
    eexists; split; [reflexivity|]. intros x y Hxr Hyr Hy0.
    eapply range_of_corners;
      [apply (quot_corners lx ux x ly y uy); [lia|done..]|forget_quots; lia..]. }
  destruct (Z.ltb_spec ly 0) as [Hl|Hl]; destruct (Z.ltb_spec 0 uy) as [Hu|Hu];
    cbn [app]; rewrite ?div_corners_Ok by (cbn; lia);
    cbn [fst snd mbind result_bind]; rewrite ?div_corners_Ok by (cbn; lia);
    cbn [fst snd mbind result_bind];
    (eexists; split; [reflexivity|]); intros x y Hxr Hyr Hy0.
  - destruct (Z.lt_ge_cases y 0).
    + eapply range_of_corners;
        [apply (quot_corners lx ux x ly y (-1)); [lia|lia|done]|forget_quots; lia..].
    + eapply range_of_corners;
        [apply (quot_corners lx ux x 1 y uy); [lia|lia|done]|forget_quots; lia..].
  - eapply range_of_corners;
      [apply (quot_corners lx ux x ly y (-1)); [lia|lia|done]|forget_quots; lia..].
  - eapply range_of_corners;
      [apply (quot_corners lx ux x 1 y uy); [lia|lia|done]|forget_quots; lia..].
  - lia.
Qed.

End DivBoundsSound.

(** The bounds of [x div y] for [x] in [-7..7] and [y] in [-2..3]. *)
Example b_compute_div_bounds_example :
  b_compute_div_bounds Literal.env0
    (Literal.call "compute_div_bounds"
       [Literal.int_array [-7; 7]; Literal.int_array [-2; 3]])
  = Ok [(IntFinite (-7), IntFinite 7)].
Proof. reflexivity. Qed.

Lemma b_compute_div_bounds_sound_witness :
  ∃ s : IntSetVal,
    b_compute_div_bounds Literal.env0
      (Literal.call "compute_div_bounds"
         [Literal.int_array [-7; 7]; Literal.int_array [-2; 3]]) = Ok s
    ∧ ∀ x y : Z, -7 ≤ x ≤ 7 → -2 ≤ y ≤ 3 → y ≠ 0 →
        ∃ lo hi : Z, s = [(IntFinite lo, IntFinite hi)] ∧ lo ≤ x ÷ y ≤ hi.
Proof.
  apply (b_compute_div_bounds_sound Literal.env0 _
           (Literal.int_array [-7; 7]) (Literal.int_array [-2; 3]));
    reflexivity.
Defined.

(** ** Reductions over arrays *)

Section Reductions.

Context {ev : Evaluator}.

Lemma al_at_lookup (al : ArrayLit) (i : nat) (e : Expression) :
  al_v al !! i = Some e → al_at al i = Ok e.
Proof. intros H. unfold al_at. by rewrite H. Qed.

Lemma for_loop_values {St V : Type} (eval : EnvI → Expression → result V)
  (step : nat → St → V → result St) (env : EnvI) (al : ArrayLit)
  (vs : list V) :
  Forall2 (fun e v => eval env e = Ok v) (al_v al) vs →
  ∀ (n i0 : nat) (s : St),
    (i0 + n ≤ length vs)%nat →
    for_loop n i0
      (fun i s => ei ← al_at al i; x ← eval env ei; step i s x) s
    = fold_values step i0 (take n (drop i0 vs)) s.
Proof.
  intros Hvs n. induction n as [|n IH]; intros i0 s Hn; [done|].
  destruct (lookup_lt_is_Some_2 vs i0 ltac:(lia)) as [v Hv].
  destruct (Forall2_lookup_r _ _ _ _ _ Hvs Hv) as (e & He & Hev).
  rewrite (drop_S _ _ _ Hv). cbn [take for_loop fold_values].
  rewrite (al_at_lookup _ _ _ He). cbn [mbind result_bind].
  rewrite Hev. cbn [mbind result_bind].
  destruct (step i0 s v) as [s'|ex]; [|done].
  cbn [mbind result_bind]. apply IH. lia.
Qed.

Lemma for_range_values {St V : Type} (eval : EnvI → Expression → result V)
  (step : nat → St → V → result St) (env : EnvI) (al : ArrayLit)
  (vs : list V) (lo : nat) (s : St) :
  Forall2 (fun e v => eval env e = Ok v) (al_v al) vs →
  (lo ≤ length vs)%nat →
  for_range lo (ArrayLit_m.size al)
    (fun i s => ei ← al_at al i; x ← eval env ei; step i s x) s
  = fold_values step lo (drop lo vs) s.
Proof.
  intros Hvs Hlo. unfold for_range, ArrayLit_m.size.
  rewrite (Forall2_length _ _ _ Hvs).
  rewrite (for_loop_values eval step env al vs Hvs) by lia.
  by rewrite take_ge by (rewrite length_drop; lia).
Qed.

Lemma fold_values_plus (A : list Z) (i0 : nat) (z : Z) :
  fold_values (fun _ m x => IntVal_.plus m x) i0 (IntFinite <$> A) (IntFinite z)
  = Ok (IntFinite (fold_left Z.add A z)).
Proof.
  revert i0 z. induction A as [|x A IH]; intros i0 z; [done|].
  cbn. apply IH.
Qed.

Lemma fold_values_times (A : list Z) (i0 : nat) (z : Z) :
  fold_values (fun _ m x => IntVal_.times m x) i0 (IntFinite <$> A) (IntFinite z)
  = Ok (IntFinite (fold_left Z.mul A z)).
Proof.
  revert i0 z. induction A as [|x A IH]; intros i0 z; [done|].
  cbn. apply IH.
Qed.

Lemma Forall2_fmap_finite (env : EnvI) (l : list Expression) (A : list Z) :
  Forall2 (fun e v => eval_int env e = Ok (IntFinite v)) l A →
  Forall2 (fun e v => eval_int env e = Ok v) l (IntFinite <$> A).
Proof. intros H. by apply Forall2_fmap_r. Qed.

(** C2. On a call of [min] or [max] with one argument that is an array and
    evaluates to an empty array, the integer builtins throw
    [ResultUndefinedError], and the float builtins throw [EvalError]. *)
Theorem min_max_of_empty_array (env : EnvI) (call : Call) (a0 : Expression)
  (al : ArrayLit) :
  call_args call = [a0] →
  Ty_.is_set (type a0) = false →
  eval_array_lit env a0 = Ok al →
  al_v al = [] →
  b_int_min env call
  = Throw (ResultUndefinedError "minimum of empty array is undefined")
  ∧ b_int_max env call
    = Throw (ResultUndefinedError "maximum of empty array is undefined")
  ∧ b_float_min env call = Throw (EvalError "min on empty array undefined")
  ∧ b_float_max env call = Throw (EvalError "max on empty array undefined").
Proof.
  intros Hargs Hset Hal Hempty.
  unfold b_int_min, b_int_max, b_float_min, b_float_max, ArrayLit_m.size.
  by rewrite Hargs, Hset, Hal; cbn; rewrite Hempty.
Qed.

(** C5. [sum] of an array of integers is the left fold of [+] from 0 over its
    elements and [product] the left fold of [*] from 1, the empty array
    included. *)
Theorem sum_product_fold_left (env : EnvI) (call : Call) (a0 : Expression)
  (al : ArrayLit) (A : list Z) :
  call_args call = [a0] →
  eval_array_lit env a0 = Ok al →
  Forall2 (fun e v => eval_int env e = Ok (IntFinite v)) (al_v al) A →
  b_sum_int env call = Ok (IntFinite (fold_left Z.add A 0))
  ∧ b_product_int env call = Ok (IntFinite (fold_left Z.mul A 1)).
Proof.
  intros Hargs Hal HA. unfold b_sum_int, b_product_int.
  rewrite Hargs, Hal. cbn [mbind result_bind].
  pose proof (Forall2_length _ _ _ HA) as Hlen.
  apply Forall2_fmap_finite in HA.
  destruct (Nat.eqb_spec (ArrayLit_m.size al) 0) as [H0|H0].
  - unfold ArrayLit_m.size in H0. rewrite H0 in Hlen.
    by destruct A.
  - rewrite !(for_range_values eval_int _ env al _ 0 _ HA) by lia.
    rewrite drop_0. by rewrite fold_values_plus, fold_values_times.
Qed.

End Reductions.

Lemma min_max_of_empty_array_witness :
  b_int_min Literal.env0 (Literal.call "min" [Literal.float_array []])
  = Throw (ResultUndefinedError "minimum of empty array is undefined")
  ∧ b_int_max Literal.env0 (Literal.call "min" [Literal.float_array []])
    = Throw (ResultUndefinedError "maximum of empty array is undefined")
  ∧ b_float_min Literal.env0 (Literal.call "min" [Literal.float_array []])
    = Throw (EvalError "min on empty array undefined")
  ∧ b_float_max Literal.env0 (Literal.call "min" [Literal.float_array []])
    = Throw (EvalError "max on empty array undefined").
Proof.
  apply (min_max_of_empty_array Literal.env0 _ (Literal.float_array [])
           (ArrayLit_m.new Literal.float_array_type []));
    reflexivity.
Defined.

Lemma sum_product_fold_left_witness :
  b_sum_int Literal.env0 (Literal.call "sum" [Literal.int_array [2; 3; 4]])
  = Ok (IntFinite 9)
  ∧ b_product_int Literal.env0 (Literal.call "sum" [Literal.int_array [2; 3; 4]])
    = Ok (IntFinite 24).
Proof.
  apply (sum_product_fold_left Literal.env0 _ (Literal.int_array [2; 3; 4])
           (ArrayLit_m.new Literal.int_array_type
              (IntLit ∘ IntFinite <$> [2; 3; 4])) [2; 3; 4]);
    [reflexivity..|].
  repeat constructor.
Defined.

(** ** Orders *)

Lemma swo_asym {V : Type} (P : V → Prop) (lt : V → V → bool) (x y : V) :
  strict_weak_order_on P lt → P x → P y → lt x y = true → lt y x = false.
Proof.
  intros H Hx Hy Hxy. destruct (lt y x) eqn:Hyx; [|done].
  by rewrite <- (swo_irrefl P lt H x Hx), (swo_trans P lt H x y x).
Qed.

Lemma swo_flip {V : Type} (P : V → Prop) (lt : V → V → bool) :
  strict_weak_order_on P lt → strict_weak_order_on P (flip lt).
Proof.
  intros H. split; unfold flip.
  - apply H.
  - intros x y z Hx Hy Hz Hxy Hyz. by apply (swo_trans P lt H z y x).
  - intros x y z Hx Hy Hz Hxz.
    destruct (swo_negtrans P lt H z y x Hz Hy Hx Hxz); auto.
Qed.

Lemma IntVal_ltb_swo : strict_weak_order_on (fun _ => True) IntVal_.ltb.
Proof.
  split.
  - intros [x| |] _; cbn; [apply Z.ltb_irrefl|done..].
  - intros [x| |] [y| |] [z| |] _ _ _; cbn; try done.
    rewrite !Z.ltb_lt. lia.
  - intros [x| |] [y| |] [z| |] _ _ _; cbn; try done; auto.
    rewrite !Z.ltb_lt. lia.
Qed.

Lemma FloatVal_ltb_swo :
  strict_weak_order_on (fun x => FloatVal_.is_nan x = false) FloatVal_.ltb.
Proof.
  split; unfold FloatVal_.ltb, SFltb, SFcompare.
  - intros [[]|[]| |[] m e] _; cbn; try done; compare_cases; cbn; try done; lia.
  - intros [[]|[]| |[] mx ex] [[]|[]| |[] my ey_] [[]|[]| |[] mz ez] _ _ _;
      cbn; try done; compare_cases; cbn; try done; lia.
  - intros [[]|[]| |[] mx ex] [[]|[]| |[] my ey_] [[]|[]| |[] mz ez] _ Hy _;
      cbn; try done; auto; compare_cases; cbn; try done; auto; lia.
Qed.

(** ** Position of the minimum and of the maximum *)

Section ArgScan.

Context {ev : Evaluator} {V : Type} (P : V → Prop) (better : V → V → bool).
Hypothesis Hswo : strict_weak_order_on P better.

Lemma scan_step (vs : list V) (k : nat) (s : V * nat) (mi : V) :
  Forall P vs → vs !! k = Some mi → scan_inv better vs k s →
  scan_inv better vs (S k) (if better mi s.1 then (mi, k) else s).
Proof.
  intros HP Hk (Hidx & Hm & Hmin & Hfirst).
  rewrite Forall_lookup in HP.
  assert (Pm : P s.1) by eauto. assert (Pmi : P mi) by eauto.
  destruct (better mi s.1) eqn:Hb; unfold scan_inv; cbn [fst snd].
  - split; [lia|]. split; [done|]. split.
    + intros j x Hj Hx. destruct (decide (j = k)) as [->|Hne].
      * assert (x = mi) as -> by congruence. by apply Hswo.
      * destruct (better x mi) eqn:Hxmi; [|done].
        rewrite <- (Hmin j x ltac:(lia) Hx).
        symmetry. eapply (swo_trans P better Hswo x mi s.1); eauto.
    + intros j x Hj Hx.
      destruct (swo_negtrans P better Hswo mi x s.1) as [H|H]; eauto.
      by rewrite (Hmin j x Hj Hx) in H.
  - split; [lia|]. split; [done|]. split; [|done].
    intros j x Hj Hx. destruct (decide (j = k)) as [->|Hne].
    + congruence.
    + apply (Hmin j x); [lia|done].
Qed.

Lemma scan_fold (vs : list V) :
  Forall P vs →
  ∀ (rest : list V) (k : nat) (s : V * nat),
    drop k vs = rest → scan_inv better vs k s →
    ∃ s', fold_values
            (fun i s mi => Ok (if better mi s.1 then (mi, i) else s)) k rest s
          = Ok s'
          ∧ scan_inv better vs (length vs) s'.
Proof.
  intros HP rest. induction rest as [|mi rest IH]; intros k s Hdrop Hinv.
  - exists s. split; [done|].
    assert (length vs ≤ k)%nat as Hlen.
    { apply drop_nil_inv in Hdrop. lia. }
    destruct Hinv as (Hidx & Hm & Hmin & Hfirst).
    apply lookup_lt_Some in Hm as Hlt.
    unfold scan_inv. split_and!; [done..| |done].
    intros j x Hj. apply Hmin. lia.
  - assert (vs !! k = Some mi) as Hk.
    { rewrite <- (Nat.add_0_r k), <- lookup_drop. by rewrite Hdrop. }
    cbn [fold_values mbind result_bind]. apply IH.
    + rewrite (drop_S _ _ _ Hk) in Hdrop. by injection Hdrop.
    + by apply scan_step.
Qed.

Lemma arg_scan_first_best (eval : EnvI → Expression → result V) (msg : string)
  (env : EnvI) (call : Call) (a0 : Expression) (rest : list Expression)
  (al : ArrayLit) (vs : list V) :
  call_args call = a0 :: rest →
  eval_array_lit env a0 = Ok al →
  Forall2 (fun e v => eval env e = Ok v) (al_v al) vs →
  Forall P vs → vs ≠ [] →
  ∃ r : nat, arg_scan eval better msg env call = Ok (IntFinite (Z.of_nat r + 1))
             ∧ first_best better vs r.
Proof.
  intros Hargs Hal Hvs HP Hne. unfold arg_scan.
  rewrite Hargs, Hal. cbn [mbind result_bind].
  pose proof (Forall2_length _ _ _ Hvs) as Hlen.
  destruct vs as [|v0 vs']; [done|].
  destruct (al_v al) as [|e0 es] eqn:Hes; [done|].
  unfold ArrayLit_m.size. rewrite Hes. cbn [length Nat.eqb].
  rewrite (al_at_lookup al 0 e0) by (by rewrite Hes).
  cbn [mbind result_bind].
  pose proof (Forall2_cons_1 _ _ _ _ _ Hvs) as [He0 _]. rewrite He0.
  cbn [mbind result_bind].
  rewrite <- Hes in Hvs.
  pose proof (for_range_values eval
                (fun i (s : V * nat) mi =>
                   Ok (if better mi s.1 then (mi, i) else s))
                env al (v0 :: vs') 1 (v0, 0%nat) Hvs ltac:(cbn; lia)) as Hloop.
  unfold ArrayLit_m.size in Hloop. rewrite Hes in Hloop. cbn [length] in Hloop.
  rewrite Hloop.
  destruct (scan_fold (v0 :: vs') HP (drop 1 (v0 :: vs')) 1 (v0, 0%nat) eq_refl)
    as (s' & -> & Hidx & Hm & Hmin & Hfirst).
  { unfold scan_inv; cbn [fst snd]. split_and!; [lia|done| |intros; lia].
    intros [|j] x Hj Hx; [|lia]. cbn in Hx. injection Hx as <-.
    apply Hswo. by inversion HP. }
  cbn [mbind result_bind]. exists s'.2. split; [done|].
  exists s'.1. split_and!; [done| |done].
  intros j x Hx. apply (Hmin j x); [|done]. by apply lookup_lt_Some in Hx.
Qed.

End ArgScan.

Section ArgMinMax.

Context {ev : Evaluator}.

(** C6. On an array that is not empty, [arg_min] returns the position,
    counted from 1, of the first element that no element is less than, and
    [arg_max] the position of the first element that no element is greater
    than (for floats: when no element is a NaN); on an empty array they throw
    [ResultUndefinedError]. The scan goes from left to right and compares
    with [<] and [>] only. *)
Theorem arg_min_max_first_occurrence (env : EnvI) (call : Call)
  (a0 : Expression) (rest : list Expression) (al : ArrayLit) :
  call_args call = a0 :: rest →
  eval_array_lit env a0 = Ok al →
  (al_v al = [] →
   b_arg_min_int env call
   = Throw (ResultUndefinedError "argmin of empty array is undefined")
   ∧ b_arg_max_int env call
     = Throw (ResultUndefinedError "argmax of empty array is undefined")
   ∧ b_arg_min_float env call
     = Throw (ResultUndefinedError "argmin of empty array is undefined")
   ∧ b_arg_max_float env call
     = Throw (ResultUndefinedError "argmax of empty array is undefined"))
  ∧ (∀ A : list IntVal,
       A ≠ [] → Forall2 (fun e v => eval_int env e = Ok v) (al_v al) A →
       (∃ r : nat, b_arg_min_int env call = Ok (IntFinite (Z.of_nat r + 1))
                   ∧ first_best IntVal_.ltb A r)
       ∧ (∃ r : nat, b_arg_max_int env call = Ok (IntFinite (Z.of_nat r + 1))
                     ∧ first_best (flip IntVal_.ltb) A r))
  ∧ (∀ A : list FloatVal,
       A ≠ [] → Forall2 (fun e v => eval_float env e = Ok v) (al_v al) A →
       Forall (fun x => FloatVal_.is_nan x = false) A →
       (∃ r : nat, b_arg_min_float env call = Ok (IntFinite (Z.of_nat r + 1))
                   ∧ first_best FloatVal_.ltb A r)
       ∧ (∃ r : nat, b_arg_max_float env call = Ok (IntFinite (Z.of_nat r + 1))
                     ∧ first_best (flip FloatVal_.ltb) A r)).
Proof.
  intros Hargs Hal. split_and!.
  - intros Hempty.
    unfold b_arg_min_int, b_arg_max_int, b_arg_min_float, b_arg_max_float,
      arg_scan, ArrayLit_m.size.
    by rewrite Hargs, Hal; cbn; rewrite Hempty.
  - intros A HA Hev. split.
    + eapply (arg_scan_first_best (fun _ => True)); eauto using IntVal_ltb_swo.
      by apply Forall_true.
    + eapply (arg_scan_first_best (fun _ => True) (flip IntVal_.ltb));
        eauto using swo_flip, IntVal_ltb_swo.
      by apply Forall_true.
  - intros A HA Hev Hnan. split.
    + eapply (arg_scan_first_best (fun x => FloatVal_.is_nan x = false));
        eauto using FloatVal_ltb_swo.
    + eapply (arg_scan_first_best (fun x => FloatVal_.is_nan x = false)
                (flip FloatVal_.ltb));
        eauto using swo_flip, FloatVal_ltb_swo.
Qed.

End ArgMinMax.

(** [arg_min([3, 1, 2, 1])] is 2 and [arg_max([3, 1, 3])] is 1. *)
Example arg_min_example :
  b_arg_min_int Literal.env0
    (Literal.call "arg_min" [Literal.int_array [3; 1; 2; 1]])
  = Ok (IntFinite 2)
  ∧ b_arg_max_int Literal.env0
      (Literal.call "arg_max" [Literal.int_array [3; 1; 3]])
    = Ok (IntFinite 1).
Proof. split; reflexivity. Qed.

Lemma arg_min_max_first_occurrence_witness :
  ∃ r : nat,
    b_arg_min_int Literal.env0
      (Literal.call "arg_min" [Literal.int_array [3; 1; 2; 1]])
    = Ok (IntFinite (Z.of_nat r + 1))
    ∧ first_best IntVal_.ltb (IntFinite <$> [3; 1; 2; 1]) r.
Proof.
  refine (proj1 (proj1 (proj2 (arg_min_max_first_occurrence Literal.env0
                  (Literal.call "arg_min" [Literal.int_array [3; 1; 2; 1]])
                  (Literal.int_array [3; 1; 2; 1]) []
                  (ArrayLit_m.new Literal.int_array_type
                     (IntLit ∘ IntFinite <$> [3; 1; 2; 1]))
                  eq_refl eq_refl))
            (IntFinite <$> [3; 1; 2; 1]) _ _)).
  - discriminate.
  - repeat constructor.
Defined.

(** ** Stable sorting *)

Section StableSort.

Context {A : Type} (P : A → Prop) (comp : A → A → bool) (R0 : A → A → Prop).
Hypothesis Hswo : strict_weak_order_on P comp.

Lemma stable_insert_perm (x : A) (l : list A) :
  stable_insert comp x l ≡ₚ x :: l.
Proof.
  induction l as [|y l IH]; [done|]. cbn.
  destruct (comp y x); [|done].
  by rewrite IH, Permutation_swap.
Qed.

Lemma stable_sort_perm (l : list A) : stable_sort comp l ≡ₚ l.
Proof.
  induction l as [|x l IH]; [done|]. cbn.
  by rewrite stable_insert_perm, IH.
Qed.

Lemma stable_insert_sorted (x : A) (l : list A) :
  P x → Forall P l → Forall (R0 x) l →
  StronglySorted (stable_order comp R0) l →
  StronglySorted (stable_order comp R0) (stable_insert comp x l).
Proof.
  intros Px. induction l as [|y l IH]; intros HP HR Hs.
  { repeat constructor. }
  apply Forall_cons in HP as [Py HP]. apply Forall_cons in HR as [Rxy HR].
  apply StronglySorted_inv in Hs as [Hs Hy].
  cbn. destruct (comp y x) eqn:Hyx.
  - constructor; [by apply IH|].
    rewrite stable_insert_perm. constructor; [|done].
    split; [by apply (swo_asym P comp)|]. by rewrite Hyx.
  - constructor; [by constructor|].
    constructor; [done|].
    rewrite Forall_forall in Hy, HR, HP. apply Forall_forall.
    intros z Hz. destruct (Hy z Hz) as [Hzy _].
    split; [|by intros; apply HR].
    destruct (comp z x) eqn:Hzx; [|done].
    destruct (swo_negtrans P comp Hswo z y x) as [H|H]; auto; congruence.
Qed.

Lemma stable_sort_sorted (l : list A) :
  Forall P l → StronglySorted R0 l →
  StronglySorted (stable_order comp R0) (stable_sort comp l).
Proof.
  induction l as [|x l IH]; intros HP Hs; [constructor|].
  apply Forall_cons in HP as [Px HP].
  apply StronglySorted_inv in Hs as [Hs Hx].
  cbn. apply stable_insert_sorted; auto.
  - by rewrite stable_sort_perm.
  - by rewrite stable_sort_perm.
Qed.

End StableSort.

Lemma StronglySorted_lookup {A : Type} (R : A → A → Prop) (l : list A) :
  StronglySorted R l →
  ∀ (p q : nat) (x y : A),
    (p < q)%nat → l !! p = Some x → l !! q = Some y → R x y.
Proof.
  induction 1 as [|a l Hs IH Ha]; intros p q x y Hpq Hp Hq; [done|].
  destruct q as [|q]; [lia|]. cbn in Hq.
  destruct p as [|p]; cbn in Hp.
  - injection Hp as <-. rewrite Forall_lookup in Ha. by eapply Ha.
  - eapply (IH p q); [lia|done..].
Qed.

Lemma StronglySorted_seq (i n : nat) : StronglySorted lt (seq i n).
Proof.
  revert i. induction n as [|n IH]; intros i; cbn; constructor; [done|].
  apply Forall_seq. intros; lia.
Qed.

(** The comparison of two indices by their keys is a strict weak order on
    the indices of keys that satisfy [P]. *)
Lemma Ord_swo {V : Type} (P : V → Prop) (ltb : V → V → bool) (order : list V) :
  strict_weak_order_on P ltb →
  strict_weak_order_on (fun i => ∃ k, order !! i = Some k ∧ P k)
    (Ord ltb order).
Proof.
  intros H. split; unfold Ord.
  - intros i (k & -> & Pk). by apply H.
  - intros i j l (ki & -> & Pi) (kj & -> & Pj) (kl & -> & Pl).
    by apply H.
  - intros i j l (ki & -> & Pi) (kj & -> & Pj) (kl & -> & Pl).
    by apply H.
Qed.

Section SortBy.

Context {ev : Evaluator}.

Lemma map_result_Forall2 {A B : Type} (f : A → result B) (l : list A)
  (vs : list B) :
  Forall2 (fun x v => f x = Ok v) l vs → map_result f l = Ok vs.
Proof.
  induction 1 as [|x v l vs Hx _ IH]; [done|].
  cbn. rewrite Hx. cbn. by rewrite IH.
Qed.

Lemma map_result_al_at (al : ArrayLit) (a : list nat) :
  Forall (fun i => (i < length (al_v al))%nat) a →
  ∃ sorted : list Expression,
    map_result (al_at al) a = Ok sorted
    ∧ Forall2 (fun e i => al_v al !! i = Some e) sorted a.
Proof.
  induction 1 as [|i a Hi _ (sorted & Hs & HF)]; [by exists []|].
  destruct (lookup_lt_is_Some_2 _ _ Hi) as [e He].
  exists (e :: sorted). cbn. rewrite (al_at_lookup _ _ _ He). cbn.
  rewrite Hs. split; [done|]. by constructor.
Qed.

Lemma lookups_Permutation {A : Type} (l sorted : list A) (a : list nat) :
  Forall2 (fun e i => l !! i = Some e) sorted a →
  a ≡ₚ seq 0 (length l) → sorted ≡ₚ l.
Proof.
  intros HF.
  assert (Some <$> sorted = (l !!.) <$> a) as Hsorted.
  { induction HF as [|e i sorted a He _ IH]; [done|]. cbn. by rewrite He, IH. }
  intros Ha.
  assert ((l !!.) <$> seq 0 (length l) = Some <$> l) as Hseq.
  { apply list_eq. intros i. rewrite !list_lookup_fmap.
    destruct (decide (i < length l)%nat) as [Hi|Hi].
    - rewrite lookup_seq_lt by done. cbn.
      by destruct (lookup_lt_is_Some_2 _ _ Hi) as [e ->].
    - rewrite lookup_seq_ge by lia. by rewrite lookup_ge_None_2 by lia. }
  assert (Some <$> l ≡ₚ Some <$> sorted) as Hperm.
  { by rewrite Hsorted, Ha, Hseq. }
  apply Permutation_map_inv in Hperm as (l3 & Heq & Hperm).
  apply (inj (fmap Some)) in Heq. by subst l3.
Qed.

Lemma sort_by_sorted_by_keys {V : Type} (P : V → Prop)
  (eval : EnvI → Expression → result V) (ltb : V → V → bool)
  (env : EnvI) (call : Call) (a0 a1 : Expression) (al order_e : ArrayLit)
  (K : list V) :
  strict_weak_order_on P ltb →
  call_args call = [a0; a1] →
  eval_array_lit env a0 = Ok al →
  eval_array_lit env a1 = Ok order_e →
  length (al_v al) = length (al_v order_e) →
  Forall2 (fun e v => eval env e = Ok v) (al_v order_e) K →
  Forall P K →
  sorted_by_keys ltb al K (sort_by eval ltb env call).
Proof.
  intros Hswo Hargs Hal Hord Hlen HK HP. unfold sort_by.
  rewrite Hargs, Hal. cbn [mbind result_bind]. rewrite Hord.
  cbn [mbind result_bind]. rewrite (map_result_Forall2 _ _ _ HK).
  cbn [mbind result_bind].
  rewrite (Forall2_length _ _ _ HK) in Hlen.
  set (a := stable_sort (Ord ltb K) (seq 0 (length K))).
  assert (a ≡ₚ seq 0 (length K)) as Hperm by apply stable_sort_perm.
  destruct (map_result_al_at al a) as (sorted & -> & Hsorted).
  { rewrite Hperm. apply Forall_seq. intros; lia. }
  exists a, sorted. split_and!; [done..| |].
  { apply (lookups_Permutation _ _ a); [done|by rewrite Hlen]. }
  intros p q i j ki kj Hpq Hp Hq Hi Hj.
  assert (StronglySorted (stable_order (Ord ltb K) lt) a) as Hs.
  { apply (stable_sort_sorted (fun i => ∃ k, K !! i = Some k ∧ P k));
      [by apply Ord_swo| |apply StronglySorted_seq].
    apply Forall_seq. intros i' Hi'.
    destruct (lookup_lt_is_Some_2 K i' ltac:(lia)) as [k Hk].
    exists k. split; [done|]. rewrite Forall_lookup in HP. eauto. }
  pose proof (StronglySorted_lookup _ _ Hs p q i j Hpq Hp Hq) as [H1 H2].
  unfold Ord in H1, H2. by rewrite Hi, Hj in H1, H2.
Qed.

(** C7. For a value array and a key array of the same length, [sort_by]
    returns the values in an order that is a permutation of the array, along
    which the keys never decrease, and in which values of equal keys keep the
    order they had in the array (for float keys: when no key is a NaN). *)
Theorem sort_by_stable (env : EnvI) (call : Call) (a0 a1 : Expression)
  (al order_e : ArrayLit) :
  call_args call = [a0; a1] →
  eval_array_lit env a0 = Ok al →
  eval_array_lit env a1 = Ok order_e →
  length (al_v al) = length (al_v order_e) →
  (∀ K : list IntVal,
     Forall2 (fun e v => eval_int env e = Ok v) (al_v order_e) K →
     sorted_by_keys IntVal_.ltb al K (b_sort_by_int env call))
  ∧ (∀ K : list FloatVal,
       Forall2 (fun e v => eval_float env e = Ok v) (al_v order_e) K →
       Forall (fun k => FloatVal_.is_nan k = false) K →
       sorted_by_keys FloatVal_.ltb al K (b_sort_by_float env call)).
Proof.
  intros Hargs Hal Hord Hlen. split.
  - intros K HK.
    eapply (sort_by_sorted_by_keys (fun _ => True));
      eauto using IntVal_ltb_swo. by apply Forall_true.
  - intros K HK Hnan.
    eapply (sort_by_sorted_by_keys (fun k => FloatVal_.is_nan k = false));
      eauto using FloatVal_ltb_swo.
Qed.

End SortBy.

(** [sort_by([10, 20, 30, 40], [2, 1, 2, 1])] is [[20, 40, 10, 30]]. *)
Example sort_by_example :
  b_sort_by_int Literal.env0
    (Literal.call "sort_by"
       [Literal.int_array [10; 20; 30; 40]; Literal.int_array [2; 1; 2; 1]])
  = Ok (Literal.int_array [20; 40; 10; 30]).
Proof. reflexivity. Qed.

Lemma sort_by_stable_witness :
  sorted_by_keys IntVal_.ltb
    (ArrayLit_m.new Literal.int_array_type
       (IntLit ∘ IntFinite <$> [10; 20; 30; 40]))
    (IntFinite <$> [2; 1; 2; 1])
    (b_sort_by_int Literal.env0
       (Literal.call "sort_by"
          [Literal.int_array [10; 20; 30; 40];
           Literal.int_array [2; 1; 2; 1]])).
Proof.
  refine (proj1 (sort_by_stable Literal.env0
                   (Literal.call "sort_by"
                      [Literal.int_array [10; 20; 30; 40];
                       Literal.int_array [2; 1; 2; 1]])
                   (Literal.int_array [10; 20; 30; 40])
                   (Literal.int_array [2; 1; 2; 1])
                   (ArrayLit_m.new Literal.int_array_type
                      (IntLit ∘ IntFinite <$> [10; 20; 30; 40]))
                   (ArrayLit_m.new Literal.int_array_type
                      (IntLit ∘ IntFinite <$> [2; 1; 2; 1]))
                   eq_refl eq_refl eq_refl eq_refl)
            (IntFinite <$> [2; 1; 2; 1]) _).
  repeat constructor.
Defined.

(** ** Fixed expressions *)

Section Fixed.

Context {ev : Evaluator}.

(** More fuel does not change what the loop of [exp_is_fixed] returns. *)
Lemma exp_is_fixed_loop_mono (env : EnvI) (fuel fuel' : nat)
  (cur : option Expression) (r : option Expression) :
  (fuel ≤ fuel')%nat →
  exp_is_fixed_loop fuel env cur = Some r →
  exp_is_fixed_loop fuel' env cur = Some r.
Proof.
  revert fuel' cur. induction fuel as [|fuel IH]; intros fuel' cur Hle; [done|].
  destruct fuel' as [|fuel']; [lia|]. cbn.
  destruct cur as [c|]; [|done].
  destruct (Ty_.ispar (type c)); [done|].
  destruct c; try done.
  - apply IH. lia.
  - destruct (vd_domain vd) as [dom|]; [|apply IH; lia].
    destruct (negb (Ty_.is_set (vd_type vd)) && is_lit_domain dom); [done|].
    apply IH. lia.
Qed.

(** C8. When [is_fixed(e)] returns [false], [fix(e)] throws the [EvalError]
    that the expression is not fixed; when it returns [true], [fix(e)]
    returns the constant that [exp_is_fixed] resolved [e] to. *)
Theorem is_fixed_fix (fuel : nat) (env : EnvI) (call : Call) (b : bool) :
  b_is_fixed fuel env call = Some (Ok b) →
  if b
  then ∃ (a0 c : Expression),
         call_args call = [a0]
         ∧ exp_is_fixed fuel env a0 = Some (Ok (Some c))
         ∧ b_fix fuel env call = Some (Ok c)
  else b_fix fuel env call = Some (Throw (EvalError "expression is not fixed")).
Proof.
  unfold b_is_fixed, b_fix.
  destruct (call_args call) as [|a0 [|a1 rest]]; try done.
  destruct (exp_is_fixed fuel env a0) as [[[c|]|ex]|] eqn:He; cbn; try done.
  - intros [= <-]. by exists a0, c.
  - by intros [= <-].
Qed.

(** C10. On an array that evaluates to the empty array, [is_fixed_array]
    returns [true] whatever the fuel, so without a look at any element, and
    [fix_array] returns the empty array with a parameter type. *)
Theorem fixed_array_of_empty (fuel : nat) (env : EnvI) (call : Call)
  (a0 : Expression) (al : ArrayLit) :
  call_args call = [a0] →
  eval_array_lit env a0 = Ok al →
  al_v al = [] →
  b_is_fixed_array fuel env call = Some (Ok true)
  ∧ ∃ ret : ArrayLit,
      b_fix_array fuel env call = Some (Ok (E_ArrayLit ret))
      ∧ al_v ret = []
      ∧ Ty_.ispar (al_type ret) = true
      ∧ ret = ArrayLit_m.new (Ty_.set_ti (al_type al) TI_PAR) [].
Proof.
  intros Hargs Hal Hempty. unfold b_is_fixed_array, b_fix_array.
  rewrite Hargs, Hal. unfold ArrayLit_m.size. rewrite Hempty. cbn.
  split; [done|]. by eexists.
Qed.

End Fixed.

Example is_fixed_examples :
  b_is_fixed 3 FixedExamples.env (Literal.call "is_fixed" [FixedExamples.x])
  = Some (Ok false)
  ∧ b_is_fixed 3 FixedExamples.env (Literal.call "is_fixed" [FixedExamples.y])
    = Some (Ok true)
  ∧ b_fix 3 FixedExamples.env (Literal.call "fix" [FixedExamples.y])
    = Some (Ok (IntLit (IntFinite 3))).
Proof. split_and!; reflexivity. Qed.

(** The loop of [exp_is_fixed] on a declaration that refers to itself does
    not return, whatever the fuel. *)
Example exp_is_fixed_cycle (fuel : nat) :
  exp_is_fixed fuel FixedExamples.env FixedExamples.z = None.
Proof.
  cbn. enough (∀ c, c = Some FixedExamples.z
                    ∨ c = Id_decl FixedExamples.env (Some 2%nat) →
                    exp_is_fixed_loop fuel FixedExamples.env c = None) as H.
  { rewrite (H (Some FixedExamples.z)); auto. }
  induction fuel as [|fuel IH]; intros c Hc; [done|].
  destruct Hc as [->| ->]; cbn; apply IH; auto.
Qed.

Lemma is_fixed_fix_witness :
  b_fix 3 FixedExamples.env (Literal.call "fix" [FixedExamples.x])
  = Some (Throw (EvalError "expression is not fixed")).
Proof.
  apply (is_fixed_fix 3 FixedExamples.env
           (Literal.call "fix" [FixedExamples.x]) false).
  reflexivity.
Defined.

Lemma fixed_array_of_empty_witness :
  b_is_fixed_array 0 Literal.env0
    (Literal.call "is_fixed" [Literal.int_array []]) = Some (Ok true)
  ∧ ∃ ret : ArrayLit,
      b_fix_array 0 Literal.env0
        (Literal.call "is_fixed" [Literal.int_array []])
      = Some (Ok (E_ArrayLit ret))
      ∧ al_v ret = []
      ∧ Ty_.ispar (al_type ret) = true
      ∧ ret = ArrayLit_m.new (Ty_.set_ti Literal.int_array_type TI_PAR) [].
Proof.
  apply (fixed_array_of_empty 0 Literal.env0 _ (Literal.int_array [])
           (ArrayLit_m.new Literal.int_array_type []));
    reflexivity.
Defined.

(** ** Sampling *)

Section Sampling.

Context {ev : Evaluator} {pr : Printer} {rnd : Random}.

(** C9. When the lower bound of [uniform] is greater than the upper bound,
    the integer and the float builtin throw [EvalError], and the state of
    the random engine is the one before the call. *)
Theorem uniform_bounds_checked (env : EnvI) (call : Call) (a0 a1 : Expression)
  (g : engine) :
  call_args call = [a0; a1] →
  (∀ lb ub : Z,
     eval_int env a0 = Ok (IntFinite lb) →
     eval_int env a1 = Ok (IntFinite ub) →
     lb > ub →
     b_uniform_int env call g
     = (Throw (EvalError (uniform_message (pretty lb) (pretty ub))), g))
  ∧ (∀ lb ub : FloatVal,
       eval_float env a0 = Ok lb →
       eval_float env a1 = Ok ub →
       FloatVal_.ltb ub lb = true →
       b_uniform_float env call g
       = (Throw (EvalError (uniform_message (show_double lb) (show_double ub))),
          g)).
Proof.
  intros Hargs. split.
  - intros lb ub Hlb Hub Hgt. unfold b_uniform_int.
    rewrite Hargs, Hlb, Hub. cbn.
    by destruct (Z.ltb_spec ub lb); [|lia].
  - intros lb ub Hlb Hub Hgt. unfold b_uniform_float.
    by rewrite Hargs, Hlb, Hub, Hgt.
Qed.

(** C3. [discrete_distribution] on a one-dimensional array of [n] integer
    weights returns the index that [std::discrete_distribution] yields as it
    is, counted from 0: a value from 0 to [n-1] (0 when there is no
    weight), with the state of the engine after the draw. *)
Theorem discrete_distribution_zero_based (env : EnvI) (call : Call)
  (a0 : Expression) (al : ArrayLit) (w : list Z) (g : engine) :
  discrete_distribution_range →
  call_args call = [a0] →
  eval_array_lit env a0 = Ok al →
  ArrayLit_m.dims al = 1%nat →
  Forall2 (fun e v => eval_int env e = Ok (IntFinite v)) (al_v al) w →
  b_discrete_distribution env call g
  = (Ok (IntFinite (discrete_distribution w g).1), (discrete_distribution w g).2)
  ∧ 0 ≤ (discrete_distribution w g).1 < Z.max 1 (Z.of_nat (length w)).
Proof.
  intros Hrange Hargs Hal Hdims Hw. split; [|apply Hrange].
  unfold b_discrete_distribution. rewrite Hargs, Hal, Hdims. cbn [Nat.eqb negb].
  rewrite (map_result_Forall2 _ _ w).
  - by destruct (discrete_distribution w g).
  - eapply Forall2_impl; [done|]. cbn. by intros e v ->.
Qed.

End Sampling.

(** The sampler of the instance [Literal.random] yields an index of its
    weights. *)
Lemma pick_range (w : list Z) (u : Z) :
  0 ≤ Literal.pick w u < Z.max 1 (Z.of_nat (length w)).
Proof.
  revert u. induction w as [|x w IH]; intros u; [cbn; lia|].
  cbn [Literal.pick]. destruct (u <? x); [cbn [length]; lia|].
  destruct w as [|y w]; [cbn; lia|].
  specialize (IH (u - x)). cbn [length] in *. lia.
Qed.

Lemma Literal_random_range : @discrete_distribution_range Literal.random.
Proof. intros w g. apply pick_range. Qed.

Lemma uniform_bounds_checked_witness :
  b_uniform_int Literal.env0
    (Literal.call "uniform" [IntLit (IntFinite 5); IntLit (IntFinite 1)])
    Literal.seed
  = (Throw (EvalError (uniform_message "5" "1")), Literal.seed).
Proof.
  apply (proj1 (uniform_bounds_checked Literal.env0
                  (Literal.call "uniform"
                     [IntLit (IntFinite 5); IntLit (IntFinite 1)])
                  (IntLit (IntFinite 5)) (IntLit (IntFinite 1)) Literal.seed
                  eq_refl)
           5 1); [reflexivity..|lia].
Defined.

Lemma discrete_distribution_zero_based_witness :
  b_discrete_distribution Literal.env0
    (Literal.call "discrete_distribution" [Literal.int_array [1; 2; 3]])
    Literal.seed
  = (Ok (IntFinite 1), 16807)
  ∧ 0 ≤ 1 < 3.
Proof.
  apply (discrete_distribution_zero_based Literal.env0
           (Literal.call "discrete_distribution" [Literal.int_array [1; 2; 3]])
           (Literal.int_array [1; 2; 3])
           (ArrayLit_m.new Literal.int_array_type
              (IntLit ∘ IntFinite <$> [1; 2; 3]))
           [1; 2; 3] Literal.seed Literal_random_range);
    [reflexivity..|].
  repeat constructor.
Defined.

(** On the one weight [1] every sampler that yields an index of its weights
    yields 0, which is no position counted from 1. *)
Lemma discrete_distribution_not_one_based :
  ¬ (∀ (rnd : Random) (env : EnvI) (call : Call) (a0 : Expression)
       (al : ArrayLit) (w : list Z) (g : engine),
       discrete_distribution_range →
       call_args call = [a0] →
       eval_array_lit env a0 = Ok al →
       ArrayLit_m.dims al = 1%nat →
       Forall2 (fun e v => eval_int env e = Ok (IntFinite v)) (al_v al) w →
       ∃ v : Z, (b_discrete_distribution env call g).1 = Ok (IntFinite v)
                ∧ 1 ≤ v ≤ Z.of_nat (length w)).
Proof.
  intros H.
  destruct (H Literal.random Literal.env0
              (Literal.call "discrete_distribution" [Literal.int_array [1]])
              (Literal.int_array [1])
              (ArrayLit_m.new Literal.int_array_type [IntLit (IntFinite 1)])
              [1] Literal.seed Literal_random_range eq_refl eq_refl eq_refl
              ltac:(repeat constructor)) as (v & Hv & Hle).
  vm_compute in Hv. injection Hv as <-. cbn in Hle. lia.
Qed.

(** ** JSON output *)

Section ShowJSON.

Context {ev : Evaluator} {pr : Printer}.

(** C4. [showJSON] of the array [[|1, 2|3, 4|]] is the text
    [[[1, 2], [3, 4]]], with a comma and a space between elements: the table
    of strides is [[2]], an inner bracket opens before the elements 0 and 2 of
    the row-major sequence and closes after the elements 1 and 3. *)
Theorem show_json_2x2 (env : EnvI) (call : Call) (a0 : Expression)
  (rest : list Expression) :
  call_args call = a0 :: rest →
  eval_par env a0 = Ok (Some (E_ArrayLit array_2x2)) →
  (∀ z : Z, print (IntLit (IntFinite z)) = pretty z) →
  b_show_json env call = Ok "[[1, 2], [3, 4]]"
  ∧ json_dims array_2x2 = [2]
  ∧ imap (json_element array_2x2 [2]) (al_v array_2x2)
    = ["[1, "; "2], "; "[3, "; "4]"].
Proof.
  intros Hargs Hpar Hprint. unfold b_show_json.
  rewrite Hargs, Hpar. cbn. unfold json_element, b_show_json_basic.
  rewrite !Hprint. split_and!; reflexivity.
Qed.

End ShowJSON.

Lemma show_json_2x2_witness :
  b_show_json Literal.env0 (Literal.call "showJSON" [E_ArrayLit array_2x2])
  = Ok "[[1, 2], [3, 4]]"
  ∧ json_dims array_2x2 = [2]
  ∧ imap (json_element array_2x2 [2]) (al_v array_2x2)
    = ["[1, "; "2], "; "[3, "; "4]"].
Proof.
  apply (show_json_2x2 Literal.env0
           (Literal.call "showJSON" [E_ArrayLit array_2x2])
           (E_ArrayLit array_2x2) []); [reflexivity..|].
  intros z. reflexivity.
Defined.

(** The text has a space after every comma between elements. *)
Lemma show_json_2x2_not_compact :
  b_show_json Literal.env0 (Literal.call "showJSON" [E_ArrayLit array_2x2])
  ≠ Ok "[[1,2],[3,4]]".
Proof. vm_compute. discriminate. Qed.

(** * Further properties of the builtins *)

(** ** Minimum and maximum of an array that is not empty *)

Section MinMax.

Context {ev : Evaluator} {V : Type} (P : V → Prop) (better : V → V → bool).
Hypothesis Hswo : strict_weak_order_on P better.

(** The loop that keeps the better of the candidate and the next value ends
    with a value of the array that no value of the array is better than. *)
Lemma best_fold (vs : list V) :
  ∀ (i0 : nat) (m0 : V),
    P m0 → Forall P vs →
    ∃ r : V,
      fold_values (fun _ m x => Ok (if better x m then x else m)) i0 vs m0
      = Ok r
      ∧ r ∈ m0 :: vs
      ∧ ∀ x, x ∈ m0 :: vs → better x r = false.
Proof.
  induction vs as [|x vs IH]; intros i0 m0 Pm0 HP.
  { exists m0. split_and!; [done|by left|].
    intros x ->%list_elem_of_singleton. by apply Hswo. }
  apply Forall_cons in HP as [Px HP]. cbn [fold_values mbind result_bind].
  set (m1 := if better x m0 then x else m0).
  assert (P m1) as Pm1 by (unfold m1; by destruct (better x m0)).
  destruct (IH (S i0) m1 Pm1 HP) as (r & -> & Hr & Hbest).
  assert (P r) as Pr.
  { apply elem_of_cons in Hr as [->|Hr]; [done|].
    rewrite Forall_forall in HP. by apply HP. }
  exists r. split_and!; [done| |].
  - apply elem_of_cons in Hr as [->|Hr].
    + unfold m1. destruct (better x m0); [right; left|left].
    + by do 2 right.
  - pose proof (Hbest m1 ltac:(left)) as Hm1.
    intros y [->|[->|Hy]%elem_of_cons]%elem_of_cons.
    + unfold m1 in Hm1. destruct (better x m0) eqn:Hx; [|done].
      destruct (better m0 r) eqn:Hm0; [|done].
      by rewrite (swo_trans P better Hswo x m0 r) in Hm1.
    + unfold m1 in Hm1. destruct (better x m0) eqn:Hx; [done|].
      destruct (better x r) eqn:Hxr; [|done].
      destruct (swo_negtrans P better Hswo x m0 r) as [H|H]; auto; congruence.
    + apply Hbest. by right.
Qed.

End MinMax.

Section MinMaxBuiltins.

Context {ev : Evaluator}.

(** X1. On one argument that is an array, not a set, and is not empty,
    integer [min] returns an element of the array that no element is less
    than, and integer [max] an element that no element is greater than. *)
Theorem int_min_max_of_array (env : EnvI) (call : Call) (a0 : Expression)
  (al : ArrayLit) (A : list IntVal) :
  call_args call = [a0] →
  Ty_.is_set (type a0) = false →
  eval_array_lit env a0 = Ok al →
  Forall2 (fun e v => eval_int env e = Ok v) (al_v al) A →
  A ≠ [] →
  (∃ m : IntVal, b_int_min env call = Ok m
                 ∧ m ∈ A ∧ ∀ x, x ∈ A → IntVal_.ltb x m = false)
  ∧ (∃ m : IntVal, b_int_max env call = Ok m
                   ∧ m ∈ A ∧ ∀ x, x ∈ A → IntVal_.ltb m x = false).
Proof.
  intros Hargs Hset Hal HA Hne. unfold b_int_min, b_int_max.
  rewrite Hargs, Hset, Hal. cbn [mbind result_bind].
  destruct A as [|v0 A]; [done|].
  destruct (al_v al) as [|e0 es] eqn:Heq; [by apply Forall2_nil_cons_inv in HA|].
  unfold ArrayLit_m.size. rewrite Heq. cbn [length Nat.eqb].
  rewrite (al_at_lookup al 0 e0) by (by rewrite Heq).
  pose proof (Forall2_cons_1 _ _ _ _ _ HA) as [He0 _].
  cbn [mbind result_bind]. rewrite He0. cbn [mbind result_bind].
  rewrite <- Heq in HA.
  pose proof (for_range_values eval_int (fun _ m x => Ok (IntVal_.min m x))
                env al (v0 :: A) 1 v0 HA ltac:(cbn; lia)) as Hmin.
  pose proof (for_range_values eval_int (fun _ m x => Ok (IntVal_.max m x))
                env al (v0 :: A) 1 v0 HA ltac:(cbn; lia)) as Hmax.
  unfold ArrayLit_m.size in Hmin, Hmax. rewrite Heq in Hmin, Hmax.
  cbn [length drop] in Hmin, Hmax. rewrite Hmin, Hmax.
  split.
  - destruct (best_fold (fun _ => True) IntVal_.ltb IntVal_ltb_swo A 1%nat v0 I
                ltac:(by apply Forall_true)) as (r & Hr & Hin & Hbest).
    exists r. split; [exact Hr|done].
  - destruct (best_fold (fun _ => True) (flip IntVal_.ltb)
                (swo_flip _ _ IntVal_ltb_swo) A 1%nat v0 I
                ltac:(by apply Forall_true)) as (r & Hr & Hin & Hbest).
    exists r. split; [exact Hr|done].
Qed.

(** X2. The same for floats, when no element is a NaN. *)
Theorem float_min_max_of_array (env : EnvI) (call : Call) (a0 : Expression)
  (al : ArrayLit) (A : list FloatVal) :
  call_args call = [a0] →
  Ty_.is_set (type a0) = false →
  eval_array_lit env a0 = Ok al →
  Forall2 (fun e v => eval_float env e = Ok v) (al_v al) A →
  Forall (fun x => FloatVal_.is_nan x = false) A →
  A ≠ [] →
  (∃ m : FloatVal, b_float_min env call = Ok m
                   ∧ m ∈ A ∧ ∀ x, x ∈ A → FloatVal_.ltb x m = false)
  ∧ (∃ m : FloatVal, b_float_max env call = Ok m
                     ∧ m ∈ A ∧ ∀ x, x ∈ A → FloatVal_.ltb m x = false).
Proof.
  intros Hargs Hset Hal HA Hnan Hne. unfold b_float_min, b_float_max.
  rewrite Hargs, Hset, Hal. cbn [mbind result_bind].
  destruct A as [|v0 A]; [done|].
  destruct (al_v al) as [|e0 es] eqn:Heq; [by apply Forall2_nil_cons_inv in HA|].
  unfold ArrayLit_m.size. rewrite Heq. cbn [length Nat.eqb].
  rewrite (al_at_lookup al 0 e0) by (by rewrite Heq).
  pose proof (Forall2_cons_1 _ _ _ _ _ HA) as [He0 _].
  cbn [mbind result_bind]. rewrite He0. cbn [mbind result_bind].
  rewrite <- Heq in HA.
  pose proof (for_range_values eval_float (fun _ m x => Ok (FloatVal_.min m x))
                env al (v0 :: A) 1 v0 HA ltac:(cbn; lia)) as Hmin.
  pose proof (for_range_values eval_float (fun _ m x => Ok (FloatVal_.max m x))
                env al (v0 :: A) 1 v0 HA ltac:(cbn; lia)) as Hmax.
  unfold ArrayLit_m.size in Hmin, Hmax. rewrite Heq in Hmin, Hmax.
  cbn [length drop] in Hmin, Hmax. rewrite Hmin, Hmax.
  apply Forall_cons in Hnan as [Hv0 Hnan].
  split.
  - destruct (best_fold _ FloatVal_.ltb FloatVal_ltb_swo A 1%nat v0 Hv0 Hnan)
      as (r & Hr & Hin & Hbest).
    exists r. split; [exact Hr|done].
  - destruct (best_fold _ (flip FloatVal_.ltb) (swo_flip _ _ FloatVal_ltb_swo)
                A 1%nat v0 Hv0 Hnan) as (r & Hr & Hin & Hbest).
    exists r. split; [exact Hr|done].
Qed.

End MinMaxBuiltins.

Lemma int_min_max_of_array_witness :
  (∃ m : IntVal,
     b_int_min Literal.env0 (Literal.call "min" [Literal.int_array [3; 1; 2]])
     = Ok m
     ∧ m ∈ IntFinite <$> [3; 1; 2]
     ∧ ∀ x, x ∈ IntFinite <$> [3; 1; 2] → IntVal_.ltb x m = false)
  ∧ (∃ m : IntVal,
       b_int_max Literal.env0 (Literal.call "min" [Literal.int_array [3; 1; 2]])
       = Ok m
       ∧ m ∈ IntFinite <$> [3; 1; 2]
       ∧ ∀ x, x ∈ IntFinite <$> [3; 1; 2] → IntVal_.ltb m x = false).
Proof.
  apply (int_min_max_of_array Literal.env0
           (Literal.call "min" [Literal.int_array [3; 1; 2]])
           (Literal.int_array [3; 1; 2])
           (ArrayLit_m.new Literal.int_array_type
              (IntLit ∘ IntFinite <$> [3; 1; 2])));
    [reflexivity..| |discriminate].
  repeat constructor.
Defined.

Lemma float_min_max_of_array_witness :
  (∃ m : FloatVal,
     b_float_min Literal.env0
       (Literal.call "min"
          [Literal.float_array [S754_zero false; S754_infinity true]])
     = Ok m
     ∧ m ∈ [S754_zero false; S754_infinity true]
     ∧ ∀ x, x ∈ [S754_zero false; S754_infinity true] →
            FloatVal_.ltb x m = false)
  ∧ (∃ m : FloatVal,
       b_float_max Literal.env0
         (Literal.call "min"
            [Literal.float_array [S754_zero false; S754_infinity true]])
       = Ok m
       ∧ m ∈ [S754_zero false; S754_infinity true]
       ∧ ∀ x, x ∈ [S754_zero false; S754_infinity true] →
              FloatVal_.ltb m x = false).
Proof.
  apply (float_min_max_of_array Literal.env0
           (Literal.call "min"
              [Literal.float_array [S754_zero false; S754_infinity true]])
           (Literal.float_array [S754_zero false; S754_infinity true])
           (ArrayLit_m.new Literal.float_array_type
              (FloatLit <$> [S754_zero false; S754_infinity true])));
    [reflexivity..| | |discriminate]; repeat constructor.
Defined.

(** ** Fixed expressions and arrays of them *)

Section FixedMore.

Context {ev : Evaluator}.

Lemma exp_is_fixed_loop_par (fuel : nat) (env : EnvI)
  (cur : option Expression) (c : Expression) :
  exp_is_fixed_loop fuel env cur = Some (Some c) → Ty_.ispar (type c) = true.
Proof.
  revert cur. induction fuel as [|fuel IH]; intros cur; [done|]. cbn.
  destruct cur as [c0|]; [|done].
  destruct (Ty_.ispar (type c0)) eqn:Hpar; [by intros [= <-]|].
  destruct c0; try done.
  - apply IH.
  - destruct (vd_domain vd) as [dom|]; [|apply IH].
    destruct (negb (Ty_.is_set (vd_type vd)) && is_lit_domain dom) eqn:Hdom;
      [|apply IH].
    intros [= <-]. apply andb_prop in Hdom as [_ Hlit]. by destruct dom.
Qed.

(** X3. Whatever [exp_is_fixed] resolves an expression to is a parameter: an
    expression of a parameter type, or the literal that is the domain of a
    declaration. So [fix] never returns a variable. *)
Theorem fix_returns_par (fuel : nat) (env : EnvI) (call : Call)
  (c : Expression) :
  b_fix fuel env call = Some (Ok c) → Ty_.ispar (type c) = true.
Proof.
  unfold b_fix. destruct (call_args call) as [|a0 [|a1 rest]]; try done.
  unfold exp_is_fixed. destruct (eval_par env a0) as [cur|ex]; [|done].
  destruct (exp_is_fixed_loop fuel env cur) as [[c0|]|] eqn:Hloop; cbn; try done.
  intros [= <-]. by eapply exp_is_fixed_loop_par.
Qed.

Lemma fixed_array_loops (fuel : nat) (env : EnvI) (l : list Expression)
  (b : bool) :
  is_fixed_array_loop fuel env l = Some (Ok b) →
  if b
  then ∃ cs : list Expression,
         fix_array_loop fuel env l = Some (Ok cs)
         ∧ Forall2 (fun e c => exp_is_fixed fuel env e = Some (Ok (Some c))) l cs
  else fix_array_loop fuel env l
       = Some (Throw (EvalError "expression is not fixed")).
Proof.
  induction l as [|e l IH]; cbn.
  { intros [= <-]. by exists []. }
  destruct (exp_is_fixed fuel env e) as [[[c|]|ex]|] eqn:He; cbn; try done.
  - intros H. specialize (IH H). destruct b.
    + destruct IH as (cs & -> & HF). exists (c :: cs). split; [done|].
      by constructor.
    + by rewrite IH.
  - by intros [= <-].
Qed.

(** X4. [is_fixed_array] and [fix_array] agree: when [is_fixed_array]
    returns [true], [fix_array] returns the one-dimensional parameter array
    of what [exp_is_fixed] resolves each element to, in the order of the
    elements; when it returns [false], [fix_array] throws the [EvalError]
    that an expression is not fixed. *)
Theorem is_fixed_array_fix_array (fuel : nat) (env : EnvI) (call : Call)
  (b : bool) :
  b_is_fixed_array fuel env call = Some (Ok b) →
  ∃ (a0 : Expression) (al : ArrayLit),
    call_args call = [a0] ∧ eval_array_lit env a0 = Ok al
    ∧ if b
      then ∃ cs : list Expression,
             b_fix_array fuel env call
             = Some (Ok (E_ArrayLit
                           (ArrayLit_m.new (Ty_.set_ti (al_type al) TI_PAR) cs)))
             ∧ Forall2
                 (fun e c => exp_is_fixed fuel env e = Some (Ok (Some c)))
                 (al_v al) cs
      else b_fix_array fuel env call
           = Some (Throw (EvalError "expression is not fixed")).
Proof.
  unfold b_is_fixed_array, b_fix_array.
  destruct (call_args call) as [|a0 [|a1 rest]]; try done.
  destruct (eval_array_lit env a0) as [al|ex] eqn:Hal; [|done].
  intros H. exists a0, al. split_and!; [done..|].
  assert (is_fixed_array_loop fuel env (al_v al) = Some (Ok b)) as Hloop.
  { destruct (Nat.eqb_spec (ArrayLit_m.size al) 0) as [H0|H0]; [|done].
    unfold ArrayLit_m.size in H0. apply nil_length_inv in H0. by rewrite H0. }
  apply fixed_array_loops in Hloop. destruct b.
  - destruct Hloop as (cs & -> & HF). by exists cs.
  - by rewrite Hloop.
Qed.

End FixedMore.

Lemma fix_returns_par_witness :
  Ty_.ispar (type (IntLit (IntFinite 3))) = true.
Proof.
  apply (fix_returns_par 3 FixedExamples.env
           (Literal.call "fix" [FixedExamples.y])).
  reflexivity.
Defined.

Lemma is_fixed_array_fix_array_witness :
  ∃ (a0 : Expression) (al : ArrayLit),
    call_args (Literal.call "fix"
                 [E_ArrayLit (ArrayLit_m.new Literal.int_array_type
                                [FixedExamples.y; FixedExamples.x])])
    = [a0]
    ∧ eval_array_lit FixedExamples.env a0 = Ok al
    ∧ b_fix_array 3 FixedExamples.env
        (Literal.call "fix"
           [E_ArrayLit (ArrayLit_m.new Literal.int_array_type
                          [FixedExamples.y; FixedExamples.x])])
      = Some (Throw (EvalError "expression is not fixed")).
Proof.
  apply (is_fixed_array_fix_array 3 FixedExamples.env
           (Literal.call "fix"
              [E_ArrayLit (ArrayLit_m.new Literal.int_array_type
                             [FixedExamples.y; FixedExamples.x])])
           false).
  reflexivity.
Defined.

(** ** Integer power *)

Section PowInt.

Context {ev : Evaluator}.

Lemma for_down_times (p : Z) (n : nat) (r : Z) :
  for_down n (fun _ r => IntVal_.times r (IntFinite p)) (IntFinite r)
  = Ok (IntFinite (r * p ^ Z.of_nat n)).
Proof.
  revert r. induction n as [|n IH]; intros r.
  { cbn. by rewrite Z.mul_1_r. }
  cbn [for_down IntVal_.times mbind result_bind]. rewrite IH.
  do 2 f_equal. rewrite Nat2Z.inj_succ, Z.pow_succ_r by lia. lia.
Qed.

(** X5. [pow] of the integers [p] and [e] is [p] to the power [e] when [e]
    is not negative (1 for [e = 0]), and the [EvalError] that an integer
    cannot be raised to a negative power otherwise. *)
Theorem pow_int_power (env : EnvI) (call : Call) (a0 a1 : Expression)
  (rest : list Expression) (p e : Z) :
  call_args call = a0 :: a1 :: rest →
  eval_int env a0 = Ok (IntFinite p) →
  eval_int env a1 = Ok (IntFinite e) →
  b_pow_int env call
  = if e <? 0
    then Throw (EvalError "Cannot raise integer to a negative power")
    else Ok (IntFinite (p ^ e)).
Proof.
  intros Hargs Hp He. unfold b_pow_int. rewrite Hargs, Hp, He.
  cbn [mbind result_bind IntVal_.toInt].
  destruct (Z.ltb_spec e 0) as [Hneg|Hnn]; [done|].
  rewrite for_down_times. by rewrite Z2Nat.id, Z.mul_1_l.
Qed.

End PowInt.

Lemma pow_int_power_witness :
  b_pow_int Literal.env0
    (Literal.call "pow" [LiteralExt.int 3; LiteralExt.int 4])
  = Ok (IntFinite 81).
Proof.
  apply (pow_int_power Literal.env0
           (Literal.call "pow" [LiteralExt.int 3; LiteralExt.int 4])
           (LiteralExt.int 3) (LiteralExt.int 4) [] 3 4);
    reflexivity.
Defined.

(** ** Boolean reductions *)

Section BoolReductions.

Context {ev : Evaluator} {ex : EvaluatorExt}.

Lemma any_down_values (env : EnvI) (al : ArrayLit) (f : bool → bool)
  (bs : list bool) :
  Forall2 (fun e v => eval_bool env e = Ok v) (al_v al) bs →
  ∀ n : nat,
    (n ≤ length bs)%nat →
    any_down n (fun i => ei ← al_at al i; b ← eval_bool env ei; Ok (f b))
    = Ok (existsb f (take n bs)).
Proof.
  intros Hbs n. induction n as [|n IH]; intros Hn; [done|].
  destruct (lookup_lt_is_Some_2 bs n ltac:(lia)) as [b Hb].
  destruct (Forall2_lookup_r _ _ _ _ _ Hbs Hb) as (e & He & Hev).
  cbn [any_down]. rewrite (al_at_lookup _ _ _ He). cbn [mbind result_bind].
  rewrite Hev. cbn [mbind result_bind].
  rewrite (take_S_r _ _ _ Hb), existsb_app. cbn [existsb].
  rewrite orb_false_r.
  destruct (f b); [by rewrite orb_true_r|].
  rewrite orb_false_r. apply IH. lia.
Qed.

Lemma any_down_eta (env : EnvI) (al : ArrayLit) (n : nat) :
  any_down n (fun i => ei ← al_at al i; eval_bool env ei)
  = any_down n (fun i => ei ← al_at al i; b ← eval_bool env ei; Ok (id b)).
Proof.
  induction n as [|n IH]; [done|]. cbn [any_down].
  destruct (al_at al n) as [e|err]; [|done]. cbn [mbind result_bind].
  destruct (eval_bool env e) as [b|err]; [|done]. cbn [mbind result_bind id].
  by rewrite IH.
Qed.

(** X6. When every element of the array evaluates to a Boolean, [forall]
    is the conjunction and [exists] the disjunction of the elements. *)
Theorem forall_exists_par_values (env : EnvI) (call : Call) (a0 : Expression)
  (al : ArrayLit) (bs : list bool) :
  call_args call = [a0] →
  eval_array_lit env a0 = Ok al →
  Forall2 (fun e v => eval_bool env e = Ok v) (al_v al) bs →
  b_forall_par env call = Ok (forallb id bs)
  ∧ b_exists_par env call = Ok (existsb id bs).
Proof.
  intros Hargs Hal Hbs. unfold b_forall_par, b_exists_par.
  rewrite Hargs, Hal. cbn [mbind result_bind].
  pose proof (Forall2_length _ _ _ Hbs) as Hlen.
  unfold ArrayLit_m.size. rewrite any_down_eta.
  rewrite !(any_down_values env al _ bs Hbs) by lia.
  rewrite Hlen, take_ge by lia. cbn [mbind result_bind]. split; [|done].
  f_equal. clear. induction bs as [|[] bs IH]; cbn; [done| |done].
  by rewrite <- IH.
Qed.

Lemma any_down_short (n k : nat) (test : nat → result bool) :
  (k < n)%nat →
  test k = Ok true →
  (∀ i, (k < i < n)%nat → test i = Ok false) →
  any_down n test = Ok true.
Proof.
  intros Hk Htrue Hfalse. induction n as [|n IH]; [lia|].
  cbn [any_down]. destruct (decide (k = n)) as [->|Hne].
  - by rewrite Htrue.
  - rewrite (Hfalse n) by lia. cbn [mbind result_bind].
    apply IH; [lia|]. intros i Hi. apply Hfalse. lia.
Qed.

(** X7. [exists] and [forall] look at the elements from the last to the
    first and stop at the first element that decides: when an element is
    true and every element after it is false, [exists] is true, and when an
    element is false and every element after it is true, [forall] is false,
    whatever the elements before it are (they are not evaluated). *)
Theorem forall_exists_par_from_the_back (env : EnvI) (call : Call)
  (a0 : Expression) (al : ArrayLit) (pre post : list Expression)
  (e : Expression) (b : bool) :
  call_args call = [a0] →
  eval_array_lit env a0 = Ok al →
  al_v al = pre ++ e :: post →
  eval_bool env e = Ok b →
  Forall (fun x => eval_bool env x = Ok (negb b)) post →
  if b then b_exists_par env call = Ok true
  else b_forall_par env call = Ok false.
Proof.
  intros Hargs Hal Hv He Hpost. unfold b_exists_par, b_forall_par.
  rewrite Hargs, Hal. cbn [mbind result_bind].
  assert (al_v al !! length pre = Some e) as Hk.
  { rewrite Hv. by apply list_lookup_middle. }
  assert (∀ i, (length pre < i < ArrayLit_m.size al)%nat →
               ∃ x, al_v al !! i = Some x ∧ eval_bool env x = Ok (negb b))
    as Hafter.
  { intros i [Hi1 Hi2]. unfold ArrayLit_m.size in Hi2.
    destruct (lookup_lt_is_Some_2 _ _ Hi2) as [x Hx]. exists x.
    split; [done|]. rewrite Hv in Hx.
    rewrite lookup_app_r in Hx by lia.
    destruct (i - length pre)%nat as [|m] eqn:Hm; [lia|]. cbn in Hx.
    rewrite Forall_lookup in Hpost. by eapply Hpost. }
  assert (length pre < ArrayLit_m.size al)%nat as Hlt.
  { by apply lookup_lt_Some in Hk. }
  destruct b.
  - apply (any_down_short _ (length pre)); [done| |].
    + by rewrite (al_at_lookup _ _ _ Hk).
    + intros i Hi. destruct (Hafter i Hi) as (x & Hx & Hxv).
      by rewrite (al_at_lookup _ _ _ Hx).
  - rewrite (any_down_short _ (length pre)); [done|done| |].
    + rewrite (al_at_lookup _ _ _ Hk). cbn [mbind result_bind].
      by rewrite He.
    + intros i Hi. destruct (Hafter i Hi) as (x & Hx & Hxv).
      rewrite (al_at_lookup _ _ _ Hx). cbn [mbind result_bind].
      by rewrite Hxv.
Qed.

(** X8. [clause(pos, neg)] is [exists(pos)] or not [forall(neg)]: when
    these two return, [clause] returns their combination. *)
Theorem clause_par_exists_forall (env : EnvI) (call c0 c1 : Call)
  (a0 a1 : Expression) (x y : bool) :
  call_args call = [a0; a1] →
  call_args c0 = [a0] →
  call_args c1 = [a1] →
  b_exists_par env c0 = Ok x →
  b_forall_par env c1 = Ok y →
  b_clause_par env call = Ok (x || negb y).
Proof.
  intros Hargs H0 H1. unfold b_exists_par, b_forall_par, b_clause_par.
  rewrite Hargs, H0, H1.
  destruct (eval_array_lit env a0) as [al0|err]; [|done].
  cbn [mbind result_bind]. intros ->. cbn [mbind result_bind].
  destruct x; [done|].
  destruct (eval_array_lit env a1) as [al1|err]; [|done].
  cbn [mbind result_bind].
  destruct (any_down _ _) as [r|err]; [|done].
  cbn [mbind result_bind]. intros [= <-]. by rewrite negb_involutive.
Qed.

Lemma for_down_count_nonneg (env : EnvI) (al : ArrayLit) (n : nat) (c0 c : Z) :
  0 ≤ c0 →
  for_down n
    (fun i (count : Z) =>
       ei ← al_at al i;
       eval_bool env ei ≫= fun b : bool => Ok (count + (if b then 1 else 0)))
    c0 = Ok c →
  0 ≤ c.
Proof.
  revert c0. induction n as [|n IH]; intros c0 Hc0; cbn [for_down].
  { by intros [= <-]. }
  destruct (al_at al n) as [e|err]; [|done]. cbn [mbind result_bind].
  destruct (eval_bool env e) as [b|err]; [|done]. cbn [mbind result_bind].
  apply IH. destruct b; lia.
Qed.

(** X9. [iffall] is the negation of [xorall] on every call: they return
    opposite Booleans or throw the same exception (for a wrong number of
    arguments both name [xorall]). *)
Theorem iffall_par_not_xorall_par (env : EnvI) (call : Call) :
  b_iffall_par env call = (b ← b_xorall_par env call; Ok (negb b)).
Proof.
  unfold b_iffall_par, b_xorall_par.
  destruct (call_args call) as [|a0 [|a1 rest]]; try done.
  destruct (eval_array_lit env a0) as [al|err]; [|done].
  cbn [mbind result_bind].
  destruct (count_true env al) as [c|err] eqn:Hc; [|done].
  cbn [mbind result_bind]. f_equal.
  apply for_down_count_nonneg in Hc; [|done].
  pose proof (Z.rem_bound_pos c 2 Hc ltac:(lia)).
  destruct (Z.eqb_spec (Z.rem c 2) 0), (Z.eqb_spec (Z.rem c 2) 1);
    cbn; try done; lia.
Qed.

Lemma count_true_values (env : EnvI) (al : ArrayLit) (bs : list bool) :
  Forall2 (fun e v => eval_bool env e = Ok v) (al_v al) bs →
  ∀ (n : nat) (c0 : Z),
    (n ≤ length bs)%nat →
    for_down n
      (fun i (count : Z) =>
         ei ← al_at al i;
         eval_bool env ei ≫= fun b : bool => Ok (count + (if b then 1 else 0)))
      c0
    = Ok (c0 + Z.of_nat (length (filter (fun b => b = true) (take n bs)))).
Proof.
  intros Hbs n. induction n as [|n IH]; intros c0 Hn.
  { cbn [for_down]. rewrite take_0, filter_nil. f_equal. cbn [length]. lia. }
  destruct (lookup_lt_is_Some_2 bs n ltac:(lia)) as [b Hb].
  destruct (Forall2_lookup_r _ _ _ _ _ Hbs Hb) as (e & He & Hev).
  cbn [for_down]. rewrite (al_at_lookup _ _ _ He). cbn [mbind result_bind].
  rewrite Hev. cbn [mbind result_bind]. rewrite IH by lia.
  rewrite (take_S_r _ _ _ Hb), filter_app, length_app. f_equal.
  destruct b;
    [rewrite filter_cons_True by done|rewrite filter_cons_False by done];
    rewrite filter_nil; cbn [length]; lia.
Qed.

Lemma parity_of_trues (bs : list bool) :
  (Z.rem (Z.of_nat (length (filter (fun b => b = true) bs))) 2 =? 1)
  = foldr xorb false bs.
Proof.
  induction bs as [|b bs IH]; [done|]. cbn [foldr]. rewrite <- IH.
  destruct b.
  - rewrite filter_cons_True by done. cbn [length].
    rewrite Nat2Z.inj_succ, !Z.rem_mod_nonneg by lia.
    set (k := Z.of_nat _). assert (0 ≤ k) by lia.
    clearbody k.
    destruct (Z.eqb_spec (Z.succ k mod 2) 1), (Z.eqb_spec (k mod 2) 1);
      cbn; try done; Z.div_mod_to_equations; lia.
  - by rewrite filter_cons_False by done.
Qed.

(** X10. When every element evaluates to a Boolean, [xorall] is the
    exclusive or of the elements: it says whether the number of elements
    that are true is odd. *)
Theorem xorall_par_parity (env : EnvI) (call : Call) (a0 : Expression)
  (al : ArrayLit) (bs : list bool) :
  call_args call = [a0] →
  eval_array_lit env a0 = Ok al →
  Forall2 (fun e v => eval_bool env e = Ok v) (al_v al) bs →
  b_xorall_par env call = Ok (foldr xorb false bs).
Proof.
  intros Hargs Hal Hbs. unfold b_xorall_par, count_true. rewrite Hargs, Hal.
  cbn [mbind result_bind].
  pose proof (Forall2_length _ _ _ Hbs) as Hlen. unfold ArrayLit_m.size.
  rewrite (count_true_values env al bs Hbs) by lia.
  rewrite Hlen, take_ge by lia. cbn [mbind result_bind].
  by rewrite Z.add_0_l, parity_of_trues.
Qed.

End BoolReductions.

Lemma forall_exists_par_values_witness :
  b_forall_par Literal.env0
    (Literal.call "forall" [LiteralExt.bool_array [true; false; true]])
  = Ok false
  ∧ b_exists_par Literal.env0
      (Literal.call "forall" [LiteralExt.bool_array [true; false; true]])
    = Ok true.
Proof.
  apply (forall_exists_par_values Literal.env0
           (Literal.call "forall" [LiteralExt.bool_array [true; false; true]])
           (LiteralExt.bool_array [true; false; true])
           (ArrayLit_m.new Literal.int_array_type
              (BoolLit <$> [true; false; true]))
           [true; false; true]); [reflexivity..|].
  repeat constructor.
Defined.

(** The first element is no Boolean, and is not looked at. *)
Lemma forall_exists_par_from_the_back_witness :
  b_exists_par Literal.env0
    (Literal.call "exists"
       [E_ArrayLit (ArrayLit_m.new Literal.int_array_type
                      [LiteralExt.int 7; BoolLit true; BoolLit false])])
  = Ok true.
Proof.
  apply (forall_exists_par_from_the_back Literal.env0
           (Literal.call "exists"
              [E_ArrayLit (ArrayLit_m.new Literal.int_array_type
                             [LiteralExt.int 7; BoolLit true; BoolLit false])])
           (E_ArrayLit (ArrayLit_m.new Literal.int_array_type
                          [LiteralExt.int 7; BoolLit true; BoolLit false]))
           (ArrayLit_m.new Literal.int_array_type
              [LiteralExt.int 7; BoolLit true; BoolLit false])
           [LiteralExt.int 7] [BoolLit false] (BoolLit true) true);
    [reflexivity..|].
  repeat constructor.
Defined.

Lemma clause_par_exists_forall_witness :
  b_clause_par Literal.env0
    (Literal.call "clause"
       [LiteralExt.bool_array [false]; LiteralExt.bool_array [true; false]])
  = Ok (false || negb false).
Proof.
  apply (clause_par_exists_forall Literal.env0
           (Literal.call "clause"
              [LiteralExt.bool_array [false];
               LiteralExt.bool_array [true; false]])
           (Literal.call "exists" [LiteralExt.bool_array [false]])
           (Literal.call "forall" [LiteralExt.bool_array [true; false]])
           (LiteralExt.bool_array [false])
           (LiteralExt.bool_array [true; false]));
    reflexivity.
Defined.

Lemma xorall_par_parity_witness :
  b_xorall_par Literal.env0
    (Literal.call "xorall" [LiteralExt.bool_array [true; false; true; true]])
  = Ok true.
Proof.
  apply (xorall_par_parity Literal.env0
           (Literal.call "xorall"
              [LiteralExt.bool_array [true; false; true; true]])
           (LiteralExt.bool_array [true; false; true; true])
           (ArrayLit_m.new Literal.int_array_type
              (BoolLit <$> [true; false; true; true]))
           [true; false; true; true]); [reflexivity..|].
  repeat constructor.
Defined.

(** ** Optional values *)

Section Deopt.

Context {ev : Evaluator} {ex : EvaluatorExt}.

(** X11. [occurs] and [deopt] agree: when [occurs] returns [false], every
    [deopt] throws the [EvalError] that [deopt] cannot be evaluated on the
    absent value, and when [occurs] returns [true] for an argument that
    [eval_par] evaluates to [e], every [deopt] is its evaluator on [e]. *)
Theorem occurs_deopt (env : EnvI) (call : Call) (b : bool) :
  b_occurs env call = Ok b →
  if b
  then ∀ (a0 : Expression) (rest : list Expression) (e : Expression),
         call_args call = a0 :: rest →
         eval_par env a0 = Ok (Some e) →
         b_deopt_int env call = eval_int env e
         ∧ b_deopt_bool env call = eval_bool env e
         ∧ b_deopt_float env call = eval_float env e
         ∧ b_deopt_intset env call = eval_intset env e
         ∧ b_deopt_string env call = eval_string env e
         ∧ b_deopt_expr env call = Ok e
  else b_deopt_int env call
       = Throw (EvalError "cannot evaluate deopt on absent value")
       ∧ b_deopt_bool env call
         = Throw (EvalError "cannot evaluate deopt on absent value")
       ∧ b_deopt_float env call
         = Throw (EvalError "cannot evaluate deopt on absent value")
       ∧ b_deopt_intset env call
         = Throw (EvalError "cannot evaluate deopt on absent value")
       ∧ b_deopt_string env call
         = Throw (EvalError "cannot evaluate deopt on absent value")
       ∧ b_deopt_expr env call
         = Throw (EvalError "cannot evaluate deopt on absent value").
Proof.
  unfold b_occurs, b_deopt_int, b_deopt_bool, b_deopt_float, b_deopt_intset,
    b_deopt_string, b_deopt_expr, deopt.
  destruct (call_args call) as [|a0 rest]; [done|].
  destruct (eval_par env a0) as [r|err] eqn:Hpar; [|done].
  cbn [mbind result_bind].
  intros [= <-]. destruct (is_absent r) eqn:Habs; cbn [negb].
  - done.
  - intros a0' rest' e [= <- <-] He. rewrite Hpar in He.
    by injection He as ->.
Qed.

End Deopt.

Lemma occurs_deopt_witness :
  b_deopt_int Literal.env0
    (Literal.call "deopt" [Absent (Ty_.par BT_INT)])
  = Throw (EvalError "cannot evaluate deopt on absent value")
  ∧ b_deopt_bool Literal.env0
      (Literal.call "deopt" [Absent (Ty_.par BT_INT)])
    = Throw (EvalError "cannot evaluate deopt on absent value")
  ∧ b_deopt_float Literal.env0
      (Literal.call "deopt" [Absent (Ty_.par BT_INT)])
    = Throw (EvalError "cannot evaluate deopt on absent value")
  ∧ b_deopt_intset Literal.env0
      (Literal.call "deopt" [Absent (Ty_.par BT_INT)])
    = Throw (EvalError "cannot evaluate deopt on absent value")
  ∧ b_deopt_string Literal.env0
      (Literal.call "deopt" [Absent (Ty_.par BT_INT)])
    = Throw (EvalError "cannot evaluate deopt on absent value")
  ∧ b_deopt_expr Literal.env0
      (Literal.call "deopt" [Absent (Ty_.par BT_INT)])
    = Throw (EvalError "cannot evaluate deopt on absent value").
Proof.
  apply (occurs_deopt Literal.env0
           (Literal.call "deopt" [Absent (Ty_.par BT_INT)]) false).
  reflexivity.
Defined.

(** ** Enumerated types *)

Section Enums.

Context {ev : Evaluator} {ex : EvaluatorExt}.

(** X12. [enum_prev] undoes [enum_next] and the other way round, on the
    values of the set: when [to_enum] accepts [v] and [enum_next] of [v]
    returns [w], then [enum_prev] of [w] returns [v]; and when [enum_prev]
    of [v] returns [w], then [enum_next] of [w] returns [v]. *)
Theorem enum_next_prev_inverse (env : EnvI) (c c' c0 : Call)
  (a0 a1 a1' : Expression) (v w : IntVal) :
  call_args c = [a0; a1] →
  call_args c' = [a0; a1'] →
  call_args c0 = [a0; a1] →
  b_to_enum env c0 = Ok v →
  eval_int env a1' = Ok w →
  (b_enum_next env c = Ok w → b_enum_prev env c' = Ok v)
  ∧ (b_enum_prev env c = Ok w → b_enum_next env c' = Ok v).
Proof.
  intros Hc Hc' Hc0. unfold b_to_enum, b_enum_next, b_enum_prev.
  rewrite Hc, Hc', Hc0.
  destruct (eval_intset env a0) as [isv|err]; [|done].
  cbn [mbind result_bind].
  destruct (eval_int env a1) as [v1|err]; [|done]. cbn [mbind result_bind].
  destruct (isv_contains isv v1) eqn:Hv; [|done]. cbn [negb].
  intros [= ->] ->. cbn [mbind result_bind]. split.
  - destruct v as [z| |]; try done. cbn [IntVal_.plus mbind result_bind].
    destruct (isv_contains isv (IntFinite (z + 1))); [|done].
    intros [= <-]. cbn [IntVal_minus mbind result_bind].
    replace (z + 1 - 1) with z by lia. by rewrite Hv.
  - destruct v as [z| |]; try done. cbn [IntVal_minus mbind result_bind].
    destruct (isv_contains isv (IntFinite (z - 1))); [|done].
    intros [= <-]. cbn [IntVal_.plus mbind result_bind].
    replace (z - 1 + 1) with z by lia. by rewrite Hv.
Qed.

End Enums.

Lemma enum_next_prev_inverse_witness :
  b_enum_prev Literal.env0
    (Literal.call "enum_prev" [LiteralExt.int_set [(1, 3)]; LiteralExt.int 3])
  = Ok (IntFinite 2)
  ∧ b_enum_next Literal.env0
      (Literal.call "enum_next" [LiteralExt.int_set [(1, 3)]; LiteralExt.int 1])
    = Ok (IntFinite 2).
Proof.
  split.
  - apply (enum_next_prev_inverse Literal.env0
             (Literal.call "enum_next"
                [LiteralExt.int_set [(1, 3)]; LiteralExt.int 2])
             (Literal.call "enum_prev"
                [LiteralExt.int_set [(1, 3)]; LiteralExt.int 3])
             (Literal.call "to_enum"
                [LiteralExt.int_set [(1, 3)]; LiteralExt.int 2])
             (LiteralExt.int_set [(1, 3)]) (LiteralExt.int 2)
             (LiteralExt.int 3) (IntFinite 2) (IntFinite 3));
      reflexivity.
  - apply (enum_next_prev_inverse Literal.env0
             (Literal.call "enum_prev"
                [LiteralExt.int_set [(1, 3)]; LiteralExt.int 2])
             (Literal.call "enum_next"
                [LiteralExt.int_set [(1, 3)]; LiteralExt.int 1])
             (Literal.call "to_enum"
                [LiteralExt.int_set [(1, 3)]; LiteralExt.int 2])
             (LiteralExt.int_set [(1, 3)]) (LiteralExt.int 2)
             (LiteralExt.int 1) (IntFinite 2) (IntFinite 1));
      reflexivity.
Defined.

(** ** Strings *)

Lemma str_app_cons (x : Ascii.ascii) (a b : string) :
  String x a +:+ b = String x (a +:+ b).
Proof. reflexivity. Qed.

Lemma str_app_nil_l (a : string) : "" +:+ a = a.
Proof. reflexivity. Qed.

Lemma str_app_assoc (a b c : string) : (a +:+ b) +:+ c = a +:+ (b +:+ c).
Proof.
  induction a as [|x a IH]; [done|]. by rewrite !str_app_cons, IH.
Qed.

Lemma str_app_nil_r (a : string) : a +:+ "" = a.
Proof. induction a as [|x a IH]; [done|]. by rewrite str_app_cons, IH. Qed.

Lemma str_length_app (a b : string) :
  String.length (a +:+ b) = (String.length a + String.length b)%nat.
Proof.
  induction a as [|x a IH]; [done|]. rewrite str_app_cons. cbn. by rewrite IH.
Qed.

Lemma spaces_length (n : Z) : String.length (spaces n) = Z.to_nat n.
Proof.
  unfold spaces. induction (Z.to_nat n) as [|k IH]; [done|].
  cbn [replicate concat_strings]. rewrite str_length_app, IH. done.
Qed.

Lemma spaces_nonpos (n : Z) : n ≤ 0 → spaces n = "".
Proof. intros H. unfold spaces. by replace (Z.to_nat n) with 0%nat by lia. Qed.

Section Strings.

Context {ev : Evaluator} {ex : EvaluatorExt} {pr : Printer}.

Lemma fold_values_join (sep : string) (n : nat) (ss : list string) :
  ∀ (i0 : nat) (acc : string),
    (i0 + length ss = n)%nat →
    fold_values
      (fun i oss s =>
         Ok (oss +:+ s +:+ (if (i <? n - 1)%nat then sep else "")))
      i0 ss acc
    = Ok (acc +:+ String.concat sep ss).
Proof.
  induction ss as [|s ss IH]; intros i0 acc Hn.
  { cbn. by rewrite str_app_nil_r. }
  cbn [fold_values mbind result_bind]. cbn [length] in Hn.
  rewrite IH by lia. f_equal.
  destruct ss as [|s' ss].
  - cbn [length] in Hn.
    destruct (Nat.ltb_spec i0 (n - 1)) as [Hlt|_]; [lia|].
    cbn [String.concat]. by rewrite !str_app_nil_r.
  - cbn [length] in Hn.
    destruct (Nat.ltb_spec i0 (n - 1)) as [_|Hge]; [|lia].
    change (String.concat sep (s :: s' :: ss))
      with (s +:+ sep +:+ String.concat sep (s' :: ss)).
    by rewrite !str_app_assoc.
Qed.

Lemma fold_values_concat (ss : list string) :
  ∀ (i0 : nat) (acc : string),
    fold_values (fun (_ : nat) oss s => Ok (oss +:+ s)) i0 ss acc
    = Ok (acc +:+ String.concat "" ss).
Proof.
  induction ss as [|s ss IH]; intros i0 acc.
  { cbn. by rewrite str_app_nil_r. }
  cbn [fold_values mbind result_bind]. rewrite IH. f_equal.
  rewrite str_app_assoc. f_equal.
  destruct ss; [by rewrite str_app_nil_r|reflexivity].
Qed.

(** X13. [join(sep, A)] is the strings of [A] with [sep] between every
    two of them ([String.concat] of the Standard Library), and [concat(A)]
    is the same with the empty separator. *)
Theorem join_concat (env : EnvI) (cj cc : Call) (a0 a1 : Expression)
  (al : ArrayLit) (sep : string) (ss : list string) :
  call_args cj = [a0; a1] →
  call_args cc = [a1] →
  eval_string env a0 = Ok sep →
  eval_array_lit env a1 = Ok al →
  Forall2 (fun e s => eval_string env e = Ok s) (al_v al) ss →
  b_join env cj = Ok (String.concat sep ss)
  ∧ b_concat env cc = Ok (String.concat "" ss).
Proof.
  intros Hcj Hcc Hsep Hal Hss. unfold b_join, b_concat.
  rewrite Hcj, Hcc, Hsep, Hal. cbn [mbind result_bind].
  pose proof (Forall2_length _ _ _ Hss) as Hlen. split.
  - rewrite (for_range_values eval_string
               (fun i oss s =>
                  Ok (oss +:+ s
                      +:+ (if (i <? ArrayLit_m.size al - 1)%nat
                           then sep else "")))
               env al ss 0 "" Hss) by lia.
    rewrite drop_0. unfold ArrayLit_m.size.
    by rewrite (fold_values_join sep (length (al_v al))) by lia.
  - rewrite (for_range_values eval_string (fun i oss s => Ok (oss +:+ s))
               env al ss 0 "" Hss) by lia.
    rewrite drop_0. by rewrite fold_values_concat.
Qed.

(** The text [s] in a field of [width] characters: on the right of it for
    a positive width, on the left for a negative one. *)
Lemma justify_string_padded (width : Z) (s : string) :
  justify_string width s
  = (if width <? 0
     then s +:+ spaces (- width - Z.of_nat (String.length s))
     else spaces (width - Z.of_nat (String.length s)) +:+ s)
  ∧ Z.of_nat (String.length (justify_string width s))
    = Z.max (Z.of_nat (String.length s)) (Z.abs width).
Proof.
  unfold justify_string. set (size := Z.of_nat (String.length s)).
  assert (0 ≤ size) by (unfold size; lia).
  destruct (Z.ltb_spec size (Z.abs width)) as [Hlt|Hge].
  - destruct (Z.ltb_spec width 0) as [Hneg|Hpos]; cbn [Z.ltb Z.compare].
    + destruct (Z.ltb_spec (- width - size) 0) as [?|_]; [lia|].
      split; [done|]. rewrite !str_length_app, !spaces_length. lia.
    + destruct (Z.ltb_spec (width - size) 0) as [?|_]; [lia|].
      split; [by rewrite str_app_nil_r|].
      rewrite !str_length_app, !spaces_length. lia.
  - split; [|lia].
    destruct (Z.ltb_spec width 0).
    + by rewrite spaces_nonpos, str_app_nil_r by lia.
    + by rewrite spaces_nonpos by lia.
Qed.


(** X15. [show_int(j, i)] on an integer literal is the text of the
    integer justified as [format_justify_string] justifies it. *)
Theorem show_int_justified (env : EnvI) (call : Call) (a0 a1 : Expression)
  (iv : IntVal) (j : Z) :
  call_args call = [a0; a1] →
  eval_par env a1 = Ok (Some (IntLit iv)) →
  eval_int env a0 = Ok (IntFinite j) →
  b_show_int env call = Ok (justify_string (to_int32 j) (pp_IntVal iv)).
Proof.
  intros Hargs Hpar Hj. unfold b_show_int. rewrite Hargs, Hpar.
  cbn [mbind result_bind]. rewrite Hj. cbn [mbind result_bind IntVal_.toInt].
  f_equal. rewrite (proj1 (justify_string_padded _ _)).
  set (len := Z.of_nat (String.length (pp_IntVal iv))).
  assert (0 ≤ len) by (unfold len; lia).
  destruct (Z.ltb_spec (to_int32 j) 0) as [Hneg|Hpos]; cbn [Z.ltb Z.compare].
  - destruct (Z.ltb_spec (- to_int32 j - len) 0).
    + rewrite (spaces_nonpos 0), (spaces_nonpos (- _ - _)) by lia.
      by rewrite str_app_nil_l.
    + by rewrite (spaces_nonpos 0), str_app_nil_l by lia.
  - destruct (Z.ltb_spec (to_int32 j - len) 0).
    + rewrite (spaces_nonpos 0), (spaces_nonpos (_ - _)) by lia.
      by rewrite !str_app_nil_l, str_app_nil_r.
    + by rewrite (spaces_nonpos 0), str_app_nil_r by lia.
Qed.

(** X16. On an array of parameters with one axis and no set and no absent
    value among its elements, [showJSON] returns the text that [show]
    returns. *)
Theorem show_json_one_axis_is_show (env : EnvI) (call : Call)
  (a0 : Expression) (rest : list Expression) (al : ArrayLit) :
  call_args call = a0 :: rest →
  eval_par env a0 = Ok (Some (E_ArrayLit al)) →
  eval_par env (E_ArrayLit al) = Ok (Some (E_ArrayLit al)) →
  Ty_.isvar (al_type al) = false →
  ArrayLit_m.dims al = 1%nat →
  Forall plain_element (al_v al) →
  b_show_json env call = b_show env call.
Proof.
  intros Hargs Hpar Hpar2 Hvar Hdims Hplain.
  unfold b_show_json, b_show, show. rewrite Hargs, Hpar.
  cbn [mbind result_bind type]. rewrite Hvar, Hpar2. cbn [mbind result_bind].
  unfold json_dims. rewrite Hdims. cbn [Nat.sub]. do 4 f_equal.
  apply imap_ext. intros i x Hx. unfold json_element.
  cbn [fmap list_fmap concat_strings]. rewrite !str_app_nil_l.
  f_equal. rewrite Forall_lookup in Hplain. specialize (Hplain i x Hx).
  by destruct x.
Qed.

End Strings.

Lemma join_concat_witness :
  b_join Literal.env0
    (Literal.call "join"
       [StringLit ", "; LiteralExt.string_array ["a"; "b"; "c"]])
  = Ok "a, b, c"
  ∧ b_concat Literal.env0
      (Literal.call "concat" [LiteralExt.string_array ["a"; "b"; "c"]])
    = Ok "abc".
Proof.
  apply (join_concat Literal.env0
           (Literal.call "join"
              [StringLit ", "; LiteralExt.string_array ["a"; "b"; "c"]])
           (Literal.call "concat" [LiteralExt.string_array ["a"; "b"; "c"]])
           (StringLit ", ") (LiteralExt.string_array ["a"; "b"; "c"])
           (ArrayLit_m.new Literal.int_array_type
              (StringLit <$> ["a"; "b"; "c"]))
           ", " ["a"; "b"; "c"]); [reflexivity..|].
  repeat constructor.
Defined.


Lemma show_int_justified_witness :
  b_show_int Literal.env0
    (Literal.call "show_int" [LiteralExt.int (-5); LiteralExt.int 42])
  = Ok "42   ".
Proof.
  rewrite (show_int_justified Literal.env0
             (Literal.call "show_int" [LiteralExt.int (-5); LiteralExt.int 42])
             (LiteralExt.int (-5)) (LiteralExt.int 42) (IntFinite 42) (-5))
    by reflexivity.
  vm_compute. reflexivity.
Defined.

Lemma show_json_one_axis_is_show_witness :
  b_show_json Literal.env0
    (Literal.call "showJSON" [Literal.int_array [1; 2; 3]])
  = b_show Literal.env0
      (Literal.call "showJSON" [Literal.int_array [1; 2; 3]]).
Proof.
  apply (show_json_one_axis_is_show Literal.env0
           (Literal.call "showJSON" [Literal.int_array [1; 2; 3]])
           (Literal.int_array [1; 2; 3]) []
           (ArrayLit_m.new Literal.int_array_type
              (IntLit ∘ IntFinite <$> [1; 2; 3])));
    [reflexivity..|].
  repeat constructor.
Defined.


(** ** Arrays with given index sets *)

Section Arrays.

Context {ev : Evaluator} {ex : EvaluatorExt}.

Lemma arrayXd_dims_shape (env : EnvI) (args : list Expression) :
  ∀ (dim1d : Z) (r : list (Z * Z) * Z),
    arrayXd_dims env args dim1d = Ok r →
    length r.1 = length args ∧ r.2 = cells_from dim1d r.1.
Proof.
  induction args as [|a args IH]; intros dim1d r H; cbn [arrayXd_dims] in H.
  { by injection H as <-. }
  destruct (eval_intset env a) as [di|] eqn:Hdi;
    cbn [mbind result_bind] in H; [|done].
  destruct di as [|[mi ma] [|]]; [| |done].
  - destruct (arrayXd_dims env args 0) as [r'|] eqn:Hr';
      cbn [mbind result_bind] in H; [|done].
    injection H as <-. destruct (IH _ _ Hr') as [Hlen Hc].
    cbn [fst snd length]. split; [by rewrite Hlen|].
    rewrite Hc. unfold cells_from. cbn [foldl fst snd].
    by replace (wrap32 (dim1d * wrap32 (0 - 1 + 1))) with 0
      by (unfold wrap32; cbn; by rewrite Z.mul_0_r).
  - destruct (IntVal_.toInt mi) as [lo|]; cbn [mbind result_bind] in H; [|done].
    destruct (IntVal_.toInt ma) as [hi|]; cbn [mbind result_bind] in H; [|done].
    destruct (arrayXd_dims env args _) as [r'|] eqn:Hr';
      cbn [mbind result_bind] in H; [|done].
    injection H as <-. destruct (IH _ _ Hr') as [Hlen Hc].
    cbn [fst snd length]. split; [by rewrite Hlen|].
    by rewrite Hc.
Qed.

(** X17. When [b_arrayXd(env, call, d)] returns, the array it returns has
    the elements of the array argument, [d] index sets, the type of the
    argument with dimension [d], and index sets whose number of cells, as
    counted in [unsigned int], is the number of its elements. *)
Theorem arrayXd_shape (env : EnvI) (call : Call) (d : nat) (ad : Expression)
  (al ret : ArrayLit) :
  call_args call !! d = Some ad →
  eval_array_lit env ad = Ok al →
  b_arrayXd env call d = Ok ret →
  al_v ret = al_v al
  ∧ ArrayLit_m.dims ret = d
  ∧ al_type ret = Ty_set_dim (al_type al) (Z.of_nat d)
  ∧ cells (al_dims ret) = Z.of_nat (ArrayLit_m.size ret).
Proof.
  intros Had Hal H. unfold b_arrayXd in H. rewrite Had, Hal in H.
  cbn [mbind result_bind] in H.
  destruct (arrayXd_dims env _ 1) as [r|] eqn:Hr;
    cbn [mbind result_bind] in H; [|done].
  destruct (r.2 =? Z.of_nat (ArrayLit_m.size al)) eqn:Hsize;
    cbn [negb] in H; [|done].
  injection H as <-. apply Z.eqb_eq in Hsize.
  destruct (arrayXd_dims_shape _ _ _ _ Hr) as [Hlen Hc].
  unfold ArrayLit_m.dims, ArrayLit_m.size in *. cbn [al_v al_dims al_type].
  split_and!; [done| |done|].
  - rewrite Hlen, length_take. apply lookup_lt_Some in Had. lia.
  - unfold cells. by rewrite <- Hc.
Qed.

Lemma dims_of_min_max (al : ArrayLit) :
  (fun i => (ArrayLit_m.min al i, ArrayLit_m.max al i))
    <$> seq 0 (ArrayLit_m.dims al)
  = al_dims al.
Proof.
  apply list_eq. intros i. rewrite list_lookup_fmap.
  unfold ArrayLit_m.dims, ArrayLit_m.min, ArrayLit_m.max.
  destruct (al_dims al !! i) as [[lo hi]|] eqn:Hi.
  - rewrite lookup_seq_lt by (by eapply lookup_lt_Some).
    cbn. by rewrite Hi.
  - rewrite lookup_seq_ge; [done|by apply lookup_ge_None].
Qed.

Lemma sameDims_eq (al0 al1 : ArrayLit) :
  ArrayLit_m.dims al0 = ArrayLit_m.dims al1 →
  sameDims al0 al1 = true →
  al_dims al1 = al_dims al0.
Proof.
  intros Hd Hs. rewrite <- (dims_of_min_max al0), <- (dims_of_min_max al1).
  rewrite <- Hd. apply Forall_fmap_ext, Forall_forall. intros i Hi.
  unfold sameDims in Hs. rewrite forallb_forall in Hs.
  specialize (Hs i). rewrite <- list_elem_of_In, elem_of_reverse in Hs.
  apply Hs in Hi. apply andb_true_iff in Hi as [->%Z.eqb_eq ->%Z.eqb_eq].
  done.
Qed.

(** X18. [b_arrayXd(env, call)] with two arrays always returns: either the
    second argument itself, an identifier whose array has the index sets of
    the first array already, or an array literal with the elements of the
    second array and the index sets of the first one. It never compares the
    number of elements with the index sets. *)
Theorem arrayXd_like_reshapes (env : EnvI) (call : Call)
  (a0 a1 : Expression) (rest : list Expression) (al0 al1 : ArrayLit) :
  call_args call = a0 :: a1 :: rest →
  eval_array_lit env a0 = Ok al0 →
  eval_array_lit env a1 = Ok al1 →
  ∃ e : Expression,
    b_arrayXd_like env call = Ok e
    ∧ ((isa_Id a1 = true ∧ e = a1 ∧ al_dims al1 = al_dims al0)
       ∨ ∃ ret : ArrayLit,
           e = E_ArrayLit ret
           ∧ al_v ret = al_v al1
           ∧ al_dims ret = al_dims al0).
Proof.
  intros Hargs H0 H1. unfold b_arrayXd_like. rewrite Hargs, H0, H1.
  cbn [mbind result_bind].
  destruct ((ArrayLit_m.dims al0 =? ArrayLit_m.dims al1)%nat
            && sameDims al0 al1) eqn:Hsame.
  - apply andb_true_iff in Hsame as [Hd%Nat.eqb_eq Hs].
    pose proof (sameDims_eq _ _ Hd Hs) as Heq.
    destruct (isa_Id a1) eqn:Hid; eexists; (split; [done|]).
    + by left.
    + right. by exists al1.
  - eexists. split; [done|]. right. eexists. split; [done|].
    cbn [al_v al_dims]. split; [done|apply dims_of_min_max].
Qed.

(** X19. [b_array1d_list] always returns: either its argument itself, an
    identifier whose array has one index set that starts at 1 already, or an
    array literal with the elements of the argument and one index set that
    starts at 1. *)
Theorem array1d_list_one_based (env : EnvI) (call : Call)
  (a0 : Expression) (rest : list Expression) (al : ArrayLit) :
  call_args call = a0 :: rest →
  eval_array_lit env a0 = Ok al →
  ∃ e : Expression,
    b_array1d_list env call = Ok e
    ∧ ((isa_Id a0 = true ∧ e = a0
        ∧ ArrayLit_m.dims al = 1%nat ∧ ArrayLit_m.min al 0 = 1)
       ∨ ∃ ret : ArrayLit,
           e = E_ArrayLit ret
           ∧ al_v ret = al_v al
           ∧ ArrayLit_m.dims ret = 1%nat
           ∧ ArrayLit_m.min ret 0 = 1).
Proof.
  intros Hargs H0. unfold b_array1d_list. rewrite Hargs, H0.
  cbn [mbind result_bind].
  destruct ((ArrayLit_m.dims al =? 1)%nat && (ArrayLit_m.min al 0 =? 1))
    eqn:Hsame.
  - apply andb_true_iff in Hsame as [Hd%Nat.eqb_eq Hm%Z.eqb_eq].
    destruct (isa_Id a0) eqn:Hid; eexists; (split; [done|]).
    + by left.
    + right. by exists al.
  - eexists. split; [done|]. right. eexists. by split.
Qed.

End Arrays.

Lemma arrayXd_shape_witness :
  ∃ ret : ArrayLit,
    b_arrayXd Literal.env0
      (Literal.call "array2d"
         [LiteralExt.int_set [(1, 2)]; LiteralExt.int_set [(0, 2)];
          Literal.int_array [1; 2; 3; 4; 5; 6]]) 2
    = Ok ret
    ∧ al_dims ret = [(1, 2); (0, 2)]
    ∧ cells (al_dims ret) = Z.of_nat (ArrayLit_m.size ret).
Proof.
  eexists. split; [reflexivity|]. split; [reflexivity|].
  eapply (arrayXd_shape Literal.env0
            (Literal.call "array2d"
               [LiteralExt.int_set [(1, 2)]; LiteralExt.int_set [(0, 2)];
                Literal.int_array [1; 2; 3; 4; 5; 6]]) 2
            (Literal.int_array [1; 2; 3; 4; 5; 6])); reflexivity.
Defined.

Lemma arrayXd_like_reshapes_witness :
  ∃ e : Expression,
    b_arrayXd_like Literal.env0
      (Literal.call "arrayXd"
         [E_ArrayLit array_2x2; Literal.int_array [7; 8; 9]])
    = Ok e
    ∧ ((isa_Id (Literal.int_array [7; 8; 9]) = true
        ∧ e = Literal.int_array [7; 8; 9]
        ∧ al_dims (ArrayLit_m.new Literal.int_array_type
                     (IntLit ∘ IntFinite <$> [7; 8; 9]))
          = al_dims array_2x2)
       ∨ ∃ ret : ArrayLit,
           e = E_ArrayLit ret
           ∧ al_v ret
             = al_v (ArrayLit_m.new Literal.int_array_type
                       (IntLit ∘ IntFinite <$> [7; 8; 9]))
           ∧ al_dims ret = al_dims array_2x2).
Proof.
  apply (arrayXd_like_reshapes Literal.env0
           (Literal.call "arrayXd"
              [E_ArrayLit array_2x2; Literal.int_array [7; 8; 9]])
           (E_ArrayLit array_2x2) (Literal.int_array [7; 8; 9]) []
           array_2x2
           (ArrayLit_m.new Literal.int_array_type
              (IntLit ∘ IntFinite <$> [7; 8; 9])));
    reflexivity.
Defined.

Lemma array1d_list_one_based_witness :
  ∃ e : Expression,
    b_array1d_list Literal.env0
      (Literal.call "array1d" [E_ArrayLit array_2x2])
    = Ok e
    ∧ ((isa_Id (E_ArrayLit array_2x2) = true ∧ e = E_ArrayLit array_2x2
        ∧ ArrayLit_m.dims array_2x2 = 1%nat ∧ ArrayLit_m.min array_2x2 0 = 1)
       ∨ ∃ ret : ArrayLit,
           e = E_ArrayLit ret
           ∧ al_v ret = al_v array_2x2
           ∧ ArrayLit_m.dims ret = 1%nat
           ∧ ArrayLit_m.min ret 0 = 1).
Proof.
  apply (array1d_list_one_based Literal.env0
           (Literal.call "array1d" [E_ArrayLit array_2x2])
           (E_ArrayLit array_2x2) [] array_2x2);
    reflexivity.
Defined.


(** ** Bounds of an array of integer variables *)

Lemma foldl_best {V : Type} (P : V → Prop) (better : V → V → bool)
  (vs : list V) (m0 : V) :
  strict_weak_order_on P better → P m0 → Forall P vs →
  foldl (fun m x => if better x m then x else m) m0 vs ∈ m0 :: vs
  ∧ ∀ x, x ∈ m0 :: vs →
      better x (foldl (fun m x => if better x m then x else m) m0 vs) = false.
Proof.
  intros Hswo Pm0 HP.
  destruct (best_fold P better Hswo vs 0%nat m0 Pm0 HP) as (r & Hr & Hin & Hb).
  assert (∀ (i0 : nat) (m : V),
            fold_values (fun _ m x => Ok (if better x m then x else m)) i0 vs m
            = Ok (foldl (fun m x => if better x m then x else m) m vs)) as Hf.
  { clear. induction vs as [|x vs IH]; intros i0 m; [done|].
    cbn [fold_values mbind result_bind foldl]. apply IH. }
  rewrite Hf in Hr. by injection Hr as <-.
Qed.

Lemma IntVal_ltb_top (x : IntVal) :
  IntVal_.ltb x IntPlusInfinity = false → x = IntPlusInfinity.
Proof. by destruct x. Qed.

Lemma IntVal_ltb_bottom (x : IntVal) :
  IntVal_.ltb IntMinusInfinity x = false → x = IntMinusInfinity.
Proof. by destruct x. Qed.

Section ArrayBounds.

Context {ev : Evaluator} {ex : EvaluatorExt}.

Lemma lb_loop_valid (env : EnvI) (l : list Expression) :
  ∀ min : IntVal,
    Forall (has_valid_int_bounds env) l →
    ∃ ibs : list IntBounds,
      Forall2 (fun x ib => compute_int_bounds env x = Ok ib) l ibs
      ∧ lb_loop env l min = Ok (Some (foldl IntVal_.min min (ib_l <$> ibs))).
Proof.
  induction l as [|x l IH]; intros min Hl.
  { exists []. by split. }
  apply Forall_cons in Hl as [(ib & Hib & Hv) Hl].
  destruct (IH (IntVal_.min min (ib_l ib)) Hl) as (ibs & Hibs & Hloop).
  exists (ib :: ibs). split; [by constructor|].
  cbn [lb_loop mbind result_bind]. rewrite Hib. cbn [mbind result_bind].
  by rewrite Hv.
Qed.

Lemma ub_loop_valid (env : EnvI) (l : list Expression) :
  ∀ max : IntVal,
    Forall (has_valid_int_bounds env) l →
    ∃ ibs : list IntBounds,
      Forall2 (fun x ib => compute_int_bounds env x = Ok ib) l ibs
      ∧ ub_loop env l max = Ok (Some (foldl IntVal_.max max (ib_u <$> ibs))).
Proof.
  induction l as [|x l IH]; intros max Hl.
  { exists []. by split. }
  apply Forall_cons in Hl as [(ib & Hib & Hv) Hl].
  destruct (IH (IntVal_.max max (ib_u ib)) Hl) as (ibs & Hibs & Hloop).
  exists (ib :: ibs). split; [by constructor|].
  cbn [ub_loop mbind result_bind]. rewrite Hib. cbn [mbind result_bind].
  by rewrite Hv.
Qed.

Lemma lb_loop_invalid (env : EnvI) (l : list Expression) :
  ∀ min : IntVal,
    Forall (has_int_bounds env) l →
    Exists (has_invalid_int_bounds env) l →
    lb_loop env l min = Ok None.
Proof.
  induction l as [|x l IH]; intros min Hl Hx; [by apply Exists_nil in Hx|].
  apply Forall_cons in Hl as [[ib Hib] Hl].
  cbn [lb_loop]. rewrite Hib. cbn [mbind result_bind].
  destruct (ib_valid ib) eqn:Hv; [|done]. cbn [negb].
  apply Exists_cons in Hx as [(ib' & Hib' & Hv')|Hx]; [congruence|].
  by apply IH.
Qed.

Lemma ub_loop_invalid (env : EnvI) (l : list Expression) :
  ∀ max : IntVal,
    Forall (has_int_bounds env) l →
    Exists (has_invalid_int_bounds env) l →
    ub_loop env l max = Ok None.
Proof.
  induction l as [|x l IH]; intros max Hl Hx; [by apply Exists_nil in Hx|].
  apply Forall_cons in Hl as [[ib Hib] Hl].
  cbn [ub_loop]. rewrite Hib. cbn [mbind result_bind].
  destruct (ib_valid ib) eqn:Hv; [|done]. cbn [negb].
  apply Exists_cons in Hx as [(ib' & Hib' & Hv')|Hx]; [congruence|].
  by apply IH.
Qed.

Lemma declared_bound_none (bound : IntSetVal → result IntVal)
  (unbounded : IntVal) (env : EnvI) (e : Expression) :
  not_a_declaration e →
  declared_bound bound unbounded env e = Ok (false, unbounded, Some e).
Proof. by destruct e. Qed.

(** X20. For an array that is no declaration, is not empty and whose
    elements all have valid bounds, [b_array_lb_int] returns the least of the
    lower bounds of the elements and [b_array_ub_int] the greatest of their
    upper bounds: no element has a lower bound below the one or an upper
    bound above the other, and each is the bound of an element. *)
Theorem array_bounds_int_enclose (env : EnvI) (call : Call) (a0 : Expression)
  (al : ArrayLit) :
  call_args call = [a0] →
  not_a_declaration (follow_id_to_decl env a0) →
  eval_array_lit env (follow_id_to_decl env a0) = Ok al →
  al_v al ≠ [] →
  Forall (has_valid_int_bounds env) (al_v al) →
  ∃ lb ub : IntVal,
    b_array_lb_int env call = Ok lb
    ∧ b_array_ub_int env call = Ok ub
    ∧ (∀ x ib, x ∈ al_v al → compute_int_bounds env x = Ok ib →
         IntVal_.ltb (ib_l ib) lb = false ∧ IntVal_.ltb ub (ib_u ib) = false)
    ∧ (∃ x ib, x ∈ al_v al ∧ compute_int_bounds env x = Ok ib ∧ lb = ib_l ib)
    ∧ (∃ x ib, x ∈ al_v al ∧ compute_int_bounds env x = Ok ib ∧ ub = ib_u ib).
Proof.
  intros Hargs Hdecl Hal Hne Hvalid.
  unfold b_array_lb_int, b_array_ub_int. rewrite Hargs.
  rewrite !declared_bound_none by done. cbn [mbind result_bind].
  rewrite Hal. cbn [mbind result_bind].
  assert ((ArrayLit_m.size al =? 0)%nat = false) as ->.
  { apply Nat.eqb_neq. unfold ArrayLit_m.size. by destruct (al_v al). }
  destruct (lb_loop_valid env _ IntPlusInfinity Hvalid) as (ibs & Hibs & ->).
  destruct (ub_loop_valid env _ IntMinusInfinity Hvalid) as (ibs' & Hibs' & ->).
  assert (ibs' = ibs) as ->.
  { clear -Hibs Hibs'. revert ibs' Hibs'.
    induction Hibs as [|x ib l ibs Hx _ IH]; intros ibs' H;
      inversion H; subst; [done|]. f_equal; [congruence|by apply IH]. }
  cbn [mbind result_bind]. do 2 eexists. split_and!; [done|done| | |].
  - intros x ib [i Hi]%list_elem_of_lookup Hx.
    destruct (Forall2_lookup_l _ _ _ _ _ Hibs Hi) as (ib' & Hib' & Hx').
    assert (ib' = ib) as -> by congruence. split.
    + apply (foldl_best (fun _ => True) IntVal_.ltb (ib_l <$> ibs)
               IntPlusInfinity IntVal_ltb_swo I); [by apply Forall_true|].
      right. apply list_elem_of_fmap. exists ib.
      split; [done|by eapply list_elem_of_lookup_2].
    + apply (foldl_best (fun _ => True) (flip IntVal_.ltb) (ib_u <$> ibs)
               IntMinusInfinity (swo_flip _ _ IntVal_ltb_swo) I);
        [by apply Forall_true|].
      right. apply list_elem_of_fmap. exists ib.
      split; [done|by eapply list_elem_of_lookup_2].
  - destruct (al_v al) as [|x0 l] eqn:Hv; [done|].
    inversion Hibs as [|? ib0 ? ibs0 Hx0 Hrest]; subst.
    destruct (foldl_best (fun _ => True) IntVal_.ltb (ib_l <$> ib0 :: ibs0)
                IntPlusInfinity IntVal_ltb_swo I) as [Hin Hb];
      [by apply Forall_true|].
    set (r := foldl IntVal_.min _ _).
    change (foldl _ _ _) with r in Hin, Hb.
    apply elem_of_cons in Hin as [Htop|Hin].
    + exists x0, ib0. split_and!; [by left|done|].
      rewrite Htop. symmetry. apply IntVal_ltb_top. rewrite <- Htop.
      apply Hb. right. by left.
    + apply list_elem_of_fmap in Hin as (ib & Hr & [i Hi]%list_elem_of_lookup).
      destruct (Forall2_lookup_r _ _ _ _ _ Hibs Hi) as (x & Hx & Hxib).
      exists x, ib. split_and!; [by eapply list_elem_of_lookup_2|done|done].
  - destruct (al_v al) as [|x0 l] eqn:Hv; [done|].
    inversion Hibs as [|? ib0 ? ibs0 Hx0 Hrest]; subst.
    destruct (foldl_best (fun _ => True) (flip IntVal_.ltb)
                (ib_u <$> ib0 :: ibs0) IntMinusInfinity
                (swo_flip _ _ IntVal_ltb_swo) I) as [Hin Hb];
      [by apply Forall_true|].
    set (r := foldl IntVal_.max _ _).
    change (foldl _ _ _) with r in Hin, Hb.
    apply elem_of_cons in Hin as [Hbot|Hin].
    + exists x0, ib0. split_and!; [by left|done|].
      rewrite Hbot. symmetry. apply IntVal_ltb_bottom. rewrite <- Hbot.
      apply (Hb (ib_u ib0)). right. by left.
    + apply list_elem_of_fmap in Hin as (ib & Hr & [i Hi]%list_elem_of_lookup).
      destruct (Forall2_lookup_r _ _ _ _ _ Hibs Hi) as (x & Hx & Hxib).
      exists x, ib. split_and!; [by eapply list_elem_of_lookup_2|done|done].
Qed.

(** X21. For an array that is no declaration, as soon as the bounds of one
    element are not valid the bounds of the others are dropped:
    [b_array_lb_int] returns minus infinity and [b_array_ub_int] infinity. *)
Theorem array_bounds_int_unknown (env : EnvI) (call : Call) (a0 : Expression)
  (al : ArrayLit) :
  call_args call = [a0] →
  not_a_declaration (follow_id_to_decl env a0) →
  eval_array_lit env (follow_id_to_decl env a0) = Ok al →
  Forall (has_int_bounds env) (al_v al) →
  Exists (has_invalid_int_bounds env) (al_v al) →
  b_array_lb_int env call = Ok IntMinusInfinity
  ∧ b_array_ub_int env call = Ok IntPlusInfinity.
Proof.
  intros Hargs Hdecl Hal Hall Hex.
  unfold b_array_lb_int, b_array_ub_int. rewrite Hargs.
  rewrite !declared_bound_none by done. cbn [mbind result_bind].
  rewrite Hal. cbn [mbind result_bind].
  assert ((ArrayLit_m.size al =? 0)%nat = false) as ->.
  { apply Nat.eqb_neq. unfold ArrayLit_m.size.
    destruct (al_v al); [by apply Exists_nil in Hex|done]. }
  by rewrite lb_loop_invalid, ub_loop_invalid.
Qed.

Lemma IntVal_max_ge (a b : IntVal) : IntVal_.ltb (IntVal_.max a b) a = false.
Proof.
  unfold IntVal_.max. destruct (IntVal_.ltb a b) eqn:H.
  - by apply (swo_asym _ _ _ _ IntVal_ltb_swo).
  - by apply (swo_irrefl _ _ IntVal_ltb_swo).
Qed.

Lemma IntVal_min_le (a b : IntVal) : IntVal_.ltb a (IntVal_.min a b) = false.
Proof.
  unfold IntVal_.min. destruct (IntVal_.ltb b a) eqn:H.
  - by apply (swo_asym _ _ _ _ IntVal_ltb_swo).
  - by apply (swo_irrefl _ _ IntVal_ltb_swo).
Qed.

(** X22. For the declaration of an array whose element domain is a set that
    is not empty, what [b_array_lb_int] returns is never below the least
    value of the domain and what [b_array_ub_int] returns never above its
    greatest value, with or without a right hand side and whatever the
    bounds of its elements. *)
Theorem array_bounds_int_within_domain (env : EnvI) (call : Call)
  (a0 dom : Expression) (vd : VarDecl) (isv : IntSetVal)
  (dmin dmax lb ub : IntVal) :
  call_args call = [a0] →
  follow_id_to_decl env a0 = E_VarDecl vd →
  vd_domain vd = Some dom →
  eval_intset env dom = Ok isv →
  isv_min isv = Ok dmin →
  isv_max isv = Ok dmax →
  b_array_lb_int env call = Ok lb →
  b_array_ub_int env call = Ok ub →
  IntVal_.ltb lb dmin = false ∧ IntVal_.ltb dmax ub = false.
Proof.
  intros Hargs Hdecl Hdom Hisv Hmin Hmax Hlb Hub.
  assert ((isv_size isv =? 0)%nat = false) as Hsize.
  { destruct isv; [done|]. done. }
  pose proof (swo_irrefl _ _ IntVal_ltb_swo) as Hirr.
  unfold b_array_lb_int in Hlb. unfold b_array_ub_int in Hub.
  rewrite Hargs, Hdecl in Hlb, Hub. unfold declared_bound in Hlb, Hub.
  rewrite Hdom, Hisv in Hlb, Hub. cbn [mbind result_bind] in Hlb, Hub.
  rewrite Hsize in Hlb, Hub. cbn [negb] in Hlb, Hub.
  rewrite Hmin in Hlb. rewrite Hmax in Hub.
  cbn [mbind result_bind] in Hlb, Hub.
  destruct (vd_e vd) as [e|].
  2:{ injection Hlb as <-. injection Hub as <-. split; by apply Hirr. }
  destruct (eval_array_lit env e) as [al|]; cbn [mbind result_bind] in *;
    [|done].
  destruct (ArrayLit_m.size al =? 0)%nat; [done|].
  destruct (lb_loop env (al_v al) IntPlusInfinity) as [[min|]|];
    cbn [mbind result_bind] in Hlb; [| |done];
  (destruct (ub_loop env (al_v al) IntMinusInfinity) as [[max|]|];
    cbn [mbind result_bind] in Hub; [| |done]);
  injection Hlb as <-; injection Hub as <-;
  split; auto using IntVal_max_ge, IntVal_min_le.
Qed.

End ArrayBounds.

Lemma array_bounds_int_enclose_witness :
  ∃ lb ub : IntVal,
    b_array_lb_int Literal.env0
      (Literal.call "lb_array" [Literal.int_array [3; 1; 2]]) = Ok lb
    ∧ b_array_ub_int Literal.env0
        (Literal.call "lb_array" [Literal.int_array [3; 1; 2]]) = Ok ub
    ∧ lb = IntFinite 1 ∧ ub = IntFinite 3.
Proof.
  destruct (array_bounds_int_enclose Literal.env0
              (Literal.call "lb_array" [Literal.int_array [3; 1; 2]])
              (Literal.int_array [3; 1; 2])
              (ArrayLit_m.new Literal.int_array_type
                 (IntLit ∘ IntFinite <$> [3; 1; 2])))
    as (lb & ub & Hlb & Hub & _).
  - reflexivity.
  - exact I.
  - reflexivity.
  - discriminate.
  - repeat constructor; eexists; split; reflexivity.
  - exists lb, ub. split_and!; [done|done| |].
    + vm_compute in Hlb. by injection Hlb.
    + vm_compute in Hub. by injection Hub.
Defined.

Lemma array_bounds_int_unknown_witness :
  b_array_lb_int Literal.env0
    (Literal.call "lb_array" [E_ArrayLit (ArrayLit_m.new Literal.int_array_type
                                 [IntLit (IntFinite 3); BoolLit true])])
  = Ok IntMinusInfinity
  ∧ b_array_ub_int Literal.env0
      (Literal.call "lb_array" [E_ArrayLit (ArrayLit_m.new Literal.int_array_type
                                   [IntLit (IntFinite 3); BoolLit true])])
    = Ok IntPlusInfinity.
Proof.
  apply (array_bounds_int_unknown Literal.env0
           (Literal.call "lb_array"
              [E_ArrayLit (ArrayLit_m.new Literal.int_array_type
                             [IntLit (IntFinite 3); BoolLit true])])
           (E_ArrayLit (ArrayLit_m.new Literal.int_array_type
                          [IntLit (IntFinite 3); BoolLit true]))
           (ArrayLit_m.new Literal.int_array_type
              [IntLit (IntFinite 3); BoolLit true])).
  - reflexivity.
  - exact I.
  - reflexivity.
  - repeat constructor; eexists; reflexivity.
  - apply Exists_cons_tl, Exists_cons_hd. eexists. split; reflexivity.
Defined.

Lemma array_bounds_int_within_domain_witness :
  b_array_lb_int BoundsExamples.env
    (Literal.call "lb_array" [BoundsExamples.a]) = Ok (IntFinite 3)
  ∧ b_array_ub_int BoundsExamples.env
      (Literal.call "ub_array" [BoundsExamples.a]) = Ok (IntFinite 10)
  ∧ IntVal_.ltb (IntFinite 3) (IntFinite 0) = false
  ∧ IntVal_.ltb (IntFinite 10) (IntFinite 10) = false.
Proof.
  split; [reflexivity|]. split; [reflexivity|].
  apply (array_bounds_int_within_domain BoundsExamples.env
           (Literal.call "lb_array" [BoundsExamples.a])
           BoundsExamples.a (LiteralExt.int_set [(0, 10)])
           (mkVarDecl BoundsExamples.var_int_array
              (Some (LiteralExt.int_set [(0, 10)]))
              (Some (Literal.int_array [3; 12])))
           [(IntFinite 0, IntFinite 10)]);
    reflexivity.
Defined.


(** ** Intersection of an array of sets *)

Lemma IntVal_le_trans (a b c : IntVal) :
  IntVal_.ltb b a = false → IntVal_.ltb c b = false → IntVal_.ltb c a = false.
Proof.
  intros Hab Hbc. destruct (IntVal_.ltb c a) eqn:Hca; [|done].
  destruct (swo_negtrans _ _ IntVal_ltb_swo c b a I I I Hca); congruence.
Qed.

Lemma IntVal_ltb_irrefl (a : IntVal) : IntVal_.ltb a a = false.
Proof. by apply (swo_irrefl _ _ IntVal_ltb_swo). Qed.

Lemma skip_ranges_elem (min : IntVal) (isv : IntSetVal)
  (ij : IntVal * IntVal) (rest : IntSetVal) :
  skip_ranges min isv = ij :: rest → ij ∈ isv.
Proof.
  induction isv as [|r isv IH]; [done|]. cbn [skip_ranges].
  destruct (IntVal_.ltb r.2 min).
  - intros H. right. by apply IH.
  - intros [= -> _]. by left.
Qed.

Section Intersect.

Context {ev : Evaluator} {ex : EvaluatorExt}.

Lemma intersect_pass_end (env : EnvI) (al : ArrayLit) :
  ∀ (j : nat) (min max min' max' : IntVal),
    intersect_pass env al j min max = Ok (PassEnd min' max') →
    IntVal_.ltb min' min = false
    ∧ IntVal_.ltb max max' = false
    ∧ ∀ (k : nat) (e : Expression) (isv : IntSetVal),
        (k < j)%nat → al_v al !! k = Some e → eval_intset env e = Ok isv →
        ∃ s : IntVal * IntVal,
          s ∈ isv
          ∧ IntVal_.ltb min' s.1 = false ∧ IntVal_.ltb s.2 max' = false.
Proof.
  induction j as [|j IH]; intros min max min' max' H; cbn [intersect_pass] in H.
  { injection H as <- <-. split_and!; try apply IntVal_ltb_irrefl.
    intros k e isv Hk. lia. }
  unfold al_at in H. destruct (al_v al !! j) as [ej|] eqn:Hej;
    cbn [mbind result_bind] in H; [|done].
  destruct (eval_intset env ej) as [isvj|] eqn:Hisvj;
    cbn [mbind result_bind] in H; [|done].
  destruct (skip_ranges min isvj) as [|ij rest] eqn:Hskip; [done|].
  destruct (IntVal_.ltb max ij.1) eqn:Hover; [done|].
  apply IH in H as (Hmin & Hmax & Hsets).
  assert (IntVal_.ltb (if IntVal_.ltb min ij.1 then ij.1 else min) min = false
          ∧ IntVal_.ltb (if IntVal_.ltb min ij.1 then ij.1 else min) ij.1
            = false) as [Hmin1 Hmin2].
  { destruct (IntVal_.ltb min ij.1) eqn:Hlt.
    - split; [|apply IntVal_ltb_irrefl].
      by apply (swo_asym _ _ _ _ IntVal_ltb_swo).
    - split; [apply IntVal_ltb_irrefl|done]. }
  assert (IntVal_.ltb max (if IntVal_.ltb ij.2 max then ij.2 else max) = false
          ∧ IntVal_.ltb ij.2 (if IntVal_.ltb ij.2 max then ij.2 else max)
            = false) as [Hmax1 Hmax2].
  { destruct (IntVal_.ltb ij.2 max) eqn:Hlt.
    - split; [|apply IntVal_ltb_irrefl].
      by apply (swo_asym _ _ _ _ IntVal_ltb_swo).
    - split; [apply IntVal_ltb_irrefl|done]. }
  split_and!.
  - eapply IntVal_le_trans; [exact Hmin1|exact Hmin].
  - eapply IntVal_le_trans; [exact Hmax|exact Hmax1].
  - intros k e isv Hk He Hisv.
    destruct (decide (k = j)) as [->|Hne].
    + assert (e = ej) as -> by congruence.
      assert (isv = isvj) as -> by congruence.
      exists ij. split_and!.
      * by eapply skip_ranges_elem.
      * eapply IntVal_le_trans; [exact Hmin2|exact Hmin].
      * eapply IntVal_le_trans; [exact Hmax|exact Hmax2].
    + apply (Hsets k e isv); [lia|done..].
Qed.

Lemma intersect_loop_within (env : EnvI) (al : ArrayLit) (i0max : IntVal) :
  ∀ (fuel : nat) (min max : IntVal) (ranges res : list (IntVal * IntVal)),
    Forall (within_every_set env al) ranges →
    intersect_loop fuel env al i0max min max ranges = Some (Ok res) →
    Forall (within_every_set env al) res.
Proof.
  induction fuel as [|fuel IH]; intros min max ranges res Hr H; [done|].
  cbn [intersect_loop] in H.
  destruct (intersect_pass env al (ArrayLit_m.size al) min max)
    as [[|min' max'|min' max']|] eqn:Hpass; [| | |done].
  - by injection H as <-.
  - by eapply IH.
  - destruct (IntVal_.plus max' (IntFinite 2)) as [min''|]; [|done].
    eapply IH; [|exact H]. apply Forall_app. split; [done|].
    apply Forall_singleton.
    apply intersect_pass_end in Hpass as (_ & _ & Hsets).
    intros k e isv He Hisv. apply (Hsets k e isv); [|done..].
    by eapply lookup_lt_Some.
Qed.

(** X23. What [b_array_intersect] returns, when it returns, holds values of
    every set of the array only. *)
Theorem array_intersect_sound (fuel : nat) (env : EnvI) (call : Call)
  (a0 : Expression) (al : ArrayLit) (res : IntSetVal) :
  call_args call = [a0] →
  eval_array_lit env a0 = Ok al →
  b_array_intersect fuel env call = Some (Ok res) →
  ∀ (v : IntVal) (k : nat) (e : Expression) (isv : IntSetVal),
    isv_contains res v = true →
    al_v al !! k = Some e → eval_intset env e = Ok isv →
    isv_contains isv v = true.
Proof.
  intros Hargs Hal H v k e isv Hv He Hisv.
  assert (Forall (within_every_set env al) res) as Hres.
  { unfold b_array_intersect in H. rewrite Hargs, Hal in H.
    destruct (al_v al) as [|e0 l] eqn:Hl; [by injection H as <-|].
    destruct (eval_intset env e0) as [[|r0 i0]|]; [by injection H as <-| |done].
    eapply intersect_loop_within; [|exact H]. done. }
  unfold isv_contains in *. apply existsb_exists in Hv as (r & Hr & Hin).
  rewrite <- list_elem_of_In in Hr. rewrite Forall_forall in Hres.
  destruct (Hres r Hr k e isv He Hisv) as (s & Hs & Hlo & Hhi).
  apply existsb_exists. exists s. split; [by apply list_elem_of_In|].
  unfold in_range in *. apply andb_true_iff in Hin as [Hin1 Hin2].
  apply negb_true_iff in Hin1, Hin2. apply andb_true_iff.
  split; apply negb_true_iff.
  - eapply IntVal_le_trans; [exact Hlo|exact Hin1].
  - eapply IntVal_le_trans; [exact Hin2|exact Hhi].
Qed.

Section NoReturn.

Variables (env : EnvI) (al : ArrayLit) (e0 e1 : Expression) (a b c d e : Z).

Hypothesis Hv : al_v al = [e0; e1].
Hypothesis H0 :
  eval_intset env e0 = Ok (finite_ranges [(a, b); (c, d)]).
Hypothesis H1 : eval_intset env e1 = Ok (finite_ranges [(c, e)]).
Hypothesis Hab : a ≤ b.
Hypothesis Hbc : b < c.
Hypothesis Hcd : c ≤ d.
Hypothesis Hde : d + 2 ≤ e.




End NoReturn.


End Intersect.

Lemma array_intersect_sound_witness :
  b_array_intersect 5 Literal.env0
    (Literal.call "array_intersect"
       [E_ArrayLit (ArrayLit_m.new Literal.int_array_type
                      [LiteralExt.int_set [(1, 9)];
                       LiteralExt.int_set [(1, 3); (7, 9)]])])
  = Some (Ok (finite_ranges [(1, 3); (7, 9)]))
  ∧ isv_contains [(IntFinite 1, IntFinite 9)] (IntFinite 8) = true.
Proof.
  split; [reflexivity|].
  refine (array_intersect_sound 5 Literal.env0
           (Literal.call "array_intersect"
              [E_ArrayLit (ArrayLit_m.new Literal.int_array_type
                             [LiteralExt.int_set [(1, 9)];
                              LiteralExt.int_set [(1, 3); (7, 9)]])])
           (E_ArrayLit (ArrayLit_m.new Literal.int_array_type
                          [LiteralExt.int_set [(1, 9)];
                           LiteralExt.int_set [(1, 3); (7, 9)]]))
           (ArrayLit_m.new Literal.int_array_type
              [LiteralExt.int_set [(1, 9)];
               LiteralExt.int_set [(1, 3); (7, 9)]])
           (finite_ranges [(1, 3); (7, 9)])
           _ _ _
           (IntFinite 8) 0%nat (LiteralExt.int_set [(1, 9)])
           [(IntFinite 1, IntFinite 9)] _ _ _);
    reflexivity.
Defined.



Lemma skip_ranges_prefix (bound : Z) (pre post : list (Z * Z)) :
  Forall (fun p => p.2 < bound) pre →
  match post with [] => True | r :: _ => bound ≤ r.2 end →
  skip_ranges (IntFinite bound) (finite_ranges (pre ++ post))
  = finite_ranges post.
Proof.
  intros Hpre Hpost. induction Hpre as [|[lo hi] pre Hp _ IH].
  - destruct post as [|[lo hi] post]; [done|].
    cbn [app finite_ranges fmap list_fmap prod_map skip_ranges fst snd
         IntVal_.ltb] in *.
    by destruct (Z.ltb_spec hi bound); [lia|].
  - cbn [app finite_ranges fmap list_fmap prod_map skip_ranges fst snd
         IntVal_.ltb] in *.
    by destruct (Z.ltb_spec hi bound); [|lia].
Qed.

Section IntersectSingle.

Context {ev : Evaluator} {ex : EvaluatorExt}.
Variables (env : EnvI) (al : ArrayLit) (e0 : Expression) (S0 : list (Z * Z)).

Hypothesis Hv : al_v al = [e0].
Hypothesis H0 : eval_intset env e0 = Ok (finite_ranges S0).

Lemma pass_single (min max : IntVal) :
  intersect_pass env al 1 min max
  = match skip_ranges min (finite_ranges S0) with
    | [] => Ok PassDone
    | ij :: _ =>
        if IntVal_.ltb max ij.1 then Ok (PassRestart ij.1 ij.2)
        else Ok (PassEnd (if IntVal_.ltb min ij.1 then ij.1 else min)
                   (if IntVal_.ltb ij.2 max then ij.2 else max))
    end.
Proof.
  cbn [intersect_pass]. unfold al_at. rewrite Hv.
  cbn [lookup list_lookup mbind result_bind]. rewrite H0.
  cbn [mbind result_bind]. destruct (skip_ranges min _) as [|ij rest]; [done|].
  by destruct (IntVal_.ltb max ij.1).
Qed.

Lemma intersect_loop_single (i0 : Z) :
  ∀ (post pre : list (Z * Z)) (r : Z * Z) (fuel : nat)
    (ranges : list (IntVal * IntVal)),
    S0 = pre ++ r :: post →
    Forall (fun p => p.2 < r.1) pre →
    normal_ranges (r :: post) →
    i0 ≤ r.2 →
    (2 * length (r :: post) ≤ fuel)%nat →
    intersect_loop fuel env al (IntFinite i0) (IntFinite r.1) (IntFinite r.2)
      ranges
    = Some (Ok (ranges ++ finite_ranges (r :: post))).
Proof.
  assert (ArrayLit_m.size al = 1%nat) as Hsize
    by (unfold ArrayLit_m.size; by rewrite Hv).
  induction post as [|r' post IH];
    intros pre [lo hi] fuel ranges HS Hpre Hn Hi0 Hfuel;
    (destruct fuel as [|[|fuel]]; [cbn [length] in Hfuel; lia..|]);
    destruct Hn as (Hlohi & Hgap & Hn); cbn [fst snd] in *.
  - cbn [intersect_loop]. rewrite Hsize, pass_single, HS.
    rewrite skip_ranges_prefix by done.
    cbn [finite_ranges fmap list_fmap prod_map fst snd IntVal_.ltb].
    destruct (Z.ltb_spec hi lo); [lia|]. rewrite !Z.ltb_irrefl.
    cbn [IntVal_.plus]. rewrite pass_single, HS.
    replace (pre ++ [(lo, hi)]) with ((pre ++ [(lo, hi)]) ++ []) at 1
      by apply app_nil_r.
    rewrite skip_ranges_prefix; [done| |done].
    apply Forall_app. split.
    + eapply Forall_impl; [exact Hpre|]. cbn. intros; lia.
    + apply Forall_singleton. cbn. lia.
  - cbn [intersect_loop]. rewrite Hsize, pass_single, HS.
    rewrite skip_ranges_prefix by done.
    cbn [finite_ranges fmap list_fmap prod_map fst snd IntVal_.ltb].
    destruct (Z.ltb_spec hi lo); [lia|]. rewrite !Z.ltb_irrefl.
    cbn [IntVal_.plus]. rewrite pass_single, HS.
    destruct r' as [lo' hi']. destruct Hn as (Hlohi' & Hgap' & Hn).
    cbn [fst snd] in *.
    replace (pre ++ (lo, hi) :: (lo', hi') :: post)
      with ((pre ++ [(lo, hi)]) ++ (lo', hi') :: post)
      by (by rewrite <- app_assoc).
    rewrite skip_ranges_prefix; [|apply Forall_app; split|cbn; lia].
    + cbn [finite_ranges fmap list_fmap prod_map fst snd IntVal_.ltb].
      destruct (Z.ltb_spec i0 lo'); [|lia].
      etrans; [apply (IH (pre ++ [(lo, hi)]) (lo', hi') fuel
                        (ranges ++ [(IntFinite lo, IntFinite hi)]))|].
      * rewrite <- app_assoc. exact HS.
      * apply Forall_app. split.
        -- eapply Forall_impl; [exact Hpre|]. cbn. intros; lia.
        -- apply Forall_singleton. cbn. lia.
      * done.
      * cbn [fst snd]. lia.
      * cbn [length] in *. lia.
      * cbn [finite_ranges fmap list_fmap prod_map]. by rewrite <- app_assoc.
    + eapply Forall_impl; [exact Hpre|]. cbn. intros; lia.
    + apply Forall_singleton. cbn. lia.
Qed.

End IntersectSingle.

(** X25. For an array of one set whose ranges satisfy the invariant of
    [IntSetVal], [b_array_intersect] returns, after two passes for each
    range, that set. *)
Theorem array_intersect_single {ev : Evaluator} {ex : EvaluatorExt}
  (fuel : nat) (env : EnvI) (call : Call) (a0 e0 : Expression) (al : ArrayLit)
  (S0 : list (Z * Z)) :
  call_args call = [a0] →
  eval_array_lit env a0 = Ok al →
  al_v al = [e0] →
  eval_intset env e0 = Ok (finite_ranges S0) →
  normal_ranges S0 →
  (2 * length S0 ≤ fuel)%nat →
  b_array_intersect fuel env call = Some (Ok (finite_ranges S0)).
Proof.
  intros Hargs Hal Hv H0 Hn Hfuel.
  unfold b_array_intersect. rewrite Hargs, Hal, Hv, H0.
  destruct S0 as [|[lo hi] post] eqn:HS; [done|].
  cbn [finite_ranges fmap list_fmap prod_map fst snd].
  rewrite <- HS in H0.
  apply (intersect_loop_single env al e0 S0 Hv H0 hi post [] (lo, hi)
           fuel []); subst; cbn [fst snd]; done.
Qed.

Lemma array_intersect_single_witness :
  b_array_intersect 4 Literal.env0
    (Literal.call "array_intersect"
       [E_ArrayLit (ArrayLit_m.new Literal.int_array_type
                      [LiteralExt.int_set [(1, 3); (7, 9)]])])
  = Some (Ok (finite_ranges [(1, 3); (7, 9)])).
Proof.
  apply (array_intersect_single 4 Literal.env0
           (Literal.call "array_intersect"
              [E_ArrayLit (ArrayLit_m.new Literal.int_array_type
                             [LiteralExt.int_set [(1, 3); (7, 9)]])])
           (E_ArrayLit (ArrayLit_m.new Literal.int_array_type
                          [LiteralExt.int_set [(1, 3); (7, 9)]]))
           (LiteralExt.int_set [(1, 3); (7, 9)])
           (ArrayLit_m.new Literal.int_array_type
              [LiteralExt.int_set [(1, 3); (7, 9)]])
           [(1, 3); (7, 9)]); try reflexivity.
  all: cbn; lia.
Defined.


(** ** Sampling with a check of the parameters *)

Section SamplingChecked.

Context {ev : Evaluator} {pr : Printer} {rnd : Random} {rx : RandomExt}.

(** X26. [b_weibull_float_float] and [b_exponential_float] refuse the
    parameters below zero only: they throw an [EvalError] before the engine
    is used, the first for the shape before the scale is evaluated. A
    parameter that is zero, or not a number, is handed to the distribution,
    and the engine moves on as the distribution leaves it. *)
Theorem weibull_exponential_checked (env : EnvI) (wcall ecall : Call)
  (a0 a1 : Expression) (shape : FloatVal) (g : engine) :
  call_args wcall = [a0; a1] →
  call_args ecall = [a0] →
  eval_float env a0 = Ok shape →
  (if FloatVal_.ltb shape double_zero
   then (∃ msg : string,
           b_weibull_float_float env wcall g = (Throw (EvalError msg), g))
        ∧ (∃ msg : string,
             b_exponential_float env ecall g = (Throw (EvalError msg), g))
   else b_exponential_float env ecall g
        = (Ok (exponential_distribution shape g).1,
           (exponential_distribution shape g).2)
        ∧ ∀ scale : FloatVal,
            eval_float env a1 = Ok scale →
            if FloatVal_.ltb scale double_zero
            then ∃ msg : string,
                   b_weibull_float_float env wcall g
                   = (Throw (EvalError msg), g)
            else b_weibull_float_float env wcall g
                 = (Ok (weibull_distribution shape scale g).1,
                    (weibull_distribution shape scale g).2)).
Proof.
  intros Hw He H0. unfold b_weibull_float_float, b_exponential_float.
  rewrite Hw, He, H0. destruct (FloatVal_.ltb shape double_zero).
  - split; eexists; reflexivity.
  - split; [by destruct (exponential_distribution shape g)|].
    intros scale ->. destruct (FloatVal_.ltb scale double_zero).
    + eexists; reflexivity.
    + by destruct (weibull_distribution shape scale g).
Qed.

End SamplingChecked.

Lemma weibull_exponential_checked_witness :
  b_exponential_float Literal.env0
    (Literal.call "exponential" [FloatLit double_zero]) Literal.seed
  = (Ok double_zero, 16807)
  ∧ b_weibull_float_float Literal.env0
      (Literal.call "weibull" [FloatLit double_zero; FloatLit double_zero])
      Literal.seed
    = (Ok double_zero, 16807).
Proof.
  destruct (weibull_exponential_checked
              (ev := Literal.evaluator) (rx := LiteralExt.random) Literal.env0
              (Literal.call "weibull"
                 [FloatLit double_zero; FloatLit double_zero])
              (Literal.call "exponential" [FloatLit double_zero])
              (FloatLit double_zero) (FloatLit double_zero)
              double_zero Literal.seed eq_refl eq_refl eq_refl)
    as [He Hw].
  split; [exact He|]. exact (Hw double_zero eq_refl).
Defined.
